(** * calyptia/fluent-bit-go: the plugin bridge (plugin.go, cshared.go)

    A shallow embedding of the package-level state of [package plugin], of
    the registration functions of plugin.go and of the host-facing entry
    points of cshared.go, followed by the properties proved about them.

    Conventions.
    - The package-level variables are the fields of one record, [State];
      every Go function is a computation in the monad [M] over that record.
    - A computation ends in one of three ways: it returns ([Ret]), it panics
      ([Panic]) or it parks its goroutine for ever ([Block]): a [Wait] on a
      wait group nobody will release, a send on a channel nobody reads.
    - Entry points are run one at a time; what other goroutines may have
      done in between is part of the state an entry point is started in.
      Where the outcome of a call depends on the scheduler (which ready arm
      a [select] takes, whether a goroutine just started has already
      finished), the choice is an argument of the call.
    - Go strings are byte strings: [string]. Byte slices are [list Z] with
      every element in [0, 256). *)

From Stdlib Require Import ZArith List String Ascii Lia Permutation.
From stdpp Require Import base option list gmap strings fin_maps.

Import ListNotations.
Set Warnings "-register-all".
Local Open Scope string_scope.
Local Open Scope list_scope.
Local Open Scope Z_scope.

(** ** Go runtime: outcomes and the state monad *)

Inductive outcome (A : Type) : Type :=
| Ret (a : A)
| Panic (msg : string)
| Block.
Arguments Ret {A} a.
Arguments Panic {A} msg.
Arguments Block {A}.

(** ** Data model (plugin.go) *)

(** [time.Time] as an instant: Unix seconds and the nanosecond within the
    second. Monotonic reading and location are not part of the instant. *)
Record time_Time : Type := mkTime { t_sec : Z; t_nsec : Z }.

(** [type Message struct { Time time.Time; Record map[string]string; tag *string }].
    A [map[string]string] is [None] when nil and [Some m] when made, [m]
    being its pairs; an empty map that has been made is [Some ∅]. The [tag]
    pointer is [None] when nil. *)
Record Message : Type := mkMessage {
  msg_Time : time_Time;
  msg_Record : option (gmap string string);
  msg_tag : option string
}.

(** [func (m Message) Tag() string] *)
Definition Tag (m : Message) : string :=
  match msg_tag m with
  | None => EmptyString
  | Some t => t
  end.

(** [ConfigLoader]: the one method [String(key string) string]. *)
Definition ConfigLoader : Type := string -> string.

(** The user's plugin values. [Init] is the user's [Init] method, given the
    configuration loader of the [Fluentbit] value it is passed (the metrics
    factory and the logger are left out); it returns the error text, or
    [None] for nil. [Collect] and [Flush] run on worker goroutines and are
    represented by the workers recorded in the state. *)
Record InputPlugin : Type := { in_Init : ConfigLoader -> option string }.
Record OutputPlugin : Type := { out_Init : ConfigLoader -> option string }.

Inductive Role : Type := Input | Output.

(** Modelled from the spec: the status constants [FLB_ERROR], [FLB_OK] and
    [FLB_RETRY] of the input and output packages are not in the source
    tree; the spec names three statuses, OK / ERROR / RETRY. *)
Inductive status : Type := FLB_ERROR | FLB_OK | FLB_RETRY.

(** [context.Context.Err()] once the context is done. *)
Inductive ctxError : Type := Canceled | DeadlineExceeded.

(** A channel of [Message]: its buffer (oldest first), its capacity and
    whether it has been closed. *)
Record Chan : Type := mkChan {
  ch_buf : list Message;
  ch_cap : Z;
  ch_closed : bool
}.

(** The goroutines started by the one-shot start action. *)
Inductive goroutine : Type :=
| GCollect        (* ticker loop calling theInput.Collect(runCtx, cbuf) *)
| GRedistribute   (* loop moving cbuf into theChannel under buflock *)
| GFlush.         (* err = theOutput.Flush(runCtx, theChannel) *)

(** The goroutine running the user's [Flush]: still receiving from
    [theChannel], or returned with its error. *)
Inductive flushWorker : Type :=
| WReceiving
| WReturned (err : option string).

Definition Pointer : Type := nat.

(** What the process writes and calls out: one constructor per
    [fmt.Fprintf(os.Stderr, ...)] site, [log.Printf], and the host's
    unregister call. *)
Inductive event : Type :=
| ENoInputOrOutput                 (* "no input or output registered" *)
| ENoInput                         (* "no input registered" *)
| ENoOutput                        (* "no output registered" *)
| EInit (err : string)             (* "init: %v" *)
| EEncode (err : string)           (* "encode: %s" *)
| ERun (err : ctxError)            (* "run: %s" *)
| ERunFlush (err : string)         (* "run: %s", the error of Flush *)
| EBigEndianExt (err : string)     (* "big endian time bytes ext: %v" *)
| EDecode (err : string)           (* "decode: %s" *)
| EEntryLength (d : nat)           (* "unexpected entry length: %d" *)
| EEntryTimeType                   (* "unexpected entry time type: %T" *)
| EEntryRecordType                 (* "unexpected entry record type: %T" *)
| ERecordKeyType                   (* "unexpected record key type: %T" *)
| ERecordValueType                 (* "unexpected record value type: %T" *)
| EExit (name : string)            (* log.Printf("calling FLBPluginExit(): ...") *)
| EUnregister (r : Role) (def : Pointer)
| EGC.                             (* deferred runtime.GC() *)

(** The package-level variables of plugin.go and cshared.go, and the
    environment they are observed through. *)
Record State : Type := mkState {
  (* plugin.go *)
  atomicUint32 : Z;
  theName : string;
  theDesc : string;
  theInput : option InputPlugin;
  theOutput : option OutputPlugin;
  registerWG : Z;
  initWG : Z;
  once : bool;                          (* sync.Once: done *)
  runCtx : option (option ctxError);    (* nil, or a context and its Err() *)
  theChannel : option Chan;
  (* cshared.go *)
  unregister : option (Role * Pointer);
  cmt : option nat;
  logger : option (Role * Pointer);
  buflock : bool;                       (* sync.Mutex: locked *)
  (* goroutines and observers *)
  spawned : list goroutine;
  worker : option flushWorker;
  flushed : list Message;               (* received by the user's Flush *)
  trace : list event;
  starts : nat                          (* executions of the start action *)
}.

Definition M (A : Type) : Type := State -> outcome A * State.

Definition ret {A} (a : A) : M A := fun s => (Ret a, s).
Definition panic {A} (msg : string) : M A := fun s => (Panic msg, s).
Definition block {A} : M A := fun s => (Block, s).
Definition bind {A B} (m : M A) (k : A -> M B) : M B :=
  fun s =>
    match m s with
    | (Ret a, s') => k a s'
    | (Panic msg, s') => (Panic msg, s')
    | (Block, s') => (Block, s')
    end.
Definition get : M State := fun s => (Ret s, s).
Definition gets {A} (f : State -> A) : M A := fun s => (Ret (f s), s).
Definition modify (f : State -> State) : M unit := fun s => (Ret tt, f s).

Declare Scope go_scope.
Delimit Scope go_scope with go.
Notation "x <- m ;; k" := (bind m (fun x => k))
  (at level 90, m at level 60, right associativity) : go_scope.
Notation "m ;;; k" := (bind m (fun _ => k))
  (at level 90, right associativity) : go_scope.
Local Open Scope go_scope.

(** [defer d] at the head of a function body: [d] runs when the body
    returns or panics, not when the goroutine never gets there. *)
Definition defer {A} (d : M unit) (body : M A) : M A :=
  fun s =>
    match body s with
    | (Ret a, s1) =>
        match d s1 with
        | (Ret _, s2) => (Ret a, s2)
        | (Panic msg, s2) => (Panic msg, s2)
        | (Block, s2) => (Block, s2)
        end
    | (Panic msg, s1) => (Panic msg, snd (d s1))
    | (Block, s1) => (Block, s1)
    end.

(** Field updates. *)
Definition set_atomicUint32 (v : Z) (s : State) : State :=
  mkState v (theName s) (theDesc s) (theInput s) (theOutput s) (registerWG s)
    (initWG s) (once s) (runCtx s) (theChannel s) (unregister s) (cmt s)
    (logger s) (buflock s) (spawned s) (worker s) (flushed s) (trace s) (starts s).
Definition set_theName (v : string) (s : State) : State :=
  mkState (atomicUint32 s) v (theDesc s) (theInput s) (theOutput s) (registerWG s)
    (initWG s) (once s) (runCtx s) (theChannel s) (unregister s) (cmt s)
    (logger s) (buflock s) (spawned s) (worker s) (flushed s) (trace s) (starts s).
Definition set_theDesc (v : string) (s : State) : State :=
  mkState (atomicUint32 s) (theName s) v (theInput s) (theOutput s) (registerWG s)
    (initWG s) (once s) (runCtx s) (theChannel s) (unregister s) (cmt s)
    (logger s) (buflock s) (spawned s) (worker s) (flushed s) (trace s) (starts s).
Definition set_theInput (v : option InputPlugin) (s : State) : State :=
  mkState (atomicUint32 s) (theName s) (theDesc s) v (theOutput s) (registerWG s)
    (initWG s) (once s) (runCtx s) (theChannel s) (unregister s) (cmt s)
    (logger s) (buflock s) (spawned s) (worker s) (flushed s) (trace s) (starts s).
Definition set_theOutput (v : option OutputPlugin) (s : State) : State :=
  mkState (atomicUint32 s) (theName s) (theDesc s) (theInput s) v (registerWG s)
    (initWG s) (once s) (runCtx s) (theChannel s) (unregister s) (cmt s)
    (logger s) (buflock s) (spawned s) (worker s) (flushed s) (trace s) (starts s).
Definition set_registerWG (v : Z) (s : State) : State :=
  mkState (atomicUint32 s) (theName s) (theDesc s) (theInput s) (theOutput s) v
    (initWG s) (once s) (runCtx s) (theChannel s) (unregister s) (cmt s)
    (logger s) (buflock s) (spawned s) (worker s) (flushed s) (trace s) (starts s).
Definition set_initWG (v : Z) (s : State) : State :=
  mkState (atomicUint32 s) (theName s) (theDesc s) (theInput s) (theOutput s)
    (registerWG s) v (once s) (runCtx s) (theChannel s) (unregister s) (cmt s)
    (logger s) (buflock s) (spawned s) (worker s) (flushed s) (trace s) (starts s).
Definition set_once (v : bool) (s : State) : State :=
  mkState (atomicUint32 s) (theName s) (theDesc s) (theInput s) (theOutput s)
    (registerWG s) (initWG s) v (runCtx s) (theChannel s) (unregister s) (cmt s)
    (logger s) (buflock s) (spawned s) (worker s) (flushed s) (trace s) (starts s).
Definition set_runCtx (v : option (option ctxError)) (s : State) : State :=
  mkState (atomicUint32 s) (theName s) (theDesc s) (theInput s) (theOutput s)
    (registerWG s) (initWG s) (once s) v (theChannel s) (unregister s) (cmt s)
    (logger s) (buflock s) (spawned s) (worker s) (flushed s) (trace s) (starts s).
Definition set_theChannel (v : option Chan) (s : State) : State :=
  mkState (atomicUint32 s) (theName s) (theDesc s) (theInput s) (theOutput s)
    (registerWG s) (initWG s) (once s) (runCtx s) v (unregister s) (cmt s)
    (logger s) (buflock s) (spawned s) (worker s) (flushed s) (trace s) (starts s).
Definition set_unregister (v : option (Role * Pointer)) (s : State) : State :=
  mkState (atomicUint32 s) (theName s) (theDesc s) (theInput s) (theOutput s)
    (registerWG s) (initWG s) (once s) (runCtx s) (theChannel s) v (cmt s)
    (logger s) (buflock s) (spawned s) (worker s) (flushed s) (trace s) (starts s).
Definition set_cmt (v : option nat) (s : State) : State :=
  mkState (atomicUint32 s) (theName s) (theDesc s) (theInput s) (theOutput s)
    (registerWG s) (initWG s) (once s) (runCtx s) (theChannel s) (unregister s) v
    (logger s) (buflock s) (spawned s) (worker s) (flushed s) (trace s) (starts s).
Definition set_logger (v : option (Role * Pointer)) (s : State) : State :=
  mkState (atomicUint32 s) (theName s) (theDesc s) (theInput s) (theOutput s)
    (registerWG s) (initWG s) (once s) (runCtx s) (theChannel s) (unregister s)
    (cmt s) v (buflock s) (spawned s) (worker s) (flushed s) (trace s) (starts s).
Definition set_buflock (v : bool) (s : State) : State :=
  mkState (atomicUint32 s) (theName s) (theDesc s) (theInput s) (theOutput s)
    (registerWG s) (initWG s) (once s) (runCtx s) (theChannel s) (unregister s)
    (cmt s) (logger s) v (spawned s) (worker s) (flushed s) (trace s) (starts s).
Definition set_spawned (v : list goroutine) (s : State) : State :=
  mkState (atomicUint32 s) (theName s) (theDesc s) (theInput s) (theOutput s)
    (registerWG s) (initWG s) (once s) (runCtx s) (theChannel s) (unregister s)
    (cmt s) (logger s) (buflock s) v (worker s) (flushed s) (trace s) (starts s).
Definition set_worker (v : option flushWorker) (s : State) : State :=
  mkState (atomicUint32 s) (theName s) (theDesc s) (theInput s) (theOutput s)
    (registerWG s) (initWG s) (once s) (runCtx s) (theChannel s) (unregister s)
    (cmt s) (logger s) (buflock s) (spawned s) v (flushed s) (trace s) (starts s).
Definition set_flushed (v : list Message) (s : State) : State :=
  mkState (atomicUint32 s) (theName s) (theDesc s) (theInput s) (theOutput s)
    (registerWG s) (initWG s) (once s) (runCtx s) (theChannel s) (unregister s)
    (cmt s) (logger s) (buflock s) (spawned s) (worker s) v (trace s) (starts s).
Definition set_trace (v : list event) (s : State) : State :=
  mkState (atomicUint32 s) (theName s) (theDesc s) (theInput s) (theOutput s)
    (registerWG s) (initWG s) (once s) (runCtx s) (theChannel s) (unregister s)
    (cmt s) (logger s) (buflock s) (spawned s) (worker s) (flushed s) v (starts s).
Definition set_starts (v : nat) (s : State) : State :=
  mkState (atomicUint32 s) (theName s) (theDesc s) (theInput s) (theOutput s)
    (registerWG s) (initWG s) (once s) (runCtx s) (theChannel s) (unregister s)
    (cmt s) (logger s) (buflock s) (spawned s) (worker s) (flushed s) (trace s) v.

(** [fmt.Fprintf(os.Stderr, ...)], [log.Printf] and host calls. *)
Definition emit (e : event) : M unit :=
  modify (fun s => set_trace (trace s ++ [e]) s).

(** The state when the shared object has been loaded: every variable has
    its zero value and [func init()] has run
    [registerWG.Add(1); initWG.Add(1)]. *)
Definition loaded : State :=
  mkState 0 EmptyString EmptyString None None 1 1 false None None None None None false
    [] None [] [] 0%nat.

(** ** Registration (plugin.go) *)


(** [func mustOnce()]: panics when the flag is already 1, else stores 1. *)
Definition mustOnce : M unit :=
  v <- gets atomicUint32 ;;
  if v =? 1 then panic "plugin already registered"
  else modify (set_atomicUint32 1).

(** [func RegisterInput(name, desc string, in InputPlugin)] *)
Definition RegisterInput (name desc : string) (inp : InputPlugin) : M unit :=
  mustOnce ;;;
  modify (set_theName name) ;;;
  modify (set_theDesc desc) ;;;
  modify (set_theInput (Some inp)).

(** [func RegisterOutput(name, desc string, out OutputPlugin)] *)
Definition RegisterOutput (name desc : string) (out : OutputPlugin) : M unit :=
  mustOnce ;;;
  modify (set_theName name) ;;;
  modify (set_theDesc desc) ;;;
  modify (set_theOutput (Some out)).

(** A registration call, of either role. *)
Inductive registration : Type :=
| RegIn (name desc : string) (inp : InputPlugin)
| RegOut (name desc : string) (out : OutputPlugin).

Definition register (r : registration) : M unit :=
  match r with
  | RegIn name desc inp => RegisterInput name desc inp
  | RegOut name desc out => RegisterOutput name desc out
  end.

(** Registration calls made one after the other; a call that panics
    leaves the variables as they were. *)
Definition register_all (rs : list registration) (s : State) : State :=
  fold_left (fun s r => snd (register r s)) rs s.

(** [x == nil] *)
Definition is_nil {A} (o : option A) : bool :=
  match o with
  | None => true
  | Some _ => false
  end.

(** The number of plugin implementations held by the package variables. *)
Definition registrations (s : State) : nat :=
  ((if is_nil (theInput s) then 0 else 1)
   + (if is_nil (theOutput s) then 0 else 1))%nat.

(** ** sync.WaitGroup, sync.Once, sync.Mutex, context, channels *)

(** [wg.Done()]: the counter goes down by one; below zero it panics. *)
Definition wg_Done (rd : State -> Z) (wr : Z -> State -> State) : M unit :=
  v <- gets rd ;;
  if v - 1 <? 0 then panic "sync: negative WaitGroup counter"
  else modify (wr (v - 1)).

(** [wg.Wait()]: returns once the counter is zero. *)
Definition wg_Wait (rd : State -> Z) : M unit :=
  v <- gets rd ;;
  if 0 <? v then block else ret tt.

(** [once.Do(f)]: runs [f] unless a call of [Do] has run before; the
    result tells whether [f] ran in this call. *)
Definition once_Do (f : M unit) : M bool :=
  d <- gets once ;;
  if d then ret false
  else defer (modify (set_once true)) f ;;; ret true.

(** [mu.Lock()], [mu.Unlock()] *)
Definition mutex_Lock : M unit :=
  l <- gets buflock ;;
  if l then block else modify (set_buflock true).

Definition mutex_Unlock : M unit :=
  l <- gets buflock ;;
  if l then modify (set_buflock false)
  else panic "sync: unlock of unlocked mutex".

(** The [select] on [<-runCtx.Done()]: the context's error when it is done. *)
Definition ctx_Done : M (option ctxError) :=
  c <- gets runCtx ;;
  match c with
  | None => panic "invalid memory address or nil pointer dereference"
  | Some e => ret e
  end.

(** [runCancel()] on a context made by [context.WithCancel]. *)
Definition cancel_ctx (c : option (option ctxError)) : option (option ctxError) :=
  match c with
  | Some None => Some (Some Canceled)
  | other => other
  end.

(** [theChannel <- m]. A nil channel blocks for ever and a closed one
    panics; a channel with room buffers the message; otherwise the send
    completes when the worker running the user's [Flush] receives it. *)
Definition chan_send (m : Message) : M unit :=
  s <- get ;;
  match theChannel s with
  | None => block
  | Some ch =>
      if ch_closed ch then panic "send on closed channel"
      else if Z.of_nat (length (ch_buf ch)) <? ch_cap ch then
        modify (set_theChannel
                  (Some (mkChan (ch_buf ch ++ [m]) (ch_cap ch) false)))
      else
        match worker s with
        | Some WReceiving => modify (set_flushed (flushed s ++ [m]))
        | _ => block
        end
  end.

(** Removes the oldest buffered message of [theChannel]. *)
Definition chan_pop (s : State) : State :=
  match theChannel s with
  | Some ch => set_theChannel
                 (Some (mkChan (tl (ch_buf ch)) (ch_cap ch) (ch_closed ch))) s
  | None => s
  end.

(** ** What cshared.go calls outside the source tree *)

(** Go values as the decoder hands them over in an [any]. A
    [map[any]any] is given by its entries in the order [range] visits
    them. *)
Inductive value : Type :=
| VNil
| VBool (b : bool)
| VInt (z : Z)
| VString (s : string)
| VBytes (b : list Z)                  (* []uint8 *)
| VTime (t : time_Time)                (* bigEndianTime *)
| VRawExt (tag : Z) (data : list Z)
| VSlice (l : list value)              (* []any *)
| VMap (l : list (value * value)).     (* map[any]any *)

(** What the successive calls [dec.Decode(&entry)] on one decoder yield:
    [io.EOF], another error, or an entry and the decoder moved past it. *)
Inductive decStream : Type :=
| DecEOF
| DecErr (err : string)
| DecEntry (entry : list value) (rest : decStream).

(** The functions of the input and output packages, of the codec library
    and of strconv that cshared.go calls. They are not in the source tree;
    the entry points are defined over any choice of them. *)
Record Extern : Type := {
  input_FLBPluginRegister : Pointer -> string -> string -> status;
  output_FLBPluginRegister : Pointer -> string -> string -> status;
  (* (cmt, err) *)
  input_FLBPluginGetCMetricsContext : Pointer -> option nat * option string;
  output_FLBPluginGetCMetricsContext : Pointer -> option nat * option string;
  input_FLBPluginConfigKey : Pointer -> string -> string;
  output_FLBPluginConfigKey : Pointer -> string -> string;
  (* strconv.Unquote: the unquoted string, or None for an error *)
  strconv_Unquote : string -> option string;
  (* input.NewEncoder().Encode([]any{input.FLBTime{Time: t}, rec}) *)
  input_Encode : time_Time -> option (gmap string string) -> list Z + string;
  (* h.SetBytesExt(reflect.TypeOf(bigEndianTime{}), 0, &bigEndianTime{}) *)
  codec_SetBytesExt : option string;
  (* codec.NewDecoderBytes(in, h) and its Decode calls *)
  codec_NewDecoderBytes : list Z -> decStream
}.

(** ** cshared.go *)

(** [strings.Contains(s, substr)] *)
Fixpoint strings_Contains (s substr : string) : bool :=
  if String.prefix substr s then true
  else match s with
       | EmptyString => false
       | String _ s' => strings_Contains s' substr
       end.

Definition dquote : string := String (ascii_of_nat 34) EmptyString.

(** [func unquote(s string) string] *)
Definition unquote (X : Extern) (s : string) : string :=
  match strconv_Unquote X s with
  | Some tmp => tmp
  | None =>
      if strings_Contains s "\n" then
        match strconv_Unquote X (dquote ++ s ++ dquote)%string with
        | Some tmp2 => tmp2
        | None => s
        end
      else s
  end.

(** [func (f *flbInputConfigLoader) String(key string) string] *)
Definition flbInputConfigLoader_String (X : Extern) (ptr : Pointer) : ConfigLoader :=
  fun key => unquote X (input_FLBPluginConfigKey X ptr key).

(** [func (f *flbOutputConfigLoader) String(key string) string] *)
Definition flbOutputConfigLoader_String (X : Extern) (ptr : Pointer) : ConfigLoader :=
  fun key => unquote X (output_FLBPluginConfigKey X ptr key).

(** [func FLBPluginRegister(def unsafe.Pointer) int] *)
Definition FLBPluginRegister (X : Extern) (def : Pointer) : M status :=
  defer (wg_Done registerWG set_registerWG)
    (s <- get ;;
     if is_nil (theInput s) && is_nil (theOutput s) then
       emit ENoInputOrOutput ;;; ret FLB_RETRY
     else if negb (is_nil (theInput s)) then
       let out := input_FLBPluginRegister X def (theName s) (theDesc s) in
       modify (set_unregister (Some (Input, def))) ;;; ret out
     else
       let out := output_FLBPluginRegister X def (theName s) (theDesc s) in
       modify (set_unregister (Some (Output, def))) ;;; ret out).

(** The tail of [FLBPluginInit]: [if err != nil { ... return FLB_ERROR }]. *)
Definition init_result (err : option string) : M status :=
  match err with
  | Some e => emit (EInit e) ;;; ret FLB_ERROR
  | None => ret FLB_OK
  end.

(** [func FLBPluginInit(ptr unsafe.Pointer) int]. The context made for
    the call is cancelled on return and touches no package variable. *)
Definition FLBPluginInit (X : Extern) (ptr : Pointer) : M status :=
  defer (wg_Done initWG set_initWG)
    (wg_Wait registerWG ;;;
     s <- get ;;
     if is_nil (theInput s) && is_nil (theOutput s) then
       emit ENoInputOrOutput ;;; ret FLB_RETRY
     else
       match theInput s with
       | Some inp =>
           let conf := flbInputConfigLoader_String X ptr in
           let '(c, err) := input_FLBPluginGetCMetricsContext X ptr in
           modify (set_cmt c) ;;;
           match err with
           | Some _ => ret FLB_ERROR
           | None =>
               modify (set_logger (Some (Input, ptr))) ;;;
               init_result (in_Init inp conf)
           end
       | None =>
           let conf := flbOutputConfigLoader_String X ptr in
           let '(c, err) := output_FLBPluginGetCMetricsContext X ptr in
           modify (set_cmt c) ;;;
           match err with
           | Some _ => ret FLB_ERROR
           | None =>
               modify (set_logger (Some (Output, ptr))) ;;;
               match theOutput s with
               | Some out => init_result (out_Init out conf)
               | None => panic "invalid memory address or nil pointer dereference"
               end
           end
       end).

(** The closure given to [once.Do] in [FLBPluginInputCallback]: the run
    context, the primary channel (capacity 300000), the staging channel
    and the two workers. *)
Definition start_input : M unit :=
  modify (set_runCtx (Some None)) ;;;
  modify (set_theChannel (Some (mkChan [] 300000 false))) ;;;
  modify (fun s => set_spawned (spawned s ++ [GCollect; GRedistribute]) s) ;;;
  modify (fun s => set_starts (S (starts s)) s).

(** The [case <-runCtx.Done()] arm of the drain loop. The result is
    either the status returned at once, or the batch so far and whether
    [runtime.GC()] has been deferred. *)
Definition drain_done (buf : list Z) (e : ctxError) : M (status + list Z * bool) :=
  match e with
  | Canceled => ret (inr (buf, true))
  | _ => emit (ERun e) ;;; ret (inl FLB_ERROR)
  end.

(** The loop [for loop := len(theChannel) > 0; loop; { select { ... } }]
    of [FLBPluginInputCallback], over the buffered messages [q] of
    [theChannel], when no send of the redistributor completes while the
    loop runs ([drain_loop_sending] is the loop with one in flight). When
    both the receive and the [Done] arm are ready, [select] takes either:
    the head of [sel] says which ([true]: the receive). *)
Fixpoint drain_loop (X : Extern) (sel : list bool) (q : list Message)
    (buf : list Z) {struct q} : M (status + list Z * bool) :=
  s <- get ;;
  let closed := match theChannel s with
                | Some ch => ch_closed ch
                | None => false
                end in
  done <- ctx_Done ;;
  match q with
  | [] =>
      if closed then
        match done with
        | Some e => if hd true sel then ret (inl FLB_ERROR) else drain_done buf e
        | None => ret (inl FLB_ERROR)                    (* !ok *)
        end
      else
        match done with
        | Some e => drain_done buf e
        | None => ret (inr (buf, false))                 (* default *)
        end
  | msg :: q' =>
      match done, hd true sel with
      | Some e, false => drain_done buf e
      | _, _ =>
          modify chan_pop ;;;
          match input_Encode X (msg_Time msg) (msg_Record msg) with
          | inr err => emit (EEncode err) ;;; ret (inl FLB_ERROR)
          | inl b => drain_loop X (tl sel) q' (buf ++ b)
          end
      end
  end.

(** The drain of [FLBPluginInputCallback]: from [buflock.Lock()] to the
    final [return input.FLB_OK]. The second component of the result is
    what the call stored through [data] and [csize]: [None] when it stored
    nothing. *)
Definition drain (X : Extern) (sel : list bool) : M (status * option (list Z)) :=
  mutex_Lock ;;;
  s <- get ;;
  let q := match theChannel s with
           | Some ch => ch_buf ch
           | None => []
           end in
  r <- (if (0 <? length q)%nat then drain_loop X sel q []
        else ret (inr ([], false))) ;;
  match r with
  | inl st => ret (st, None)
  | inr (buf, gc) =>
      mutex_Unlock ;;;
      (if gc then emit EGC else ret tt) ;;;
      if (0 <? length buf)%nat then ret (FLB_OK, Some buf)
      else ret (FLB_OK, None)
  end.

(** [func FLBPluginInputCallback(data *unsafe.Pointer, csize *C.size_t) int] *)
Definition FLBPluginInputCallback (X : Extern) (sel : list bool)
    : M (status * option (list Z)) :=
  wg_Wait initWG ;;;
  s <- get ;;
  if is_nil (theInput s) then
    emit ENoInput ;;; ret (FLB_RETRY, None)
  else
    once_Do start_input ;;;
    drain X sel.

(** [func FLBPluginInputCleanupCallback(data unsafe.Pointer) int] *)
Definition FLBPluginInputCleanupCallback : M status := ret FLB_OK.

(** The closure given to [once.Do] in [FLBPluginFlush]: the run context,
    the unbuffered channel and the worker running the user's [Flush].
    [early] is what that worker has done by the time the entry point
    reads [err]: [None] when it is still running, [Some e] when [Flush]
    has already returned [e]. *)
Definition start_output (early : option (option string)) : M unit :=
  modify (set_runCtx (Some None)) ;;;
  modify (set_theChannel (Some (mkChan [] 0 false))) ;;;
  modify (fun s => set_spawned (spawned s ++ [GFlush]) s) ;;;
  modify (set_worker (Some match early with
                           | None => WReceiving
                           | Some e => WReturned e
                           end)) ;;;
  modify (fun s => set_starts (S (starts s)) s).

(** [string(val)] of a byte slice, and [[]byte(s)]. *)
Definition string_of_bytes (b : list Z) : string :=
  string_of_list_ascii (map (fun z => ascii_of_N (Z.to_N z)) b).

Definition bytes_of_string (s : string) : list Z :=
  map (fun a => Z.of_N (N_of_ascii a)) (list_ascii_of_string s).

(** The loop [for k, v := range recVal] filling [rec]. *)
Fixpoint convert_record (recVal : list (value * value))
    (rec : gmap string string) : gmap string string + event :=
  match recVal with
  | [] => inl rec
  | (k, v) :: recVal' =>
      match k with
      | VString key =>
          match v with
          | VBytes val => convert_record recVal' (<[key := string_of_bytes val]> rec)
          | _ => inr ERecordValueType
          end
      | _ => inr ERecordKeyType
      end
  end.

(** The checks of one decoded [entry] in [FLBPluginFlush], from
    [if d := len(entry); d != 2] to the filled [rec]; [rec] stays nil when
    the decoded map is empty. *)
Definition decode_entry (entry : list value)
    : time_Time * option (gmap string string) + event :=
  match entry with
  | [e0; e1] =>
      match e0 with
      | VTime ft =>
          match e1 with
          | VMap recVal =>
              if (length recVal =? 0)%nat then inl (ft, None)
              else match convert_record recVal ∅ with
                   | inl rec => inl (ft, Some rec)
                   | inr ev => inr ev
                   end
          | _ => inr EEntryRecordType
          end
      | _ => inr EEntryTimeType
      end
  | _ => inr (EEntryLength (length entry))
  end.

(** The two [select]s on [runCtx.Done()] of [FLBPluginFlush]: the status
    to return when the context is done. *)
Definition flush_done (e : ctxError) : M status :=
  match e with
  | Canceled => ret FLB_OK
  | _ => emit (ERun e) ;;; ret FLB_ERROR
  end.

(** The decode loop of [FLBPluginFlush]. *)
Fixpoint flush_loop (tag : string) (dec : decStream) {struct dec} : M status :=
  done <- ctx_Done ;;
  match done with
  | Some e => flush_done e
  | None =>
      match dec with
      | DecEOF => ret FLB_OK
      | DecErr err => emit (EDecode err) ;;; ret FLB_ERROR
      | DecEntry entry rest =>
          match decode_entry entry with
          | inr ev => emit ev ;;; ret FLB_ERROR
          | inl (t, rec) =>
              chan_send (mkMessage t rec (Some tag)) ;;;
              flush_loop tag rest
          end
      end
  end.

(** [FLBPluginFlush] after its [once.Do]: from [if err != nil] to the
    end. [ran] tells whether the start action ran in this call; only then
    can [err] have been set by the worker. *)
Definition flush_after (X : Extern) (early : option (option string))
    (data : list Z) (ctag : string) (ran : bool) : M status :=
  let err := if ran then match early with
                         | Some e => e
                         | None => None
                         end
             else None in
  match err with
  | Some e => emit (ERunFlush e) ;;; ret FLB_ERROR
  | None =>
      done <- ctx_Done ;;
      match done with
      | Some e => flush_done e
      | None =>
          match codec_SetBytesExt X with
          | Some e => emit (EBigEndianExt e) ;;; ret FLB_ERROR
          | None => flush_loop ctag (codec_NewDecoderBytes X data)
          end
      end
  end.

(** [func FLBPluginFlush(data unsafe.Pointer, clength C.int, ctag *C.char) int],
    with [data] the bytes [C.GoBytes(data, clength)] and [ctag] the
    string [C.GoString(ctag)]. *)
Definition FLBPluginFlush (X : Extern) (early : option (option string))
    (data : list Z) (ctag : string) : M status :=
  wg_Wait initWG ;;;
  s <- get ;;
  if is_nil (theOutput s) then
    emit ENoOutput ;;; ret FLB_RETRY
  else
    ran <- once_Do (start_output early) ;;
    flush_after X early data ctag ran.

(** [close(theChannel)] *)
Definition chan_close : M unit :=
  c <- gets theChannel ;;
  match c with
  | None => panic "close of nil channel"
  | Some ch =>
      if ch_closed ch then panic "close of closed channel"
      else modify (set_theChannel (Some (mkChan (ch_buf ch) (ch_cap ch) true)))
  end.

(** [func FLBPluginExit() int] *)
Definition FLBPluginExit : M status :=
  s <- get ;;
  defer (if is_nil (theChannel s) then ret tt else chan_close)
    (emit (EExit (theName s)) ;;;
     match unregister s with
     | Some (r, def) => emit (EUnregister r def)
     | None => ret tt
     end ;;;
     modify (fun s => set_runCtx (cancel_ctx (runCtx s)) s) ;;;
     ret FLB_OK).

(** The host's calls of the poll and flush entry points. *)
Inductive call : Type :=
| Poll (sel : list bool)
| Flush (early : option (option string)) (data : list Z) (ctag : string).

(** One call, its result dropped. *)
Definition step (X : Extern) (c : call) (s : State) : State :=
  match c with
  | Poll sel => snd (FLBPluginInputCallback X sel s)
  | Flush early data ctag => snd (FLBPluginFlush X early data ctag s)
  end.

(** A sequence of calls, one after the other. *)
Definition run (X : Extern) (cs : list call) (s : State) : State :=
  fold_left (fun s c => step X c s) cs s.

(** ** The wire format *)

(** Modelled from the spec: [input.NewEncoder], [input.FLBTime] and
    [bigEndianTime] (the encoder of the drain path and the two time
    extensions) and the MessagePack codec they configure are not in the
    source tree. The spec fixes the shape: a record is the 2-element
    sequence [time, fields]; [time] is a binary extension holding
    big-endian seconds and nanoseconds; [fields] is a string-keyed mapping
    of string values. The bytes below are those of the MessagePack format
    for that shape: array, extension type 0 with 8 bytes of data, map and
    str headers, with lengths in big-endian. *)

Definition uint32 (x : Z) : Z := x mod 2 ^ 32.

(** [binary.BigEndian.PutUint16], [PutUint32] *)
Definition be16 (n : Z) : list Z :=
  [Z.land (Z.shiftr n 8) 255; Z.land n 255].

Definition be32 (n : Z) : list Z :=
  [Z.land (Z.shiftr n 24) 255; Z.land (Z.shiftr n 16) 255;
   Z.land (Z.shiftr n 8) 255; Z.land n 255].

(** [binary.BigEndian.Uint16], [Uint32], [Uint64]: the bytes read as one
    big-endian number. *)
Definition un_be (b : list Z) : Z :=
  fold_left (fun acc x => Z.lor (Z.shiftl acc 8) x) b 0.

(** Modelled from the spec: [time.Unix(sec, nsec)], with nanoseconds
    outside [0, 999999999] carried into the seconds. *)
Definition time_Unix (sec nsec : Z) : time_Time :=
  if (nsec <? 0) || (1000000000 <=? nsec)
  then mkTime (sec + nsec / 1000000000) (nsec mod 1000000000)
  else mkTime sec nsec.

(** Modelled from the spec: the data of the time extension written by the
    drain path, seconds then nanoseconds, each a big-endian [uint32]. *)
Definition FLBTime_WriteExt (t : time_Time) : list Z :=
  be32 (uint32 (t_sec t)) ++ be32 (uint32 (t_nsec t)).

(** Modelled from the spec: the time read back by the flush path from the
    8 bytes of the extension. *)
Definition bigEndianTime_ReadExt (b : list Z) : time_Time :=
  time_Unix (un_be (firstn 4 b)) (un_be (skipn 4 b)).

(** Modelled from the spec: the header of a str of [n] bytes. A length
    that does not fit 32 bits cannot be written. *)
Definition str_header (n : Z) : option (list Z) :=
  if n <? 32 then Some [160 + n]
  else if n <? 256 then Some [217; n]
  else if n <? 65536 then Some (218 :: be16 n)
  else if n <? 4294967296 then Some (219 :: be32 n)
  else None.

(** Modelled from the spec: the header of a map of [n] pairs. *)
Definition map_header (n : Z) : option (list Z) :=
  if n <? 16 then Some [128 + n]
  else if n <? 65536 then Some (222 :: be16 n)
  else if n <? 4294967296 then Some (223 :: be32 n)
  else None.

Definition encode_str (s : string) : option (list Z) :=
  match str_header (Z.of_nat (String.length s)) with
  | Some h => Some (h ++ bytes_of_string s)
  | None => None
  end.

Fixpoint encode_pairs (l : list (string * string)) : option (list Z) :=
  match l with
  | [] => Some []
  | (k, v) :: l' =>
      match encode_str k, encode_str v, encode_pairs l' with
      | Some bk, Some bv, Some bl => Some (bk ++ bv ++ bl)
      | _, _, _ => None
      end
  end.

(** fixext 8 (0xd7), extension type 0, 8 bytes. *)
Definition encode_time (t : time_Time) : list Z :=
  [215; 0] ++ FLBTime_WriteExt t.

(** Modelled from the spec: the encoding of [[]any{t, rec}] with the
    pairs of [rec] written in the order [l]; fixarray of 2 is 0x92. *)
Definition encode_entry (t : time_Time) (l : list (string * string))
    : list Z + string :=
  match map_header (Z.of_nat (length l)), encode_pairs l with
  | Some h, Some b => inl ([146] ++ encode_time t ++ h ++ b)
  | _, _ => inr "msgpack: length overflows uint32"
  end.

(** Modelled from the spec: [input.NewEncoder().Encode([]any{t, rec})]
    with the pairs of a made [rec] written in the order [l]. The codec
    writes a nil map, like every nil value, as nil (0xc0). *)
Definition encode_message (t : time_Time) (rec : option (gmap string string))
    (l : list (string * string)) : list Z + string :=
  match rec with
  | Some _ => encode_entry t l
  | None => inl ([146] ++ encode_time t ++ [192])
  end.

(** The pairs of a made map in one order; a nil map has none. *)
Definition pairs_of (rec : option (gmap string string)) : list (string * string) :=
  match rec with
  | Some m => map_to_list m
  | None => []
  end.

(** Modelled from the spec: [input.NewEncoder().Encode([]any{t, rec})]. *)
Definition msgpack_Encode (t : time_Time) (rec : option (gmap string string))
    : list Z + string :=
  encode_message t rec (pairs_of rec).

(** [n] bytes off the front of [b]. *)
Definition take_bytes (n : Z) (b : list Z) : option (list Z * list Z) :=
  if (n <? 0) || (Z.of_nat (length b) <? n) then None
  else Some (firstn (Z.to_nat n) b, skipn (Z.to_nat n) b).

(** A length field of [k] bytes. *)
Definition take_len (k : Z) (b : list Z) : option (Z * list Z) :=
  match take_bytes k b with
  | Some (l, b') => Some (un_be l, b')
  | None => None
  end.

(** [n] values in a row. *)
Fixpoint decode_n {A} (dec : list Z -> option (A * list Z)) (n : nat)
    (b : list Z) : option (list A * list Z) :=
  match n with
  | O => Some ([], b)
  | S n' =>
      match dec b with
      | Some (a, b') =>
          match decode_n dec n' b' with
          | Some (l, b'') => Some (a :: l, b'')
          | None => None
          end
      | None => None
      end
  end.

(** No container holds more values than bytes are left. *)
Definition decode_count {A} (dec : list Z -> option (A * list Z)) (n : Z)
    (b : list Z) : option (list A * list Z) :=
  if Z.of_nat (length b) <? n then None else decode_n dec (Z.to_nat n) b.

(** A map key read as bytes is handed over as a string. *)
Definition map_key (k : value) : value :=
  match k with
  | VBytes b => VString (string_of_bytes b)
  | other => other
  end.

(** An extension: type 0 with 8 bytes is the registered [bigEndianTime];
    any other is handed over unread. *)
Definition decode_ext (tag : Z) (data : list Z) : value :=
  if (tag =? 0) && (length data =? 8)%nat
  then VTime (bigEndianTime_ReadExt data)
  else VRawExt tag data.

Definition signed (bits x : Z) : Z :=
  if x <? 2 ^ (bits - 1) then x else x - 2 ^ bits.

(** The bodies that follow a header byte: raw bytes, an extension (type
    byte, then data), a length field of [k] bytes in front of a body, an
    unsigned and a signed integer of [k] bytes. *)
Definition decode_bytes (n : Z) (t : list Z) : option (value * list Z) :=
  match take_bytes n t with
  | Some (d, t') => Some (VBytes d, t')
  | None => None
  end.

Definition decode_ext_body (n : Z) (t : list Z) : option (value * list Z) :=
  match t with
  | tag :: t1 =>
      match take_bytes n t1 with
      | Some (d, t2) => Some (decode_ext tag d, t2)
      | None => None
      end
  | [] => None
  end.

Definition sized {A} (k : Z) (body : Z -> list Z -> option A) (t : list Z)
    : option A :=
  match take_len k t with
  | Some (n, t') => body n t'
  | None => None
  end.

Definition decode_uint (k : Z) (t : list Z) : option (value * list Z) :=
  match take_len k t with
  | Some (n, t') => Some (VInt n, t')
  | None => None
  end.

Definition decode_int (k : Z) (t : list Z) : option (value * list Z) :=
  match take_len k t with
  | Some (n, t') => Some (VInt (signed (8 * k) n), t')
  | None => None
  end.

(** An array of [n] values and a map of [n] pairs, given the decoder
    [dec] of one value. *)
Definition decode_array (dec : list Z -> option (value * list Z)) (n : Z)
    (t : list Z) : option (value * list Z) :=
  match decode_count dec n t with
  | Some (l, t') => Some (VSlice l, t')
  | None => None
  end.

Definition decode_pair (dec : list Z -> option (value * list Z)) (t : list Z)
    : option (value * value * list Z) :=
  match dec t with
  | Some (k, t1) =>
      match dec t1 with
      | Some (v, t2) => Some ((map_key k, v), t2)
      | None => None
      end
  | None => None
  end.

Definition decode_map (dec : list Z -> option (value * list Z)) (n : Z)
    (t : list Z) : option (value * list Z) :=
  match decode_count (decode_pair dec) n t with
  | Some (l, t') => Some (VMap l, t')
  | None => None
  end.

(** Modelled from the spec: one value decoded into an [any] by a decoder
    of the default handle with the time extension registered: a str or bin
    comes out as [[]uint8], a map as [map[any]any] with its byte keys made
    strings. [fuel] bounds the nesting. Floats are not covered and are
    reported as errors, like ill-formed input. *)
Fixpoint decode_value (fuel : nat) (b : list Z) {struct fuel}
    : option (value * list Z) :=
  match fuel with
  | O => None
  | S f =>
      let array := decode_array (decode_value f) in
      let dict := decode_map (decode_value f) in
      match b with
      | [] => None
      | h :: t =>
          if (h <? 0) || (255 <? h) then None
          else if h <? 128 then Some (VInt h, t)            (* positive fixint *)
          else if h <? 144 then dict (h - 128) t            (* fixmap *)
          else if h <? 160 then array (h - 144) t           (* fixarray *)
          else if h <? 192 then decode_bytes (h - 160) t    (* fixstr *)
          else if h =? 192 then Some (VNil, t)
          else if h =? 194 then Some (VBool false, t)
          else if h =? 195 then Some (VBool true, t)
          else if h =? 196 then sized 1 decode_bytes t      (* bin 8 *)
          else if h =? 197 then sized 2 decode_bytes t
          else if h =? 198 then sized 4 decode_bytes t
          else if h =? 199 then sized 1 decode_ext_body t   (* ext 8 *)
          else if h =? 200 then sized 2 decode_ext_body t
          else if h =? 201 then sized 4 decode_ext_body t
          else if h =? 204 then decode_uint 1 t
          else if h =? 205 then decode_uint 2 t
          else if h =? 206 then decode_uint 4 t
          else if h =? 207 then decode_uint 8 t
          else if h =? 208 then decode_int 1 t
          else if h =? 209 then decode_int 2 t
          else if h =? 210 then decode_int 4 t
          else if h =? 211 then decode_int 8 t
          else if h =? 212 then decode_ext_body 1 t         (* fixext 1 *)
          else if h =? 213 then decode_ext_body 2 t
          else if h =? 214 then decode_ext_body 4 t
          else if h =? 215 then decode_ext_body 8 t         (* fixext 8 *)
          else if h =? 216 then decode_ext_body 16 t
          else if h =? 217 then sized 1 decode_bytes t      (* str 8 *)
          else if h =? 218 then sized 2 decode_bytes t
          else if h =? 219 then sized 4 decode_bytes t
          else if h =? 220 then sized 2 array t             (* array 16 *)
          else if h =? 221 then sized 4 array t
          else if h =? 222 then sized 2 dict t              (* map 16 *)
          else if h =? 223 then sized 4 dict t
          else if 224 <=? h then Some (VInt (h - 256), t)   (* negative fixint *)
          else None
      end
  end.

(** Modelled from the spec: the entries [Decode(&entry)] yields from the
    bytes [b], [entry] being a [[]any]: end of input is [io.EOF], an array
    is an entry, nil is the nil slice, anything else is an error. Every
    entry takes at least one byte, so fuel equal to the number of bytes
    does not run out. *)
Fixpoint decode_stream (fuel : nat) (b : list Z) {struct fuel} : decStream :=
  match b with
  | [] => DecEOF
  | _ =>
      match fuel with
      | O => DecErr "unexpected EOF"
      | S f =>
          match decode_value (length b) b with
          | Some (VSlice l, rest) => DecEntry l (decode_stream f rest)
          | Some (VNil, rest) => DecEntry [] (decode_stream f rest)
          | Some _ => DecErr "cannot decode into a slice"
          | None => DecErr "cannot decode"
          end
      end
  end.

Definition msgpack_NewDecoderBytes (b : list Z) : decStream :=
  decode_stream (length b) b.

(** The external functions [X] with the codec above in place. *)
Definition with_msgpack (X : Extern) : Extern :=
  {| input_FLBPluginRegister := input_FLBPluginRegister X;
     output_FLBPluginRegister := output_FLBPluginRegister X;
     input_FLBPluginGetCMetricsContext := input_FLBPluginGetCMetricsContext X;
     output_FLBPluginGetCMetricsContext := output_FLBPluginGetCMetricsContext X;
     input_FLBPluginConfigKey := input_FLBPluginConfigKey X;
     output_FLBPluginConfigKey := output_FLBPluginConfigKey X;
     strconv_Unquote := strconv_Unquote X;
     input_Encode := msgpack_Encode;
     codec_SetBytesExt := None;
     codec_NewDecoderBytes := msgpack_NewDecoderBytes |}.

(** ** Derived notions used in the statements *)

(** The decoder stream that yields the entries [es] and then goes on as
    [rest]. *)
Fixpoint entries_then (es : list (list value)) (rest : decStream) : decStream :=
  match es with
  | [] => rest
  | e :: es' => DecEntry e (entries_then es' rest)
  end.

(** The entries that [FLBPluginFlush] rejects, by the check that rejects
    them. *)
Inductive bad_entry : list value -> Prop :=
| bad_arity (e : list value) :
    length e <> 2%nat -> bad_entry e
| bad_time (e0 e1 : value) :
    (forall t, e0 <> VTime t) -> bad_entry [e0; e1]
| bad_record (t : time_Time) (e1 : value) :
    (forall l, e1 <> VMap l) -> bad_entry [VTime t; e1]
| bad_key (t : time_Time) (l : list (value * value)) (k v : value) :
    In (k, v) l -> (forall s, k <> VString s) -> bad_entry [VTime t; VMap l]
| bad_value (t : time_Time) (l : list (value * value)) (k v : value) :
    In (k, v) l -> (forall b, v <> VBytes b) -> bad_entry [VTime t; VMap l].

(** The stream makes the flush call fail at its head: [Decode] reports
    an error other than [io.EOF], or yields an entry that is rejected. *)
Inductive fails_next : decStream -> Prop :=
| fails_decode (err : string) : fails_next (DecErr err)
| fails_check (bad : list value) (rest : decStream) :
    bad_entry bad -> fails_next (DecEntry bad rest).

(** The Message the flush path makes of a decoded pair. *)
Definition tagged (tag : string) (p : time_Time * option (gmap string string))
    : Message :=
  mkMessage (fst p) (snd p) (Some tag).

(** A flush call finds a consumer: either the start action has not run
    and the worker it spawns keeps running, or it has run, the context is
    not done, the unbuffered channel is open and the worker is receiving. *)
Definition consuming (early : option (option string)) (s : State) : Prop :=
  if once s
  then runCtx s = Some None
       /\ theChannel s = Some (mkChan [] 0 false)
       /\ worker s = Some WReceiving
  else early = None.

(** The user's [Flush] has returned and cancellation has not been
    signalled. *)
Definition flush_ended (s : State) : Prop :=
  once s = true
  /\ runCtx s = Some None
  /\ theChannel s = Some (mkChan [] 0 false)
  /\ exists err, worker s = Some (WReturned err).

(** A call gets past the guards of its entry point: [Init] has returned
    and a plugin of the entry point's role is registered. *)
Definition accepted (c : call) (s : State) : Prop :=
  initWG s <= 0
  /\ match c with
     | Poll _ => theInput s <> None
     | Flush _ _ _ => theOutput s <> None
     end.

(** The events a call has added to the trace. *)
Definition emitted (s s' : State) (tr : list event) : Prop :=
  trace s' = trace s ++ tr.

(** ** Example data *)

(** A fragment of [strconv.Unquote]: a double-quoted literal whose only
    escape is backslash-n; everything else is reported as an error. *)
Fixpoint unescape_newlines (body : string) : option string :=
  match body with
  | EmptyString => Some EmptyString
  | String c rest =>
      if (nat_of_ascii c =? 92)%nat then
        match rest with
        | String c' rest' =>
            if (nat_of_ascii c' =? 110)%nat then
              match unescape_newlines rest' with
              | Some r => Some (String (ascii_of_nat 10) r)
              | None => None
              end
            else None
        | EmptyString => None
        end
      else if (nat_of_ascii c =? 34)%nat || (nat_of_ascii c =? 10)%nat then None
      else match unescape_newlines rest with
           | Some r => Some (String c r)
           | None => None
           end
  end.

Definition sample_Unquote (s : string) : option string :=
  let n := String.length s in
  if (2 <=? n)%nat
     && String.eqb (substring 0 1 s) dquote
     && String.eqb (substring (n - 1) 1 s) dquote
  then unescape_newlines (substring 1 (n - 2) s)
  else None.

(** A host for the examples. Its encoder is the MessagePack one, except
    that it refuses a record with the key "poison". *)
Definition sample : Extern :=
  {| input_FLBPluginRegister := fun _ _ _ => FLB_OK;
     output_FLBPluginRegister := fun _ _ _ => FLB_OK;
     input_FLBPluginGetCMetricsContext := fun _ => (Some 7%nat, None);
     output_FLBPluginGetCMetricsContext := fun _ => (Some 7%nat, None);
     input_FLBPluginConfigKey := fun _ key => if String.eqb key "foo" then "a\nb" else EmptyString;
     output_FLBPluginConfigKey := fun _ key => if String.eqb key "foo" then "a\nb" else EmptyString;
     strconv_Unquote := sample_Unquote;
     input_Encode := fun t rec =>
       match rec ≫= (fun m => m !! "poison") with
       | Some _ => inr "cannot encode"
       | None => msgpack_Encode t rec
       end;
     codec_SetBytesExt := None;
     codec_NewDecoderBytes := msgpack_NewDecoderBytes |}.

Definition sample_input : InputPlugin := {| in_Init := fun conf => None |}.
Definition sample_output : OutputPlugin := {| out_Init := fun conf => None |}.

(** The state of an input plugin, and of an output plugin, once the host
    has called [FLBPluginRegister] and [FLBPluginInit]. *)
Definition input_ready : State :=
  snd (FLBPluginInit sample 0%nat
         (snd (FLBPluginRegister sample 0%nat
                 (snd (RegisterInput "in" "example input" sample_input loaded))))).

Definition output_ready : State :=
  snd (FLBPluginInit sample 0%nat
         (snd (FLBPluginRegister sample 0%nat
                 (snd (RegisterOutput "out" "example output" sample_output loaded))))).

Definition t1 : time_Time := mkTime 1700000000 123456789.
Definition t2 : time_Time := mkTime 1700000001 5.
Definition t3 : time_Time := mkTime 1700000002 0.
Definition rec_ab : gmap string string := {[ "a" := "b" ]}.
Definition rec_cd : gmap string string := {[ "c" := "d" ]}.
Definition rec_poison : gmap string string := {[ "poison" := "x" ]}.

(** [[(t1, {"a": "b"}), (t2, {"c": "d"})]] on the wire. *)
Definition blob_two : list Z :=
  [146; 215; 0; 101; 83; 241; 0; 7; 91; 205; 21; 129; 161; 97; 161; 98;
   146; 215; 0; 101; 83; 241; 1; 0; 0; 0; 5; 129; 161; 99; 161; 100].

(** Three entries, the second of 3 elements instead of 2. *)
Definition blob_bad_second : list Z :=
  [146; 215; 0; 101; 83; 241; 0; 7; 91; 205; 21; 129; 161; 97; 161; 98;
   147; 215; 0; 101; 83; 241; 1; 0; 0; 0; 5; 129; 161; 99; 161; 100; 192;
   146; 215; 0; 101; 83; 241; 2; 0; 0; 0; 0; 128].

(** [[(t1, {"a": "b"})]] on the wire. *)
Definition blob_one : list Z :=
  [146; 215; 0; 101; 83; 241; 0; 7; 91; 205; 21; 129; 161; 97; 161; 98].

(** The user's [Flush] returns [err]; nothing else changes. *)
Definition flush_returns (err : option string) (s : State) : State :=
  set_worker (Some (WReturned err)) s.

(** The collector's workers have put [q] into the primary channel. *)
Definition collected (q : list Message) (s : State) : State :=
  match theChannel s with
  | Some ch => set_theChannel (Some (mkChan (ch_buf ch ++ q) (ch_cap ch) (ch_closed ch))) s
  | None => s
  end.

(** ** Notions used in the proofs *)

(** A computation that leaves the start bookkeeping alone. *)
Definition keeps {A} (m : M A) : Prop :=
  forall s, once (snd (m s)) = once s
            /\ starts (snd (m s)) = starts s
            /\ spawned (snd (m s)) = spawned s.

(** How one call may move the start bookkeeping: not at all, or, if the
    start action had not run, by running it once. *)
Definition start_rel (s s' : State) : Prop :=
  (once s' = once s /\ starts s' = starts s /\ spawned s' = spawned s)
  \/ (once s = false /\ once s' = true /\ starts s' = S (starts s)).

(** The context is live, the channel is the open unbuffered one and the
    worker is receiving. *)
Definition receiving (s : State) : Prop :=
  runCtx s = Some None
  /\ theChannel s = Some (mkChan [] 0 false)
  /\ worker s = Some WReceiving.

(** The pair as the decoder hands it over. *)
Definition wire_pair (kv : string * string) : value * value :=
  (VString (fst kv), VBytes (bytes_of_string (snd kv))).

(** A poll call finds the gates open, the start action done, the lock
    free, the context live and the open primary channel holding [ms]. *)
Definition draining (s : State) (ms : list Message) : Prop :=
  initWG s <= 0 /\ theInput s <> None /\ once s = true /\ buflock s = false
  /\ runCtx s = Some None
  /\ exists cap, theChannel s = Some (mkChan ms cap false).

(** The encoder of the drain path turns [m] into the bytes [b]. *)
Definition encodes (X : Extern) (m : Message) (b : list Z) : Prop :=
  input_Encode X (msg_Time m) (msg_Record m) = inl b.

(** The [Record] of the Message is not nil. *)
Definition made (m : Message) : Prop := msg_Record m <> None.

(** The nanoseconds of a [time.Time] lie within the second. *)
Definition nanos_ok (m : Message) : Prop :=
  0 <= t_nsec (msg_Time m) < 1000000000.

(** The record the flush path makes of a decoded map with the pairs of
    [m]: nil when there is none. *)
Definition flush_record (m : gmap string string) : option (gmap string string) :=
  match map_to_list m with
  | [] => None
  | _ => Some m
  end.

(** What the flush path reads of a Message whose record has been made:
    the seconds as a [uint32], the nanoseconds, the record. *)
Definition wire_time (m : Message) : time_Time * option (gmap string string) :=
  (mkTime (uint32 (t_sec (msg_Time m))) (t_nsec (msg_Time m)),
   msg_Record m ≫= flush_record).


(** A decoder that never hands back more than it was given. *)
Definition consumes {A} (dec : list Z -> option (A * list Z)) : Prop :=
  forall b v t, dec b = Some (v, t) -> (length t <= length b)%nat.

(** ** The redistributor (cshared.go) *)

(** The arm the [select] of the redistributor takes in one pass of its
    loop. *)
Inductive arm : Type :=
| ArmMsg (msg : Message)   (* case msg, ok := <-cbuf, with ok *)
| ArmClosed                (* case msg, ok := <-cbuf, with !ok *)
| ArmTick                  (* case <-t.C *)
| ArmDone.                 (* case <-runCtx.Done() *)

(** One pass of the loop of the second goroutine started by
    [FLBPluginInputCallback], from [buflock.Lock()] to the closing
    [buflock.Unlock()]. The result tells whether the loop goes on. The
    [Done] arm is ready only once the context is done; [continue] skips
    the closing [Unlock]. *)
Definition redistribute_pass (a : arm) : M bool :=
  mutex_Lock ;;;
  done <- ctx_Done ;;
  match a with
  | ArmMsg msg =>
      mutex_Unlock ;;;
      chan_send msg ;;;
      mutex_Lock ;;;
      mutex_Unlock ;;;
      ret true
  | ArmClosed => ret true
  | ArmTick =>
      mutex_Unlock ;;;
      mutex_Lock ;;;
      mutex_Unlock ;;;
      ret true
  | ArmDone =>
      match done with
      | Some _ => mutex_Unlock ;;; ret false
      | None => block
      end
  end.

(** The loop, over the arms taken pass after pass. *)
Fixpoint redistribute (arms : list arm) : M bool :=
  match arms with
  | [] => ret true
  | a :: arms' =>
      go <- redistribute_pass a ;;
      if go then redistribute arms' else ret false
  end.

(** The messages of the arms that received one, in order. *)
Fixpoint arm_msgs (arms : list arm) : list Message :=
  match arms with
  | [] => []
  | ArmMsg msg :: arms' => msg :: arm_msgs arms'
  | _ :: arms' => arm_msgs arms'
  end.

(** The arm received a message or a tick. *)
Definition plain_arm (a : arm) : Prop :=
  match a with
  | ArmMsg _ | ArmTick => True
  | ArmClosed | ArmDone => False
  end.

(** ** A poll call while a send of the redistributor is in flight *)

(** The redistributor sends outside the lock: [buflock.Unlock()], then
    [theChannel <- msg], then [buflock.Lock()]. A poll call can take the
    lock in between, and the send can complete while the call is in its
    drain loop. [chan_try_send] is that send at one moment: it completes
    when the channel has room and stays in flight otherwise (a nil channel
    never has room); on a closed channel it panics, which ends the
    process. *)
Definition chan_try_send (m : Message) : M bool :=
  s <- get ;;
  match theChannel s with
  | None => ret false
  | Some ch =>
      if ch_closed ch then panic "send on closed channel"
      else if Z.of_nat (length (ch_buf ch)) <? ch_cap ch then
        modify (set_theChannel
                  (Some (mkChan (ch_buf ch ++ [m]) (ch_cap ch) false))) ;;;
        ret true
      else ret false
  end.

(** The drain loop of [FLBPluginInputCallback] over the buffered messages
    [q] while the send of [m] is in flight. The send gets its turn from the
    pass numbered [k] on (counting from 0), before the [select] of the
    pass. Once it has completed, [m] is the last message of the channel and
    the redistributor is at its [buflock.Lock()], where it waits until the
    call returns: no second send can complete, and the rest of the loop is
    [drain_loop]. A send that has not completed when the loop finds the
    channel empty stays in flight. *)
Fixpoint drain_loop_sending (X : Extern) (sel : list bool) (q : list Message)
    (k : nat) (m : Message) (buf : list Z) {struct q}
    : M (status + list Z * bool) :=
  landed <- (if (k =? 0)%nat then chan_try_send m else ret false) ;;
  if landed then drain_loop X sel (q ++ [m]) buf
  else
    match q with
    | [] => drain_loop X sel [] buf
    | msg :: q' =>
        done <- ctx_Done ;;
        match done, hd true sel with
        | Some e, false => drain_done buf e
        | _, _ =>
            modify chan_pop ;;;
            match input_Encode X (msg_Time msg) (msg_Record msg) with
            | inr err => emit (EEncode err) ;;; ret (inl FLB_ERROR)
            | inl b => drain_loop_sending X (tl sel) q' (pred k) m (buf ++ b)
            end
        end
    end.

(** [drain] while the send of [m] is in flight. *)
Definition drain_sending (X : Extern) (sel : list bool) (k : nat) (m : Message)
    : M (status * option (list Z)) :=
  mutex_Lock ;;;
  s <- get ;;
  let q := match theChannel s with
           | Some ch => ch_buf ch
           | None => []
           end in
  r <- (if (0 <? length q)%nat then drain_loop_sending X sel q k m []
        else ret (inr ([], false))) ;;
  match r with
  | inl st => ret (st, None)
  | inr (buf, gc) =>
      mutex_Unlock ;;;
      (if gc then emit EGC else ret tt) ;;;
      if (0 <? length buf)%nat then ret (FLB_OK, Some buf)
      else ret (FLB_OK, None)
  end.

(** [FLBPluginInputCallback] while the send of [m] is in flight. *)
Definition FLBPluginInputCallback_sending (X : Extern) (sel : list bool)
    (k : nat) (m : Message) : M (status * option (list Z)) :=
  wg_Wait initWG ;;;
  s <- get ;;
  if is_nil (theInput s) then
    emit ENoInput ;;; ret (FLB_RETRY, None)
  else
    once_Do start_input ;;;
    drain_sending X sel k m.

(** ** Further notions used in the statements *)

(** The pairs of the entries at the head of the stream that pass the
    checks of the flush path. *)
Fixpoint leading_pairs (dec : decStream)
    : list (time_Time * option (gmap string string)) :=
  match dec with
  | DecEntry entry rest =>
      match decode_entry entry with
      | inl p => p :: leading_pairs rest
      | inr _ => []
      end
  | _ => []
  end.

(** A pair of a [map[any]any] whose key is a string and whose value is a
    byte slice, and the pair of strings the flush path makes of it. *)
Definition go_pair (kb : string * list Z) : value * value :=
  (VString (fst kb), VBytes (snd kb)).

Definition string_pair (kb : string * list Z) : string * string :=
  (fst kb, string_of_bytes (snd kb)).

(** What [FLBPluginExit] writes and calls: the log line, then the
    unregister call if [FLBPluginRegister] has set one. *)
Definition exit_events (s : State) : list event :=
  EExit (theName s)
  :: match unregister s with
     | Some (r, def) => [EUnregister r def]
     | None => []
     end.



(** The status [FLBPluginInit] returns once a plugin is registered: the
    metrics context must be there and the user's [Init] must return nil. *)
Definition init_status (X : Extern) (ptr : Pointer) (s : State) : status :=
  match theInput s, theOutput s with
  | Some inp, _ =>
      match snd (input_FLBPluginGetCMetricsContext X ptr),
            in_Init inp (flbInputConfigLoader_String X ptr) with
      | None, None => FLB_OK
      | _, _ => FLB_ERROR
      end
  | None, Some out =>
      match snd (output_FLBPluginGetCMetricsContext X ptr),
            out_Init out (flbOutputConfigLoader_String X ptr) with
      | None, None => FLB_OK
      | _, _ => FLB_ERROR
      end
  | None, None => FLB_RETRY
  end.

(** The primary channel is the one the flush path makes: unbuffered. *)
Definition unbuffered (s : State) : Prop :=
  theChannel s = None
  \/ exists closed, theChannel s = Some (mkChan [] 0 closed).

(** ** Further example data *)

(** An input plugin whose [Init] fails. *)
Definition failing_input : InputPlugin :=
  {| in_Init := fun conf => Some "cannot start" |}.

(** The states after the first poll call of the input plugin and after
    the first flush call (with an empty blob) of the output plugin. *)
Definition input_running : State :=
  snd (FLBPluginInputCallback sample [] input_ready).

Definition output_running : State :=
  snd (FLBPluginFlush sample None [] "mytag" output_ready).

Definition msg1 : Message := mkMessage t1 (Some rec_ab) None.
Definition msg2 : Message := mkMessage t2 (Some rec_cd) None.
Definition msg_poison : Message := mkMessage t2 (Some rec_poison) None.



(** [msg1] and [msg2] on the wire. *)
Definition enc1 : list Z :=
  [146; 215; 0; 101; 83; 241; 0; 7; 91; 205; 21; 129; 161; 97; 161; 98].
Definition enc2 : list Z :=
  [146; 215; 0; 101; 83; 241; 1; 0; 0; 0; 5; 129; 161; 99; 161; 100].

(** A poll call finds [Init] returned, an input plugin registered, the
    start action done, the lock free, the context [c] and the primary
    channel [ch]. *)
Definition polling (s : State) (c : option ctxError) (ch : Chan) : Prop :=
  initWG s <= 0 /\ theInput s <> None /\ once s = true /\ buflock s = false
  /\ runCtx s = Some c /\ theChannel s = Some ch.

(** What the call stores through [data] and [csize] for the batch [b]. *)
Definition stored (b : list Z) : option (list Z) :=
  if (0 <? length b)%nat then Some b else None.

(** The input plugin with two messages collected, after [FLBPluginExit]. *)
Definition input_exited : State :=
  snd (FLBPluginExit (collected [msg1; msg2] input_running)).


(** The input plugin whose [Init] fails, registered, after
    [FLBPluginRegister]. *)
Definition failing_registered : State :=
  snd (FLBPluginRegister sample 0%nat
         (snd (RegisterInput "in" "example input" failing_input loaded))).

(** ** Any sequence of calls of the host *)

(** A call of one of the exported entry points. *)
Inductive host_call : Type :=
| CallRegister (def : Pointer)
| CallInit (ptr : Pointer)
| CallPoll (sel : list bool)
| CallCleanup
| CallFlush (early : option (option string)) (data : list Z) (ctag : string)
| CallExit.

(** One call, its result dropped. *)
Definition host_step (X : Extern) (c : host_call) (s : State) : State :=
  match c with
  | CallRegister def => snd (FLBPluginRegister X def s)
  | CallInit ptr => snd (FLBPluginInit X ptr s)
  | CallPoll sel => snd (FLBPluginInputCallback X sel s)
  | CallCleanup => snd (FLBPluginInputCleanupCallback s)
  | CallFlush early data ctag => snd (FLBPluginFlush X early data ctag s)
  | CallExit => snd (FLBPluginExit s)
  end.

(** A sequence of calls, one after the other. *)
Definition host_run (X : Extern) (cs : list host_call) (s : State) : State :=
  fold_left (fun s c => host_step X c s) cs s.

(** The error of the run context, if it has one, is [context.Canceled],
    and no [run: ...] line has been written for the context. *)
Definition cancel_only (s : State) : Prop :=
  runCtx s <> Some (Some DeadlineExceeded)
  /\ forall e, ~ In (ERun e) (trace s).

(** From a state with [cancel_only], the computation ends in one, and a
    result it returns satisfies [Q]. *)
Definition holds {A} (m : M A) (Q : A -> Prop) : Prop :=
  forall s, cancel_only s ->
            cancel_only (snd (m s)) /\ forall a, fst (m s) = Ret a -> Q a.

(** * Properties *)

(** ** Running computations *)

Lemma bind_Ret {A B} (m : M A) (k : A -> M B) s a s' :
  m s = (Ret a, s') -> bind m k s = k a s'.
Proof. intros H. unfold bind. now rewrite H. Qed.

Lemma bind_Panic {A B} (m : M A) (k : A -> M B) s msg s' :
  m s = (Panic msg, s') -> bind m k s = (Panic msg, s').
Proof. intros H. unfold bind. now rewrite H. Qed.

Lemma bind_Block {A B} (m : M A) (k : A -> M B) s s' :
  m s = (Block, s') -> bind m k s = (Block, s').
Proof. intros H. unfold bind. now rewrite H. Qed.

Lemma wg_Wait_open rd s : rd s <= 0 -> wg_Wait rd s = (Ret tt, s).
Proof.
  intros H. unfold wg_Wait, bind, gets.
  destruct (Z.ltb_spec 0 (rd s)); [lia | reflexivity].
Qed.

Lemma wg_Wait_shut rd s : 0 < rd s -> wg_Wait rd s = (Block, s).
Proof.
  intros H. unfold wg_Wait, bind, gets.
  destruct (Z.ltb_spec 0 (rd s)); [reflexivity | lia].
Qed.

Lemma wg_Done_pos rd wr s : 0 < rd s -> wg_Done rd wr s = (Ret tt, wr (rd s - 1) s).
Proof.
  intros H. unfold wg_Done, bind, gets.
  destruct (Z.ltb_spec (rd s - 1) 0); [lia | reflexivity].
Qed.

(** ** Message.Tag *)

(** C10. [Tag()] of a Message whose tag pointer is nil is the empty
    string, and of a Message with a tag it is that tag: the accessor is
    defined on every Message and never reads through a nil pointer. *)
Theorem Tag_total :
  (forall t rec, Tag (mkMessage t rec None) = EmptyString)
  /\ (forall t rec tg, Tag (mkMessage t rec (Some tg)) = tg)
  /\ (forall m, Tag m = default EmptyString (msg_tag m)).
Proof.
  repeat split; intros; reflexivity.
Qed.

(** ** Registration *)

Lemma mustOnce_first s :
  atomicUint32 s <> 1 -> mustOnce s = (Ret tt, set_atomicUint32 1 s).
Proof.
  intros H. unfold mustOnce, bind, gets.
  destruct (Z.eqb_spec (atomicUint32 s) 1); [contradiction | reflexivity].
Qed.

Lemma mustOnce_again s :
  atomicUint32 s = 1 -> mustOnce s = (Panic "plugin already registered", s).
Proof. intros H. unfold mustOnce, bind, gets. now rewrite H. Qed.

Lemma register_again r s :
  atomicUint32 s = 1 -> register r s = (Panic "plugin already registered", s).
Proof.
  intros H. destruct r; simpl; unfold RegisterInput, RegisterOutput;
    now rewrite (bind_Panic _ _ _ _ _ (mustOnce_again s H)).
Qed.

Lemma register_first r s :
  atomicUint32 s <> 1 ->
  exists s', register r s = (Ret tt, s') /\ atomicUint32 s' = 1
             /\ (registrations s = 0%nat -> registrations s' = 1%nat).
Proof.
  intros H. destruct r; simpl; unfold RegisterInput, RegisterOutput;
    rewrite (bind_Ret _ _ _ _ _ (mustOnce_first s H));
    eexists; (split; [reflexivity |]); split; try reflexivity;
    unfold registrations; simpl;
    destruct (theInput s), (theOutput s); simpl; intros; congruence.
Qed.

Lemma register_all_registered rs :
  forall s, atomicUint32 s = 1 -> register_all rs s = s.
Proof.
  induction rs as [| r rs IH]; intros s H; simpl; [reflexivity |].
  rewrite (register_again r s H). simpl. now apply IH.
Qed.

(** C3. Of two registration calls made one after the other in a freshly
    loaded process, in any combination of roles, the first returns and the
    second panics, leaving the package variables as the first call set
    them: exactly one implementation is registered. However many
    registration calls are made, at most one implementation is ever
    registered. *)
Theorem second_registration_panics (r1 r2 : registration) :
  (exists s1,
     register r1 loaded = (Ret tt, s1)
     /\ register r2 s1 = (Panic "plugin already registered", s1)
     /\ registrations s1 = 1%nat)
  /\ forall rs, (registrations (register_all rs loaded) <= 1)%nat.
Proof.
  split.
  - destruct (register_first r1 loaded) as (s1 & H1 & Ha & Hr); [discriminate |].
    exists s1. split; [exact H1 |]. split.
    + now apply register_again.
    + now apply Hr.
  - intros [| r rs]; simpl; [unfold registrations; simpl; lia |].
    destruct (register_first r loaded) as (s1 & H1 & Ha & Hr); [discriminate |].
    rewrite H1. simpl. rewrite (register_all_registered rs s1 Ha).
    rewrite Hr by reflexivity. lia.
Qed.

(** ** No plugin registered *)

Lemma FLBPluginRegister_unregistered X def s :
  theInput s = None -> theOutput s = None -> 0 < registerWG s ->
  FLBPluginRegister X def s
  = (Ret FLB_RETRY,
     set_registerWG (registerWG s - 1) (set_trace (trace s ++ [ENoInputOrOutput]) s)).
Proof.
  intros Hi Ho Hw. unfold FLBPluginRegister, defer, bind, get.
  rewrite Hi, Ho. simpl.
  rewrite wg_Done_pos by (simpl; lia). reflexivity.
Qed.

Lemma FLBPluginInit_unregistered X ptr s :
  theInput s = None -> theOutput s = None -> registerWG s <= 0 -> 0 < initWG s ->
  FLBPluginInit X ptr s
  = (Ret FLB_RETRY,
     set_initWG (initWG s - 1) (set_trace (trace s ++ [ENoInputOrOutput]) s)).
Proof.
  intros Hi Ho Hr Hw. unfold FLBPluginInit, defer.
  rewrite (bind_Ret _ _ _ _ _ (wg_Wait_open registerWG s Hr)).
  unfold bind, get. rewrite Hi, Ho. simpl.
  rewrite wg_Done_pos by (simpl; lia). reflexivity.
Qed.

(** C6, as the code has it. While neither an input nor an output is
    registered, [FLBPluginRegister] (called while its wait group is still
    held) and [FLBPluginInit] (called after [FLBPluginRegister] has
    returned, while its own wait group is still held) return
    [FLB_RETRY]. *)
Theorem unregistered_returns_RETRY X (p : Pointer) (s : State) :
  theInput s = None -> theOutput s = None ->
  (0 < registerWG s -> fst (FLBPluginRegister X p s) = Ret FLB_RETRY)
  /\ (registerWG s <= 0 -> 0 < initWG s ->
      fst (FLBPluginInit X p s) = Ret FLB_RETRY).
Proof.
  intros Hi Ho. split; intros.
  - now rewrite FLBPluginRegister_unregistered.
  - now rewrite FLBPluginInit_unregistered.
Qed.

Lemma unregistered_returns_RETRY_witness :
  fst (FLBPluginRegister sample 0%nat loaded) = Ret FLB_RETRY
  /\ fst (FLBPluginInit sample 0%nat (snd (FLBPluginRegister sample 0%nat loaded)))
     = Ret FLB_RETRY.
Proof.
  split.
  - apply (proj1 (unregistered_returns_RETRY sample 0%nat loaded eq_refl eq_refl)).
    simpl. lia.
  - apply (proj2 (unregistered_returns_RETRY sample 0%nat
                    (snd (FLBPluginRegister sample 0%nat loaded)) eq_refl eq_refl)).
    + simpl. lia.
    + simpl. lia.
Defined.

(** C6, as the spec has it, fails: in a freshly loaded process with no
    plugin registered, [FLBPluginRegister] and then [FLBPluginInit] return
    a status, and it is not [FLB_ERROR]. *)
Lemma unregistered_not_ERROR :
  theInput loaded = None /\ theOutput loaded = None
  /\ fst (FLBPluginRegister sample 0%nat loaded) = Ret FLB_RETRY
  /\ fst (FLBPluginRegister sample 0%nat loaded) <> Ret FLB_ERROR
  /\ fst (FLBPluginInit sample 0%nat (snd (FLBPluginRegister sample 0%nat loaded)))
     <> Ret FLB_ERROR.
Proof. repeat split; try reflexivity; vm_compute; discriminate. Qed.

(** ** unquote *)

Lemma append_cons c (a b : string) : String c a +:+ b = String c (a +:+ b).
Proof. reflexivity. Qed.

Lemma append_nil (b : string) : EmptyString +:+ b = b.
Proof. reflexivity. Qed.

Lemma prefix_app (p s : string) :
  String.prefix p s = true <-> exists b, s = p +:+ b.
Proof.
  revert s. induction p as [| c p IH]; intros s; simpl.
  - split; [intros _; now exists s | now destruct s].
  - destruct s as [| d s]; simpl.
    + split; [discriminate | intros [b Hb]; discriminate].
    + destruct (ascii_dec c d) as [-> | Hne].
      * rewrite IH. split; intros [b Hb]; exists b;
          rewrite append_cons in *; congruence.
      * split; [discriminate |].
        intros [b Hb]. rewrite append_cons in Hb. congruence.
Qed.

Lemma strings_Contains_eq (s sub : string) :
  strings_Contains s sub
  = if String.prefix sub s then true
    else match s with
         | EmptyString => false
         | String _ s' => strings_Contains s' sub
         end.
Proof. now destruct s. Qed.

(** [strings_Contains] finds [sub] exactly when it occurs in [s]. *)
Lemma strings_Contains_spec (s sub : string) :
  strings_Contains s sub = true <-> exists a b, s = a +:+ sub +:+ b.
Proof.
  split.
  - induction s as [| c s IH]; rewrite strings_Contains_eq;
      destruct (String.prefix sub _) eqn:E.
    + intros _. apply prefix_app in E as [b Hb]. now exists EmptyString, b.
    + discriminate.
    + intros _. apply prefix_app in E as [b Hb]. now exists EmptyString, b.
    + intros H. destruct (IH H) as (a & b & ->). now exists (String c a), b.
  - intros (a & b & ->). induction a as [| c a IH]; rewrite strings_Contains_eq.
    + rewrite append_nil.
      assert (E : String.prefix sub (sub +:+ b) = true)
        by (apply prefix_app; now exists b).
      now rewrite E.
    + rewrite append_cons.
      destruct (String.prefix sub (String c (a +:+ sub +:+ b))); [reflexivity | exact IH].
Qed.

Lemma strings_Contains_not (s sub : string) :
  strings_Contains s sub = false <-> forall a b, s <> a +:+ sub +:+ b.
Proof.
  split.
  - intros H a b E.
    assert (C : strings_Contains s sub = true)
      by (apply strings_Contains_spec; now exists a, b).
    congruence.
  - intros H. destruct (strings_Contains s sub) eqn:E; [| reflexivity].
    apply strings_Contains_spec in E as (a & b & E). now destruct (H a b).
Qed.

(** C9. [unquote], and with it the [String] lookup of both config
    loaders, is a function of the raw value: a value that [strconv.Unquote]
    accepts is returned unquoted; a value it rejects that contains a
    backslash-n and is accepted once wrapped in double quotes is returned
    unescaped; any other value is returned as it is. *)
Theorem unquote_cases X (s : string) :
  (forall t, strconv_Unquote X s = Some t -> unquote X s = t)
  /\ (forall a b t,
        strconv_Unquote X s = None ->
        s = a +:+ "\n" +:+ b ->
        strconv_Unquote X (dquote +:+ s +:+ dquote) = Some t ->
        unquote X s = t)
  /\ (strconv_Unquote X s = None ->
      (forall a b, s <> a +:+ "\n" +:+ b)
      \/ strconv_Unquote X (dquote +:+ s +:+ dquote) = None ->
      unquote X s = s)
  /\ (forall ptr key,
        flbInputConfigLoader_String X ptr key
        = unquote X (input_FLBPluginConfigKey X ptr key))
  /\ (forall ptr key,
        flbOutputConfigLoader_String X ptr key
        = unquote X (output_FLBPluginConfigKey X ptr key)).
Proof.
  unfold unquote. repeat split; try reflexivity.
  - intros t H. now rewrite H.
  - intros a b t H Hs Hw. rewrite H.
    assert (C : strings_Contains s "\n" = true)
      by (apply strings_Contains_spec; now exists a, b).
    now rewrite C, Hw.
  - intros H [Hn | Hw]; rewrite H.
    + apply strings_Contains_not in Hn. now rewrite Hn.
    + rewrite Hw. now destruct (strings_Contains s "\n").
Qed.

Lemma unquote_cases_witness :
  unquote sample (dquote +:+ "plain" +:+ dquote) = "plain"
  /\ unquote sample "a\nb" = String "a" (String (ascii_of_nat 10) "b")
  /\ unquote sample ("a\nb" +:+ dquote) = "a\nb" +:+ dquote.
Proof.
  split; [| split].
  - apply (proj1 (unquote_cases sample (dquote +:+ "plain" +:+ dquote))).
    reflexivity.
  - apply (proj1 (proj2 (unquote_cases sample "a\nb")) "a" "b"); reflexivity.
  - apply (proj1 (proj2 (proj2 (unquote_cases sample ("a\nb" +:+ dquote))))).
    + reflexivity.
    + right. reflexivity.
Defined.

(** ** The one-shot start *)

Lemma keeps_ret {A} (a : A) : keeps (ret a).
Proof. now intros s. Qed.

Lemma keeps_panic {A} msg : keeps (@panic A msg).
Proof. now intros s. Qed.

Lemma keeps_block {A} : keeps (@block A).
Proof. now intros s. Qed.

Lemma keeps_get : keeps get.
Proof. now intros s. Qed.

Lemma keeps_gets {A} (f : State -> A) : keeps (gets f).
Proof. now intros s. Qed.

Lemma keeps_bind {A B} (m : M A) (k : A -> M B) :
  keeps m -> (forall a, keeps (k a)) -> keeps (bind m k).
Proof.
  intros Hm Hk s. unfold bind. specialize (Hm s).
  destruct (m s) as [[a | msg |] s1]; simpl in *; try exact Hm.
  destruct (Hk a s1) as (H1 & H2 & H3), Hm as (G1 & G2 & G3).
  repeat split; congruence.
Qed.

Lemma keeps_modify (f : State -> State) :
  (forall s, once (f s) = once s /\ starts (f s) = starts s
             /\ spawned (f s) = spawned s) ->
  keeps (modify f).
Proof. intros H s. apply H. Qed.

Lemma keeps_emit e : keeps (emit e).
Proof. now intros s. Qed.

Create HintDb keeps.
#[local] Hint Resolve keeps_ret keeps_panic keeps_block keeps_get keeps_gets
  keeps_emit : keeps.

Ltac keeps_step :=
  first
    [ solve [auto with keeps]
    | match goal with
      | |- keeps (bind _ _) => apply keeps_bind; [| intros ?]
      | |- keeps (modify _) => solve [apply keeps_modify; intros ?; simpl; auto]
      | |- keeps (match ?x with _ => _ end) => destruct x
      | |- keeps (let _ := _ in _) => cbv zeta
      end ].

Lemma keeps_wg_Wait rd : keeps (wg_Wait rd).
Proof. unfold wg_Wait. repeat keeps_step. Qed.

Lemma keeps_mutex_Lock : keeps mutex_Lock.
Proof. unfold mutex_Lock. repeat keeps_step. Qed.

Lemma keeps_mutex_Unlock : keeps mutex_Unlock.
Proof. unfold mutex_Unlock. repeat keeps_step. Qed.

Lemma keeps_ctx_Done : keeps ctx_Done.
Proof. unfold ctx_Done. repeat keeps_step. Qed.

Lemma keeps_chan_send m : keeps (chan_send m).
Proof. unfold chan_send. repeat keeps_step. Qed.

Lemma keeps_chan_pop : keeps (modify chan_pop).
Proof.
  apply keeps_modify. intros s. unfold chan_pop. now destruct (theChannel s).
Qed.

#[local] Hint Resolve keeps_wg_Wait keeps_mutex_Lock keeps_mutex_Unlock
  keeps_ctx_Done keeps_chan_send keeps_chan_pop : keeps.

Lemma keeps_drain_done buf e : keeps (drain_done buf e).
Proof. unfold drain_done. repeat keeps_step. Qed.

Lemma keeps_flush_done e : keeps (flush_done e).
Proof. unfold flush_done. repeat keeps_step. Qed.

#[local] Hint Resolve keeps_drain_done keeps_flush_done : keeps.

Lemma keeps_drain_loop X q : forall sel buf, keeps (drain_loop X sel q buf).
Proof.
  induction q as [| m q IH]; intros sel buf; simpl; repeat keeps_step.
Qed.

Lemma keeps_flush_loop tag dec : keeps (flush_loop tag dec).
Proof.
  induction dec as [| err | entry rest IH]; simpl; repeat keeps_step.
Qed.

#[local] Hint Resolve keeps_drain_loop keeps_flush_loop : keeps.

Lemma start_rel_refl s : start_rel s s.
Proof. now left. Qed.

Lemma start_rel_keeps {A} (m : M A) s : keeps m -> start_rel s (snd (m s)).
Proof. intros H. left. apply H. Qed.

Lemma start_rel_trans s1 s2 s3 :
  start_rel s1 s2 -> start_rel s2 s3 -> start_rel s1 s3.
Proof.
  intros [(A1 & A2 & A3) | (A1 & A2 & A3)] [(B1 & B2 & B3) | (B1 & B2 & B3)].
  - left. repeat split; congruence.
  - right. repeat split; congruence.
  - right. repeat split; congruence.
  - congruence.
Qed.

Lemma once_Do_done f s : once s = true -> once_Do f s = (Ret false, s).
Proof. intros H. unfold once_Do, bind, gets. now rewrite H. Qed.

Lemma once_Do_runs f s s1 :
  once s = false -> f s = (Ret tt, s1) ->
  once_Do f s = (Ret true, set_once true s1).
Proof.
  intros H Hf. unfold once_Do, bind, gets, defer. rewrite H, Hf. reflexivity.
Qed.

Lemma start_input_runs s :
  exists s1, start_input s = (Ret tt, s1)
             /\ starts s1 = S (starts s)
             /\ spawned s1 = spawned s ++ [GCollect; GRedistribute]
             /\ runCtx s1 = Some None.
Proof. eexists. split; [reflexivity |]. now simpl. Qed.

Lemma start_output_runs early s :
  exists s1, start_output early s = (Ret tt, s1)
             /\ starts s1 = S (starts s)
             /\ spawned s1 = spawned s ++ [GFlush]
             /\ runCtx s1 = Some None
             /\ theChannel s1 = Some (mkChan [] 0 false)
             /\ worker s1 = Some match early with
                                 | None => WReceiving
                                 | Some e => WReturned e
                                 end
             /\ flushed s1 = flushed s /\ trace s1 = trace s.
Proof. eexists. split; [reflexivity |]. now simpl. Qed.

(** [once.Do(f)] followed by code that keeps the bookkeeping. *)
Lemma start_rel_once_Do {A} f (k : bool -> M A) s :
  (exists s1, f s = (Ret tt, s1) /\ starts s1 = S (starts s)) ->
  (forall b, keeps (k b)) ->
  start_rel s (snd (bind (once_Do f) k s)).
Proof.
  intros (s1 & Hf & Hs) Hk. destruct (once s) eqn:Ho.
  - rewrite (bind_Ret _ _ _ _ _ (once_Do_done f s Ho)). now apply start_rel_keeps.
  - rewrite (bind_Ret _ _ _ _ _ (once_Do_runs f s s1 Ho Hf)).
    right. destruct (Hk true (set_once true s1)) as (K1 & K2 & K3).
    split; [exact Ho |]. split; [now rewrite K1 | rewrite K2; exact Hs].
Qed.

Lemma started_once_Do {A} f (k : bool -> M A) s :
  once s = false ->
  (exists s1, f s = (Ret tt, s1) /\ starts s1 = S (starts s)) ->
  (forall b, keeps (k b)) ->
  once (snd (bind (once_Do f) k s)) = true
  /\ starts (snd (bind (once_Do f) k s)) = S (starts s).
Proof.
  intros Ho (s1 & Hf & Hs) Hk.
  rewrite (bind_Ret _ _ _ _ _ (once_Do_runs f s s1 Ho Hf)).
  destruct (Hk true (set_once true s1)) as (K1 & K2 & K3).
  split; [now rewrite K1 | rewrite K2; exact Hs].
Qed.

Lemma is_nil_false {A} (o : option A) : o <> None -> is_nil o = false.
Proof. now destruct o. Qed.

Lemma keeps_drain X sel : keeps (drain X sel).
Proof. unfold drain. repeat keeps_step. Qed.

Lemma keeps_flush_after X early data ctag ran :
  keeps (flush_after X early data ctag ran).
Proof. unfold flush_after. repeat keeps_step. Qed.

Lemma FLBPluginInputCallback_accepted X sel s :
  initWG s <= 0 -> theInput s <> None ->
  FLBPluginInputCallback X sel s
  = bind (once_Do start_input) (fun _ => drain X sel) s.
Proof.
  intros Hw Hr. unfold FLBPluginInputCallback.
  rewrite (bind_Ret _ _ _ _ _ (wg_Wait_open initWG s Hw)).
  unfold bind at 1, get. now rewrite (is_nil_false _ Hr).
Qed.

Lemma FLBPluginFlush_accepted X early data ctag s :
  initWG s <= 0 -> theOutput s <> None ->
  FLBPluginFlush X early data ctag s
  = bind (once_Do (start_output early)) (flush_after X early data ctag) s.
Proof.
  intros Hw Hr. unfold FLBPluginFlush.
  rewrite (bind_Ret _ _ _ _ _ (wg_Wait_open initWG s Hw)).
  unfold bind at 1, get. now rewrite (is_nil_false _ Hr).
Qed.

Lemma step_start_rel X c s : start_rel s (step X c s).
Proof.
  destruct c as [sel | early data ctag]; simpl.
  - unfold FLBPluginInputCallback.
    destruct (Z_lt_le_dec 0 (initWG s)) as [Hw | Hw].
    + rewrite (bind_Block _ _ _ _ (wg_Wait_shut initWG s Hw)). apply start_rel_refl.
    + rewrite (bind_Ret _ _ _ _ _ (wg_Wait_open initWG s Hw)).
      unfold bind at 1, get. destruct (is_nil (theInput s)).
      * apply start_rel_keeps. repeat keeps_step.
      * apply start_rel_once_Do.
        -- destruct (start_input_runs s) as (s1 & H1 & H2 & _). eauto.
        -- intros b. apply keeps_drain.
  - unfold FLBPluginFlush.
    destruct (Z_lt_le_dec 0 (initWG s)) as [Hw | Hw].
    + rewrite (bind_Block _ _ _ _ (wg_Wait_shut initWG s Hw)). apply start_rel_refl.
    + rewrite (bind_Ret _ _ _ _ _ (wg_Wait_open initWG s Hw)).
      unfold bind at 1, get. destruct (is_nil (theOutput s)).
      * apply start_rel_keeps. repeat keeps_step.
      * apply start_rel_once_Do.
        -- destruct (start_output_runs early s) as (s1 & H1 & H2 & _). eauto.
        -- intros b. apply keeps_flush_after.
Qed.

Lemma run_start_rel X cs : forall s, start_rel s (run X cs s).
Proof.
  induction cs as [| c cs IH]; intros s; simpl.
  - apply start_rel_refl.
  - eapply start_rel_trans; [apply step_start_rel | apply IH].
Qed.

Lemma step_accepted X c s :
  once s = false -> accepted c s ->
  once (step X c s) = true /\ starts (step X c s) = S (starts s).
Proof.
  intros Ho [Hw Hr]. destruct c as [sel | early data ctag]; simpl.
  - rewrite FLBPluginInputCallback_accepted by assumption.
    apply started_once_Do; [exact Ho | |].
    + destruct (start_input_runs s) as (s1 & H1 & H2 & _). eauto.
    + intros b. apply keeps_drain.
  - rewrite FLBPluginFlush_accepted by assumption.
    apply started_once_Do; [exact Ho | |].
    + destruct (start_output_runs early s) as (s1 & H1 & H2 & _). eauto.
    + intros b. apply keeps_flush_after.
Qed.

(** C8. Over any sequence of poll and flush calls, from any state, the
    start action runs at most once; once it has run, no later call runs it
    again or spawns a worker; and while it has not run, a call that gets
    past the guards of its entry point runs it, so that whatever calls
    follow find it done. *)
Theorem start_at_most_once X (cs : list call) (s : State) :
  (starts (run X cs s) <= S (starts s))%nat
  /\ (once s = true ->
      starts (run X cs s) = starts s /\ spawned (run X cs s) = spawned s)
  /\ (forall c, once s = false -> accepted c s ->
      starts (step X c s) = S (starts s)
      /\ starts (run X (c :: cs) s) = S (starts s)).
Proof.
  split; [| split].
  - destruct (run_start_rel X cs s) as [(_ & H & _) | (_ & _ & H)]; lia.
  - intros Ho.
    destruct (run_start_rel X cs s) as [(_ & H & H') | (Hf & _)]; [auto | congruence].
  - intros c Ho Ha. destruct (step_accepted X c s Ho Ha) as [H1 H2].
    split; [exact H2 |]. simpl.
    destruct (run_start_rel X cs (step X c s)) as [(_ & H & _) | (Hf & _)];
      congruence.
Qed.

Lemma start_at_most_once_witness :
  starts (run sample [Poll []; Poll []; Poll []] input_ready) = 1%nat
  /\ starts (run sample [Poll []; Poll []]
               (step sample (Poll []) input_ready)) = 1%nat.
Proof.
  split.
  - apply (proj2 (proj2 (proj2 (start_at_most_once sample [Poll []; Poll []]
                                  input_ready)) (Poll []) eq_refl
                          ltac:(split; [vm_compute; discriminate | discriminate]))).
  - apply (proj1 (proj1 (proj2 (start_at_most_once sample [Poll []; Poll []]
                                  (step sample (Poll []) input_ready)))
                          eq_refl)).
Defined.

(** ** The flush path *)

Lemma ctx_Done_live s : runCtx s = Some None -> ctx_Done s = (Ret None, s).
Proof. intros H. unfold ctx_Done, bind, gets. now rewrite H. Qed.

Lemma chan_send_received m s :
  theChannel s = Some (mkChan [] 0 false) -> worker s = Some WReceiving ->
  chan_send m s = (Ret tt, set_flushed (flushed s ++ [m]) s).
Proof. intros Hc Hw. unfold chan_send, bind, get. now rewrite Hc, Hw. Qed.

Lemma chan_send_stuck m s err :
  theChannel s = Some (mkChan [] 0 false) -> worker s = Some (WReturned err) ->
  chan_send m s = (Block, s).
Proof. intros Hc Hw. unfold chan_send, bind, get. now rewrite Hc, Hw. Qed.

Lemma flush_loop_eq tag dec s :
  runCtx s = Some None ->
  flush_loop tag dec s
  = match dec with
    | DecEOF => (Ret FLB_OK, s)
    | DecErr err => (Ret FLB_ERROR, set_trace (trace s ++ [EDecode err]) s)
    | DecEntry entry rest =>
        match decode_entry entry with
        | inr ev => (Ret FLB_ERROR, set_trace (trace s ++ [ev]) s)
        | inl (t, rec) =>
            bind (chan_send (mkMessage t rec (Some tag)))
              (fun _ => flush_loop tag rest) s
        end
    end.
Proof.
  intros H. destruct dec as [| err | entry rest]; simpl;
    rewrite (bind_Ret _ _ _ _ _ (ctx_Done_live s H)); try reflexivity.
  destruct (decode_entry entry) as [[t rec] | ev]; reflexivity.
Qed.

(** The loop hands over the entries that pass the checks, in order, and
    goes on with the rest of the stream. *)
Lemma flush_loop_entries tag goods ps rest :
  Forall2 (fun e p => decode_entry e = inl p) goods ps ->
  forall s, receiving s ->
  flush_loop tag (entries_then goods rest) s
  = flush_loop tag rest (set_flushed (flushed s ++ map (tagged tag) ps) s).
Proof.
  induction 1 as [| e p goods ps He Hf IH]; intros s (Hc & Hch & Hw); simpl map.
  - rewrite app_nil_r. now destruct s.
  - cbn [entries_then]. rewrite flush_loop_eq by exact Hc. rewrite He.
    destruct p as [t rec].
    rewrite (bind_Ret _ _ _ _ _ (chan_send_received _ s Hch Hw)).
    rewrite IH by (repeat split; assumption).
    simpl. unfold tagged at 2. simpl. now rewrite <- app_assoc.
Qed.

Lemma convert_record_bad l :
  forall acc k v,
    In (k, v) l -> (forall s, k <> VString s) \/ (forall b, v <> VBytes b) ->
    exists ev, convert_record l acc = inr ev.
Proof.
  induction l as [| [k' v'] l IH]; intros acc k v Hin Hbad; [destruct Hin |].
  simpl. destruct Hin as [E | Hin].
  - inversion E; subst. destruct Hbad as [Hk | Hv].
    + destruct k; eauto. now destruct (Hk s).
    + destruct k; eauto. destruct v; eauto. now destruct (Hv b).
  - destruct k'; eauto. destruct v'; eauto.
Qed.

Lemma convert_record_inr l :
  forall acc ev,
    convert_record l acc = inr ev ->
    exists k v, In (k, v) l
                /\ ((forall s, k <> VString s) \/ (forall b, v <> VBytes b)).
Proof.
  induction l as [| [k v] l IH]; intros acc ev H; [discriminate |].
  simpl in H.
  destruct k; try (exists k, v; split; [now left | left; intros; discriminate]);
    try (eexists _, v; split; [now left | left; intros; discriminate]).
  destruct v;
    try (eexists _, _; split; [now left | right; intros; discriminate]).
  destruct (IH _ _ H) as (k & v & Hin & Hb). exists k, v. split; [now right | exact Hb].
Qed.

(** The entries the flush path rejects are those of the five kinds. *)
Lemma bad_entry_rejected e :
  bad_entry e <-> exists ev, decode_entry e = inr ev.
Proof.
  split.
  - intros H. destruct H as [e Hl | e0 e1 Ht | t e1 Hr | t l k v Hin Hk | t l k v Hin Hv].
    + destruct e as [| a [| b [| c e]]]; simpl in *; eauto. contradiction.
    + simpl. destruct e0; eauto. now destruct (Ht t).
    + simpl. destruct e1; eauto. now destruct (Hr l).
    + simpl. destruct l as [| p l]; [destruct Hin |]. cbn [length Nat.eqb].
      destruct (convert_record_bad (p :: l) ∅ k v Hin (or_introl Hk)) as [ev E].
      rewrite E. eauto.
    + simpl. destruct l as [| p l]; [destruct Hin |]. cbn [length Nat.eqb].
      destruct (convert_record_bad (p :: l) ∅ k v Hin (or_intror Hv)) as [ev E].
      rewrite E. eauto.
  - intros [ev H].
    destruct e as [| e0 [| e1 [| e2 e]]];
      try (apply bad_arity; simpl; lia).
    simpl in H.
    destruct e0; try (apply bad_time; intros; discriminate).
    destruct e1; try (apply bad_record; intros; discriminate).
    destruct (length l =? 0)%nat; [discriminate |].
    destruct (convert_record l ∅) as [rec | ev'] eqn:E; [discriminate |].
    destruct (convert_record_inr _ _ _ E) as (k & v & Hin & [Hk | Hv]).
    + now apply (bad_key t l k v).
    + now apply (bad_value t l k v).
Qed.

(** A flush call that finds a consumer reaches its decode loop with the
    consumer receiving. *)
Lemma FLBPluginFlush_consuming X early data ctag s :
  initWG s <= 0 -> theOutput s <> None -> consuming early s ->
  codec_SetBytesExt X = None ->
  exists s0,
    FLBPluginFlush X early data ctag s
    = flush_loop ctag (codec_NewDecoderBytes X data) s0
    /\ receiving s0 /\ flushed s0 = flushed s /\ trace s0 = trace s.
Proof.
  intros Hw Hr Hc Hx. rewrite FLBPluginFlush_accepted by assumption.
  unfold consuming in Hc. destruct (once s) eqn:Ho.
  - destruct Hc as (Hc & Hch & Hwk). exists s.
    rewrite (bind_Ret _ _ _ _ _ (once_Do_done _ s Ho)).
    unfold flush_after. rewrite (bind_Ret _ _ _ _ _ (ctx_Done_live s Hc)), Hx.
    repeat split; assumption.
  - subst early.
    destruct (start_output_runs None s)
      as (s1 & E1 & _ & _ & Hc & Hch & Hwk & Hfl & Htr).
    exists (set_once true s1).
    rewrite (bind_Ret _ _ _ _ _ (once_Do_runs _ s s1 Ho E1)).
    unfold flush_after.
    rewrite (bind_Ret _ _ _ _ _ (ctx_Done_live (set_once true s1) Hc)), Hx.
    repeat split; assumption.
Qed.

(** A flush call that finds a consumer hands over every entry of a blob
    whose entries all pass the checks. *)
Lemma flush_all_entries X early data ctag s goods ps :
  initWG s <= 0 -> theOutput s <> None -> consuming early s ->
  codec_SetBytesExt X = None ->
  codec_NewDecoderBytes X data = entries_then goods DecEOF ->
  Forall2 (fun e p => decode_entry e = inl p) goods ps ->
  exists s',
    FLBPluginFlush X early data ctag s = (Ret FLB_OK, s')
    /\ flushed s' = flushed s ++ map (tagged ctag) ps.
Proof.
  intros Hw Hr Hc Hx Hd Hf.
  destruct (FLBPluginFlush_consuming X early data ctag s Hw Hr Hc Hx)
    as (s0 & E & Hrec & Hfl & _).
  rewrite E, Hd, (flush_loop_entries ctag goods ps DecEOF Hf s0 Hrec).
  rewrite flush_loop_eq by apply Hrec.
  eexists. split; [reflexivity |]. simpl. now rewrite Hfl.
Qed.

(** C2. A flush call that finds a consumer, on a blob that decodes
    without error into entries that pass the checks, returns [FLB_OK]
    having handed to the user's [Flush] one Message per entry, carrying
    the call's tag, in the order of the blob. *)
Theorem flush_delivers_in_order X early data ctag s goods ps :
  initWG s <= 0 -> theOutput s <> None -> consuming early s ->
  codec_SetBytesExt X = None ->
  codec_NewDecoderBytes X data = entries_then goods DecEOF ->
  Forall2 (fun e p => decode_entry e = inl p) goods ps ->
  exists s',
    FLBPluginFlush X early data ctag s = (Ret FLB_OK, s')
    /\ flushed s' = flushed s ++ map (tagged ctag) ps
    /\ Forall (fun m => Tag m = ctag) (map (tagged ctag) ps).
Proof.
  intros Hw Hr Hc Hx Hd Hf.
  destruct (flush_all_entries X early data ctag s goods ps Hw Hr Hc Hx Hd Hf)
    as (s' & E & Hfl).
  exists s'. split; [exact E |]. split; [exact Hfl |].
  clear. induction ps as [| p ps IH]; simpl; constructor; [reflexivity | exact IH].
Qed.

Lemma flush_delivers_in_order_witness :
  exists s',
    FLBPluginFlush sample None blob_two "mytag" output_ready = (Ret FLB_OK, s')
    /\ flushed s' = flushed output_ready
                    ++ map (tagged "mytag") [(t1, Some rec_ab); (t2, Some rec_cd)]
    /\ Forall (fun m => Tag m = "mytag")
         (map (tagged "mytag") [(t1, Some rec_ab); (t2, Some rec_cd)]).
Proof.
  apply (flush_delivers_in_order sample None blob_two "mytag" output_ready
           [[VTime t1; VMap [(VString "a", VBytes [98])]];
            [VTime t2; VMap [(VString "c", VBytes [100])]]]).
  - vm_compute. discriminate.
  - vm_compute. discriminate.
  - reflexivity.
  - reflexivity.
  - vm_compute. reflexivity.
  - repeat constructor.
Defined.

(** C4. A flush call that finds a consumer, on a blob whose entries pass
    the checks up to one that fails to decode (wrong arity, first element
    not a time, second not a map, a key not a string, a value not a byte
    slice, or an error of the decoder itself), returns [FLB_ERROR]; the
    Messages of the entries before the failing one have been handed to the
    user's [Flush] and stay so. *)
Theorem flush_error_keeps_delivered X early data ctag s goods ps rest :
  initWG s <= 0 -> theOutput s <> None -> consuming early s ->
  codec_SetBytesExt X = None ->
  codec_NewDecoderBytes X data = entries_then goods rest ->
  Forall2 (fun e p => decode_entry e = inl p) goods ps ->
  fails_next rest ->
  exists s',
    FLBPluginFlush X early data ctag s = (Ret FLB_ERROR, s')
    /\ flushed s' = flushed s ++ map (tagged ctag) ps.
Proof.
  intros Hw Hr Hc Hx Hd Hf Hb.
  destruct (FLBPluginFlush_consuming X early data ctag s Hw Hr Hc Hx)
    as (s0 & E & Hrec & Hfl & _).
  rewrite E, Hd, (flush_loop_entries ctag goods ps _ Hf s0 Hrec).
  rewrite flush_loop_eq by apply Hrec.
  destruct Hb as [err | bad rest Hb].
  - eexists. split; [reflexivity |]. simpl. now rewrite Hfl.
  - apply bad_entry_rejected in Hb as [ev Hev]. rewrite Hev.
    eexists. split; [reflexivity |]. simpl. now rewrite Hfl.
Qed.

Lemma flush_error_keeps_delivered_witness :
  exists s',
    FLBPluginFlush sample None blob_bad_second "mytag" output_ready
    = (Ret FLB_ERROR, s')
    /\ flushed s' = flushed output_ready ++ map (tagged "mytag") [(t1, Some rec_ab)].
Proof.
  apply (flush_error_keeps_delivered sample None blob_bad_second "mytag"
           output_ready
           [[VTime t1; VMap [(VString "a", VBytes [98])]]]
           [(t1, Some rec_ab)]
           (DecEntry [VTime t2; VMap [(VString "c", VBytes [100])]; VNil]
              (DecEntry [VTime t3; VMap []] DecEOF))).
  - vm_compute. discriminate.
  - vm_compute. discriminate.
  - reflexivity.
  - reflexivity.
  - vm_compute. reflexivity.
  - repeat constructor.
  - apply fails_check, bad_arity. simpl. lia.
Defined.

(** C5, as the code has it. A flush call made after the user's [Flush]
    has returned and before cancellation does not start [Flush] again and
    hands over nothing. It returns [FLB_OK] when the blob holds no entry;
    it returns [FLB_ERROR] when the first entry does not decode; and when
    the first entry decodes, it blocks in the send on the channel that
    nobody receives from any more. *)
Theorem flush_after_Flush_returned X early data ctag s :
  initWG s <= 0 -> theOutput s <> None -> flush_ended s ->
  codec_SetBytesExt X = None ->
  starts (snd (FLBPluginFlush X early data ctag s)) = starts s
  /\ spawned (snd (FLBPluginFlush X early data ctag s)) = spawned s
  /\ flushed (snd (FLBPluginFlush X early data ctag s)) = flushed s
  /\ fst (FLBPluginFlush X early data ctag s)
     = match codec_NewDecoderBytes X data with
       | DecEOF => Ret FLB_OK
       | DecErr _ => Ret FLB_ERROR
       | DecEntry entry _ =>
           match decode_entry entry with
           | inl _ => Block
           | inr _ => Ret FLB_ERROR
           end
       end.
Proof.
  intros Hw Hr (Ho & Hc & Hch & err & Hwk) Hx.
  rewrite FLBPluginFlush_accepted by assumption.
  rewrite (bind_Ret _ _ _ _ _ (once_Do_done _ s Ho)).
  unfold flush_after. rewrite (bind_Ret _ _ _ _ _ (ctx_Done_live s Hc)), Hx.
  rewrite flush_loop_eq by exact Hc.
  destruct (codec_NewDecoderBytes X data) as [| e | entry rest]; simpl; auto.
  destruct (decode_entry entry) as [[t rec] | ev]; simpl; auto.
  rewrite (bind_Block _ _ _ _ (chan_send_stuck _ s err Hch Hwk)). auto.
Qed.

Lemma flush_after_Flush_returned_witness :
  fst (FLBPluginFlush sample None blob_one "mytag"
         (flush_returns None
            (snd (FLBPluginFlush sample None [] "mytag" output_ready))))
  = Block.
Proof.
  apply (proj2 (proj2 (proj2
    (flush_after_Flush_returned sample None blob_one "mytag"
       (flush_returns None
          (snd (FLBPluginFlush sample None [] "mytag" output_ready)))
       ltac:(vm_compute; discriminate)
       ltac:(vm_compute; discriminate)
       ltac:(repeat split; try reflexivity; eexists; reflexivity)
       eq_refl)))).
Defined.

(** C5, as the spec has it, fails: an output plugin is registered and
    initialised, a first flush call with an empty blob starts the user's
    [Flush], [Flush] returns nil, nothing is cancelled; the next flush call,
    with a blob of one well-formed record, does not return [FLB_OK]: it
    blocks. *)
Lemma flush_after_return_not_OK :
  flush_ended
    (flush_returns None
       (snd (FLBPluginFlush sample None [] "mytag" output_ready)))
  /\ fst (FLBPluginFlush sample None blob_one "mytag"
            (flush_returns None
               (snd (FLBPluginFlush sample None [] "mytag" output_ready))))
     = Block
  /\ fst (FLBPluginFlush sample None blob_one "mytag"
            (flush_returns None
               (snd (FLBPluginFlush sample None [] "mytag" output_ready))))
     <> Ret FLB_OK.
Proof.
  split; [| split].
  - repeat split; try reflexivity. eexists. reflexivity.
  - vm_compute. reflexivity.
  - vm_compute. discriminate.
Qed.

(** ** The drain path, message by message *)

Lemma chan_pop_cons s m q cap closed :
  theChannel s = Some (mkChan (m :: q) cap closed) ->
  chan_pop s = set_theChannel (Some (mkChan q cap closed)) s.
Proof. intros H. unfold chan_pop. now rewrite H. Qed.

Lemma drain_loop_live X m q sel buf s :
  runCtx s = Some None ->
  drain_loop X sel (m :: q) buf s
  = match input_Encode X (msg_Time m) (msg_Record m) with
    | inr err => (Ret (inl FLB_ERROR),
                  set_trace (trace (chan_pop s) ++ [EEncode err]) (chan_pop s))
    | inl b => drain_loop X (tl sel) q (buf ++ b) (chan_pop s)
    end.
Proof.
  intros H. cbn [drain_loop]. unfold bind at 1, get.
  rewrite (bind_Ret _ _ _ _ _ (ctx_Done_live s H)).
  unfold bind at 1, modify.
  now destruct (input_Encode X (msg_Time m) (msg_Record m)).
Qed.

Lemma drain_loop_end X sel buf s cap :
  runCtx s = Some None -> theChannel s = Some (mkChan [] cap false) ->
  drain_loop X sel [] buf s = (Ret (inr (buf, false)), s).
Proof.
  intros H Hc. cbn [drain_loop]. unfold bind at 1, get.
  rewrite (bind_Ret _ _ _ _ _ (ctx_Done_live s H)). now rewrite Hc.
Qed.

(** The loop encodes the messages at the head of the channel one by one
    and goes on with what is behind them. *)
Lemma drain_loop_prefix X q1 encs :
  Forall2 (encodes X) q1 encs ->
  forall q2 sel buf s cap closed,
    runCtx s = Some None ->
    theChannel s = Some (mkChan (q1 ++ q2) cap closed) ->
    exists sel',
      drain_loop X sel (q1 ++ q2) buf s
      = drain_loop X sel' q2 (buf ++ concat encs)
          (set_theChannel (Some (mkChan q2 cap closed)) s).
Proof.
  induction 1 as [| m b q1 encs Hm Hf IH]; intros q2 sel buf s cap closed Hc Hch.
  - exists sel. simpl. rewrite app_nil_r. f_equal.
    destruct s; simpl in *. now rewrite Hch.
  - cbn [app]. rewrite drain_loop_live by exact Hc.
    unfold encodes in Hm. rewrite Hm.
    rewrite (chan_pop_cons s m (q1 ++ q2) cap closed Hch).
    destruct (IH q2 (tl sel) (buf ++ b)
                (set_theChannel (Some (mkChan (q1 ++ q2) cap closed)) s)
                cap closed Hc eq_refl) as [sel' E].
    exists sel'. rewrite E. cbn [concat]. now rewrite <- app_assoc.
Qed.

Lemma mutex_Lock_free s : buflock s = false -> mutex_Lock s = (Ret tt, set_buflock true s).
Proof. intros H. unfold mutex_Lock, bind, gets. now rewrite H. Qed.

Lemma FLBPluginInputCallback_draining X sel s ms :
  draining s ms ->
  FLBPluginInputCallback X sel s
  = bind (if (0 <? length ms)%nat then drain_loop X sel ms []
          else ret (inr ([], false)))
      (fun r =>
         match r with
         | inl st => ret (st, None)
         | inr (buf, gc) =>
             mutex_Unlock ;;;
             (if gc then emit EGC else ret tt) ;;;
             if (0 <? length buf)%nat then ret (FLB_OK, Some buf)
             else ret (FLB_OK, None)
         end) (set_buflock true s).
Proof.
  intros (Hw & Hi & Ho & Hl & Hc & cap & Hch).
  rewrite FLBPluginInputCallback_accepted by assumption.
  rewrite (bind_Ret _ _ _ _ _ (once_Do_done _ s Ho)).
  unfold drain. rewrite (bind_Ret _ _ _ _ _ (mutex_Lock_free s Hl)).
  unfold bind at 1, get. cbn [theChannel set_buflock]. now rewrite Hch.
Qed.

(** A poll call whose buffered messages all encode returns [FLB_OK] and
    hands the host their encodings, in order, as one batch. *)
Lemma poll_batch X sel s ms encs :
  draining s ms -> Forall2 (encodes X) ms encs ->
  exists s',
    FLBPluginInputCallback X sel s
    = (Ret (FLB_OK, if (0 <? length (concat encs))%nat
                    then Some (concat encs) else None), s')
    /\ draining s' [] /\ trace s' = trace s.
Proof.
  intros Hd Hf. rewrite (FLBPluginInputCallback_draining X sel s ms Hd).
  destruct Hd as (Hw & Hi & Ho & Hl & Hc & cap & Hch).
  destruct ms as [| m ms].
  - inversion Hf; subst. cbn [length Nat.ltb Nat.leb concat].
    eexists. split; [reflexivity |].
    repeat split; try assumption. exists cap. exact Hch.
  - replace (0 <? length (m :: ms))%nat with true by reflexivity.
    destruct (drain_loop_prefix X (m :: ms) encs Hf [] sel [] (set_buflock true s)
                cap false Hc) as [sel' E].
    { rewrite app_nil_r. exact Hch. }
    rewrite app_nil_r in E. unfold bind at 1. rewrite E.
    rewrite (drain_loop_end X sel' _
               (set_theChannel (Some (mkChan [] cap false)) (set_buflock true s))
               cap Hc eq_refl).
    cbn [app]. unfold bind at 1, mutex_Unlock, bind at 1, gets.
    cbn [buflock set_theChannel set_buflock].
    destruct (0 <? length (concat encs))%nat; eexists; (split; [reflexivity |]);
      (repeat split; try assumption); exists cap; reflexivity.
Qed.

Lemma ctx_Done_some s c : runCtx s = Some c -> ctx_Done s = (Ret c, s).
Proof. intros H. unfold ctx_Done, bind, gets. now rewrite H. Qed.

Lemma drain_loop_take X m q sel buf s c :
  runCtx s = Some c ->
  drain_loop X (true :: sel) (m :: q) buf s
  = match input_Encode X (msg_Time m) (msg_Record m) with
    | inr err => (Ret (inl FLB_ERROR),
                  set_trace (trace (chan_pop s) ++ [EEncode err]) (chan_pop s))
    | inl b => drain_loop X sel q (buf ++ b) (chan_pop s)
    end.
Proof.
  intros H. cbn [drain_loop]. unfold bind at 1, get.
  rewrite (bind_Ret _ _ _ _ _ (ctx_Done_some s c H)).
  cbn [hd tl]. destruct c; unfold bind at 1, modify;
    now destruct (input_Encode X (msg_Time m) (msg_Record m)).
Qed.

(** The loop, while the select takes the receive arm, encodes the
    messages at the head of the channel one by one. *)
Lemma drain_loop_taking X q1 encs :
  Forall2 (encodes X) q1 encs ->
  forall q2 sel buf s cap closed c,
    runCtx s = Some c ->
    theChannel s = Some (mkChan (q1 ++ q2) cap closed) ->
    drain_loop X (repeat true (length q1) ++ sel) (q1 ++ q2) buf s
    = drain_loop X sel q2 (buf ++ concat encs)
        (set_theChannel (Some (mkChan q2 cap closed)) s).
Proof.
  induction 1 as [| m b q1 encs Hm Hf IH]; intros q2 sel buf s cap closed c Hc Hch.
  - simpl. rewrite app_nil_r. f_equal. destruct s; simpl in *. now rewrite Hch.
  - cbn [app length repeat]. rewrite (drain_loop_take X m _ _ buf s c Hc).
    unfold encodes in Hm. rewrite Hm.
    rewrite (chan_pop_cons s m (q1 ++ q2) cap closed Hch).
    rewrite (IH q2 sel (buf ++ b)
               (set_theChannel (Some (mkChan (q1 ++ q2) cap closed)) s)
               cap closed c Hc eq_refl).
    cbn [concat]. now rewrite <- app_assoc.
Qed.

Lemma FLBPluginInputCallback_polling X sel s c q cap closed :
  polling s c (mkChan q cap closed) ->
  FLBPluginInputCallback X sel s
  = bind (if (0 <? length q)%nat then drain_loop X sel q []
          else ret (inr ([], false)))
      (fun r =>
         match r with
         | inl st => ret (st, None)
         | inr (buf, gc) =>
             mutex_Unlock ;;;
             (if gc then emit EGC else ret tt) ;;;
             if (0 <? length buf)%nat then ret (FLB_OK, Some buf)
             else ret (FLB_OK, None)
         end) (set_buflock true s).
Proof.
  intros (Hw & Hi & Ho & Hl & Hc & Hch).
  rewrite FLBPluginInputCallback_accepted by assumption.
  rewrite (bind_Ret _ _ _ _ _ (once_Do_done _ s Ho)).
  unfold drain. rewrite (bind_Ret _ _ _ _ _ (mutex_Lock_free s Hl)).
  unfold bind at 1, get. cbn [theChannel set_buflock]. now rewrite Hch.
Qed.

Lemma nonempty_ltb {A} (q : list A) : q <> [] -> (0 <? length q)%nat = true.
Proof. destruct q; [congruence | reflexivity]. Qed.

Lemma repeat_snoc_app {A} (a : A) n l : repeat a (S n) ++ l = repeat a n ++ a :: l.
Proof. induction n as [| n IH]; [reflexivity |]. simpl in *. now rewrite IH. Qed.

(** C7. A poll call whose drain loop comes to a buffered message on which
    the encoder fails (the messages in front of it encode, and the loop
    receives up to it: the context is live, or the select takes the receive
    arm that many times) returns [FLB_ERROR] and stores nothing through
    [data] and [csize]: what the messages in front encoded to is dropped.
    The call writes the "encode:" line and stops there; the messages behind
    the failing one stay in the channel. *)
Theorem encode_failure_aborts_drain X sel s c q1 m q2 cap closed encs err :
  polling s c (mkChan (q1 ++ m :: q2) cap closed) ->
  (c = None \/ exists sel', sel = repeat true (S (length q1)) ++ sel') ->
  Forall2 (encodes X) q1 encs ->
  input_Encode X (msg_Time m) (msg_Record m) = inr err ->
  exists s',
    FLBPluginInputCallback X sel s = (Ret (FLB_ERROR, None), s')
    /\ emitted s s' [EEncode err]
    /\ theChannel s' = Some (mkChan q2 cap closed).
Proof.
  intros Hp Hsel Hf He.
  rewrite (FLBPluginInputCallback_polling X sel s _ _ _ _ Hp).
  destruct Hp as (Hw & Hi & Ho & Hl & Hc & Hch).
  rewrite nonempty_ltb by (now destruct q1).
  unfold bind at 1.
  assert (E : drain_loop X sel (q1 ++ m :: q2) [] (set_buflock true s)
              = (Ret (inl FLB_ERROR),
                 set_trace (trace s ++ [EEncode err])
                   (set_theChannel (Some (mkChan q2 cap closed))
                      (set_buflock true s)))).
  { destruct Hsel as [-> | [sel' ->]].
    - destruct (drain_loop_prefix X q1 encs Hf (m :: q2) sel [] (set_buflock true s)
                  cap closed Hc Hch) as [sel1 E].
      rewrite E, drain_loop_live by exact Hc. rewrite He. reflexivity.
    - rewrite repeat_snoc_app.
      rewrite (drain_loop_taking X q1 encs Hf (m :: q2) (true :: sel') []
                 (set_buflock true s) cap closed c Hc Hch).
      rewrite drain_loop_take with (c := c) by exact Hc.
      rewrite He. reflexivity. }
  rewrite E. eexists. split; [reflexivity |]. split; reflexivity.
Qed.

Lemma encode_failure_aborts_drain_witness :
  exists s',
    FLBPluginInputCallback sample []
      (collected [msg1; msg_poison; msg2] input_running)
    = (Ret (FLB_ERROR, None), s')
    /\ emitted (collected [msg1; msg_poison; msg2] input_running) s'
         [EEncode "cannot encode"]
    /\ theChannel s' = Some (mkChan [msg2] 300000 false).
Proof.
  apply (encode_failure_aborts_drain sample []
           (collected [msg1; msg_poison; msg2] input_running)
           None [msg1] msg_poison [msg2] 300000 false [enc1] "cannot encode").
  - repeat split; try (vm_compute; discriminate).
  - left. reflexivity.
  - repeat constructor.
  - vm_compute. reflexivity.
Defined.

(** ** The wire format: what is written is read back *)

Lemma lor_shiftl_byte a b :
  0 <= a -> 0 <= b < 256 -> Z.lor (Z.shiftl a 8) b = a * 256 + b.
Proof.
  intros Ha Hb.
  assert (E : Z.land (Z.shiftl a 8) b = 0).
  { apply Z.bits_inj'. intros n Hn. rewrite Z.land_spec, Z.bits_0.
    destruct (Z_lt_le_dec n 8) as [Hlt | Hge].
    - rewrite Z.shiftl_spec_low by lia. reflexivity.
    - destruct (Z.eq_dec b 0) as [-> | Hne].
      + rewrite Z.bits_0. apply andb_false_r.
      + rewrite (Z.bits_above_log2 b n); [apply andb_false_r | lia |].
        apply Z.lt_le_trans with 8; [| lia].
        apply Z.log2_lt_pow2; lia. }
  pose proof (Z.add_lor_land (Z.shiftl a 8) b) as P.
  rewrite E, Z.shiftl_mul_pow2 in P by lia. change (2 ^ 8) with 256 in P.
  rewrite Z.shiftl_mul_pow2 by lia. change (2 ^ 8) with 256. lia.
Qed.

Lemma land_255 n : Z.land n 255 = n mod 256.
Proof. change 255 with (Z.ones 8). rewrite Z.land_ones by lia. reflexivity. Qed.

Lemma un_be_1 n : 0 <= n < 256 -> un_be [n] = n.
Proof. intros H. unfold un_be. simpl. reflexivity. Qed.

Lemma mod_256_bound x : 0 <= x mod 256 < 256.
Proof. apply Z.mod_pos_bound. lia. Qed.

Lemma un_be_be16 n : 0 <= n < 65536 -> un_be (be16 n) = n.
Proof.
  intros H. unfold un_be, be16. cbn [fold_left].
  rewrite !land_255, !Z.shiftr_div_pow2 by lia.
  change (Z.shiftl 0 8) with 0. rewrite Z.lor_0_l.
  change (2 ^ 8) with 256.
  pose proof (mod_256_bound (n / 256)). pose proof (mod_256_bound n).
  rewrite lor_shiftl_byte by lia.
  Z.div_mod_to_equations. lia.
Qed.

Lemma un_be_be32 n : 0 <= n < 4294967296 -> un_be (be32 n) = n.
Proof.
  intros H. unfold un_be, be32. cbn [fold_left].
  rewrite !land_255, !Z.shiftr_div_pow2 by lia.
  change (Z.shiftl 0 8) with 0. rewrite Z.lor_0_l.
  change (2 ^ 8) with 256. change (2 ^ 16) with 65536. change (2 ^ 24) with 16777216.
  pose proof (mod_256_bound (n / 16777216)). pose proof (mod_256_bound (n / 65536)).
  pose proof (mod_256_bound (n / 256)). pose proof (mod_256_bound n).
  rewrite (lor_shiftl_byte ((n / 16777216) mod 256)) by lia.
  rewrite (lor_shiftl_byte ((n / 16777216) mod 256 * 256 + (n / 65536) mod 256)) by lia.
  rewrite lor_shiftl_byte by lia.
  Z.div_mod_to_equations. lia.
Qed.

Lemma length_bytes_of_string s : length (bytes_of_string s) = String.length s.
Proof.
  unfold bytes_of_string. rewrite length_map.
  induction s; simpl; congruence.
Qed.

Lemma string_of_bytes_of_string s : string_of_bytes (bytes_of_string s) = s.
Proof.
  unfold string_of_bytes, bytes_of_string. rewrite map_map.
  rewrite (map_ext _ (fun a => a)).
  - rewrite map_id. apply string_of_list_ascii_of_string.
  - intros a. rewrite N2Z.id. apply ascii_N_embedding.
Qed.

Lemma take_bytes_app d rest :
  take_bytes (Z.of_nat (length d)) (d ++ rest) = Some (d, rest).
Proof.
  unfold take_bytes. rewrite length_app, Nat2Z.id.
  replace ((Z.of_nat (length d) <? 0) || (Z.of_nat (length d + length rest) <? Z.of_nat (length d))) with false.
  - f_equal. f_equal.
    + rewrite firstn_app, Nat.sub_diag, firstn_all. simpl. apply app_nil_r.
    + rewrite skipn_app, Nat.sub_diag, skipn_all. reflexivity.
  - symmetry. apply orb_false_iff. split; [apply Z.ltb_ge | apply Z.ltb_ge]; lia.
Qed.

Ltac zbool :=
  repeat (match goal with
          | |- context [Z.ltb ?a ?b] =>
              first [rewrite (proj2 (Z.ltb_lt a b)) by lia
                    | rewrite (proj2 (Z.ltb_ge a b)) by lia]
          | |- context [Z.eqb ?a ?b] =>
              first [rewrite (proj2 (Z.eqb_eq a b)) by lia
                    | rewrite (proj2 (Z.eqb_neq a b)) by lia]
          | |- context [Z.leb ?a ?b] =>
              first [rewrite (proj2 (Z.leb_le a b)) by lia
                    | rewrite (proj2 (Z.leb_gt a b)) by lia]
          end; cbn [orb andb]).

Lemma decode_fixstr f n t :
  0 <= n < 32 -> decode_value (S f) ((160 + n) :: t) = decode_bytes n t.
Proof.
  intros H. cbn [decode_value]. zbool. f_equal. lia.
Qed.

Lemma decode_fixmap f n t :
  0 <= n < 16 ->
  decode_value (S f) ((128 + n) :: t) = decode_map (decode_value f) n t.
Proof.
  intros H. cbn [decode_value]. zbool. f_equal. lia.
Qed.

Lemma decode_bytes_app s rest :
  decode_bytes (Z.of_nat (String.length s)) (bytes_of_string s ++ rest)
  = Some (VBytes (bytes_of_string s), rest).
Proof.
  unfold decode_bytes.
  rewrite <- length_bytes_of_string, take_bytes_app. reflexivity.
Qed.

Lemma take_bytes_exact k d rest :
  k = Z.of_nat (length d) -> take_bytes k (d ++ rest) = Some (d, rest).
Proof. intros ->. apply take_bytes_app. Qed.

Lemma take_len_1 n rest : 0 <= n < 256 -> take_len 1 (n :: rest) = Some (n, rest).
Proof.
  intros H. unfold take_len.
  change (n :: rest) with ([n] ++ rest).
  rewrite (take_bytes_exact 1 [n] rest) by reflexivity.
  now rewrite un_be_1.
Qed.

Lemma take_len_2 n rest :
  0 <= n < 65536 -> take_len 2 (be16 n ++ rest) = Some (n, rest).
Proof.
  intros H. unfold take_len.
  rewrite (take_bytes_exact 2 (be16 n) rest) by reflexivity.
  now rewrite un_be_be16.
Qed.

Lemma take_len_4 n rest :
  0 <= n < 4294967296 -> take_len 4 (be32 n ++ rest) = Some (n, rest).
Proof.
  intros H. unfold take_len.
  rewrite (take_bytes_exact 4 (be32 n) rest) by reflexivity.
  now rewrite un_be_be32.
Qed.

Lemma decode_str f s e rest :
  encode_str s = Some e ->
  decode_value (S f) (e ++ rest) = Some (VBytes (bytes_of_string s), rest).
Proof.
  unfold encode_str, str_header. set (n := Z.of_nat (String.length s)).
  assert (0 <= n) by lia.
  destruct (Z.ltb_spec n 32); [| destruct (Z.ltb_spec n 256);
    [| destruct (Z.ltb_spec n 65536); [| destruct (Z.ltb_spec n 4294967296)]]];
    intros E; inversion E; subst e; clear E.
  - cbn [app]. rewrite decode_fixstr by lia. apply decode_bytes_app.
  - transitivity (sized 1 decode_bytes (n :: bytes_of_string s ++ rest));
      [reflexivity |].
    unfold sized. rewrite take_len_1 by lia. apply decode_bytes_app.
  - transitivity (sized 2 decode_bytes (be16 n ++ bytes_of_string s ++ rest));
      [reflexivity |].
    unfold sized. rewrite take_len_2 by lia. apply decode_bytes_app.
  - transitivity (sized 4 decode_bytes (be32 n ++ bytes_of_string s ++ rest));
      [reflexivity |].
    unfold sized. rewrite take_len_4 by lia. apply decode_bytes_app.
Qed.

Lemma encode_str_nonempty s e : encode_str s = Some e -> (1 <= length e)%nat.
Proof.
  unfold encode_str. destruct (str_header _) as [h |] eqn:E; [| discriminate].
  intros H. inversion H. rewrite length_app.
  unfold str_header in E.
  repeat match type of E with
         | (if ?c then _ else _) = _ => destruct c
         end; inversion E; simpl; lia.
Qed.

Lemma encode_pairs_length l :
  forall e, encode_pairs l = Some e -> (length l <= length e)%nat.
Proof.
  induction l as [| [k v] l IH]; intros e H; simpl in *; [lia |].
  destruct (encode_str k) as [bk |] eqn:Ek; [| discriminate].
  destruct (encode_str v) as [bv |] eqn:Ev; [| discriminate].
  destruct (encode_pairs l) as [bl |]; [| discriminate].
  inversion H. rewrite !length_app.
  specialize (IH bl eq_refl). apply encode_str_nonempty in Ek. lia.
Qed.

Lemma decode_n_pairs f l :
  forall e rest,
    encode_pairs l = Some e ->
    decode_n (decode_pair (decode_value (S f))) (length l) (e ++ rest)
    = Some (map wire_pair l, rest).
Proof.
  induction l as [| [k v] l IH]; intros e rest H; simpl in H.
  - inversion H. reflexivity.
  - destruct (encode_str k) as [bk |] eqn:Ek; [| discriminate].
    destruct (encode_str v) as [bv |] eqn:Ev; [| discriminate].
    destruct (encode_pairs l) as [bl |] eqn:El; [| discriminate].
    inversion H; subst e; clear H.
    cbn [length decode_n]. unfold decode_pair at 1.
    rewrite <- !app_assoc.
    rewrite (decode_str f k bk _ Ek), (decode_str f v bv _ Ev).
    rewrite (IH bl rest eq_refl). cbn [map_key map].
    unfold wire_pair at 2. cbn [fst snd].
    now rewrite string_of_bytes_of_string.
Qed.

Lemma decode_map_pairs f l h e rest :
  map_header (Z.of_nat (length l)) = Some h ->
  encode_pairs l = Some e ->
  decode_value (S (S f)) (h ++ e ++ rest) = Some (VMap (map wire_pair l), rest).
Proof.
  intros Hh He. pose proof (encode_pairs_length l e He) as Hlen.
  assert (Hm : decode_map (decode_value (S f)) (Z.of_nat (length l)) (e ++ rest)
               = Some (VMap (map wire_pair l), rest)).
  { unfold decode_map, decode_count. rewrite length_app.
    rewrite (proj2 (Z.ltb_ge _ _)) by lia.
    rewrite Nat2Z.id, (decode_n_pairs f l e rest He). reflexivity. }
  unfold map_header in Hh. set (n := Z.of_nat (length l)) in *.
  assert (0 <= n) by lia.
  destruct (Z.ltb_spec n 16); [| destruct (Z.ltb_spec n 65536);
    [| destruct (Z.ltb_spec n 4294967296)]];
    inversion Hh; subst h; clear Hh.
  - cbn [app]. rewrite decode_fixmap by lia. exact Hm.
  - transitivity (sized 2 (decode_map (decode_value (S f))) (be16 n ++ e ++ rest));
      [reflexivity |].
    unfold sized. rewrite take_len_2 by lia. exact Hm.
  - transitivity (sized 4 (decode_map (decode_value (S f))) (be32 n ++ e ++ rest));
      [reflexivity |].
    unfold sized. rewrite take_len_4 by lia. exact Hm.
Qed.

Lemma uint32_bound x : 0 <= uint32 x < 4294967296.
Proof. unfold uint32. change (2 ^ 32) with 4294967296. apply Z.mod_pos_bound. lia. Qed.

Lemma uint32_small x : 0 <= x < 4294967296 -> uint32 x = x.
Proof. intros H. unfold uint32. change (2 ^ 32) with 4294967296. apply Z.mod_small. lia. Qed.

(** The time the flush path reads back from what the drain path wrote. *)
Lemma ReadExt_WriteExt t :
  bigEndianTime_ReadExt (FLBTime_WriteExt t)
  = time_Unix (uint32 (t_sec t)) (uint32 (t_nsec t)).
Proof.
  unfold bigEndianTime_ReadExt, FLBTime_WriteExt.
  change (firstn 4 (be32 (uint32 (t_sec t)) ++ be32 (uint32 (t_nsec t))))
    with (be32 (uint32 (t_sec t))).
  change (skipn 4 (be32 (uint32 (t_sec t)) ++ be32 (uint32 (t_nsec t))))
    with (be32 (uint32 (t_nsec t))).
  now rewrite !un_be_be32 by apply uint32_bound.
Qed.

Lemma time_Unix_id sec nsec :
  0 <= nsec < 1000000000 -> time_Unix sec nsec = mkTime sec nsec.
Proof.
  intros H. unfold time_Unix.
  rewrite (proj2 (Z.ltb_ge nsec 0)), (proj2 (Z.leb_gt 1000000000 nsec)) by lia.
  reflexivity.
Qed.

Lemma decode_time f t rest :
  decode_value (S f) (encode_time t ++ rest)
  = Some (VTime (time_Unix (uint32 (t_sec t)) (uint32 (t_nsec t))), rest).
Proof.
  transitivity (decode_ext_body 8 (0 :: FLBTime_WriteExt t ++ rest)); [reflexivity |].
  unfold decode_ext_body.
  rewrite (take_bytes_exact 8 (FLBTime_WriteExt t) rest) by reflexivity.
  unfold decode_ext.
  change ((0 =? 0) && (length (FLBTime_WriteExt t) =? 8)%nat) with true.
  cbv iota. now rewrite ReadExt_WriteExt.
Qed.

(** One encoded entry at the front of the input decodes to the 2-element
    slice of the time and the map, whatever follows it. *)
Lemma decode_encoded_entry fuel t l b rest :
  (3 <= fuel)%nat ->
  encode_entry t l = inl b ->
  decode_value fuel (b ++ rest)
  = Some (VSlice [VTime (time_Unix (uint32 (t_sec t)) (uint32 (t_nsec t)));
                  VMap (map wire_pair l)], rest).
Proof.
  intros Hf H. unfold encode_entry in H.
  destruct (map_header _) as [h |] eqn:Eh; [| discriminate].
  destruct (encode_pairs l) as [e |] eqn:Ee; [| discriminate].
  assert (Hb : b = [146] ++ encode_time t ++ h ++ e) by congruence.
  rewrite Hb. clear H Hb.
  destruct fuel as [| [| [| f]]]; try lia.
  rewrite <- !app_assoc.
  transitivity (decode_array (decode_value (S (S f))) 2
                  (encode_time t ++ h ++ e ++ rest)); [reflexivity |].
  unfold decode_array, decode_count.
  replace (Z.of_nat (length (encode_time t ++ h ++ e ++ rest)) <? 2) with false
    by (symmetry; apply Z.ltb_ge; rewrite length_app; simpl; lia).
  change (Z.to_nat 2) with 2%nat. cbn [decode_n].
  rewrite decode_time, (decode_map_pairs f l h e rest Eh Ee). reflexivity.
Qed.

Lemma encode_entry_length t l b : encode_entry t l = inl b -> (12 <= length b)%nat.
Proof.
  unfold encode_entry.
  destruct (map_header _) as [h |] eqn:Eh; [| discriminate].
  destruct (encode_pairs l) as [e |]; [| discriminate].
  intros H. inversion H. simpl. rewrite length_app.
  unfold map_header in Eh.
  repeat match type of Eh with
         | (if ?c then _ else _) = _ => destruct c
         end; inversion Eh; simpl; lia.
Qed.

Lemma convert_record_wire l :
  forall acc,
    convert_record (map wire_pair l) acc
    = inl (fold_left (fun m kv => <[fst kv := snd kv]> m) l acc).
Proof.
  induction l as [| [k v] l IH]; intros acc; [reflexivity |].
  cbn [map wire_pair fst snd convert_record fold_left].
  rewrite string_of_bytes_of_string. apply IH.
Qed.

Lemma fold_left_insert_perm (l : list (string * string)) (rec : gmap string string) :
  l ≡ₚ map_to_list rec ->
  fold_left (fun m kv => <[fst kv := snd kv]> m) l ∅ = rec.
Proof.
  intros Hp. rewrite <- fold_left_rev_right.
  change (fold_right (fun (y : string * string) (x : gmap string string) =>
                        <[fst y := snd y]> x) ∅ (rev l))
    with (list_to_map (M := gmap string string) (rev l)).
  transitivity (list_to_map (M := gmap string string) (map_to_list rec));
    [| apply list_to_map_to_list].
  apply list_to_map_proper.
  - rewrite <- Permutation_rev, Hp. apply NoDup_fst_map_to_list.
  - now rewrite <- Permutation_rev.
Qed.


Lemma decode_entry_wire t (l : list (string * string)) (rec : gmap string string) :
  l ≡ₚ map_to_list rec ->
  decode_entry [VTime t; VMap (map wire_pair l)] = inl (t, flush_record rec).
Proof.
  intros Hp. cbn [decode_entry]. rewrite length_map. unfold flush_record.
  destruct l as [| kv l].
  - apply Permutation_nil in Hp. now rewrite Hp.
  - cbn [length Nat.eqb]. rewrite convert_record_wire.
    rewrite (fold_left_insert_perm _ rec Hp).
    destruct (map_to_list rec); [| reflexivity].
    symmetry in Hp. now apply Permutation_nil in Hp.
Qed.

Lemma decode_stream_nil fuel : decode_stream fuel [] = DecEOF.
Proof. now destruct fuel. Qed.

Lemma decode_stream_entry fuel b entry rest :
  decode_value (length b) b = Some (VSlice entry, rest) ->
  decode_stream (S fuel) b = DecEntry entry (decode_stream fuel rest).
Proof.
  intros H. destruct b as [| x b]; [discriminate |].
  cbn [decode_stream]. now rewrite H.
Qed.

(** One entry written by the drain path and read by the flush path. *)
Lemma entry_round_trip t (rec : gmap string string) l b rest :
  0 <= t_nsec t < 1000000000 ->
  l ≡ₚ map_to_list rec ->
  encode_entry t l = inl b ->
  exists entry,
    decode_value (length (b ++ rest)) (b ++ rest) = Some (VSlice entry, rest)
    /\ decode_entry entry
       = inl (mkTime (uint32 (t_sec t)) (t_nsec t), flush_record rec).
Proof.
  intros Hn Hp He. pose proof (encode_entry_length t l b He) as Hlen.
  eexists. split.
  - apply decode_encoded_entry; [rewrite length_app; lia | exact He].
  - rewrite (uint32_small (t_nsec t)) by lia. rewrite time_Unix_id by lia.
    apply decode_entry_wire. exact Hp.
Qed.








(** Seconds outside 32 bits come back reduced modulo 2^32: the wire
    carries them as a [uint32]. *)
Lemma seconds_wrap :
  msgpack_Encode (mkTime 4294967297 5) (Some rec_ab)
  = inl [146; 215; 0; 0; 0; 0; 1; 0; 0; 0; 5; 129; 161; 97; 161; 98]
  /\ msgpack_NewDecoderBytes
       [146; 215; 0; 0; 0; 0; 1; 0; 0; 0; 5; 129; 161; 97; 161; 98]
     = DecEntry [VTime (mkTime 1 5); VMap [(VString "a", VBytes [98])]] DecEOF
  /\ decode_entry [VTime (mkTime 1 5); VMap [(VString "a", VBytes [98])]]
     = inl (mkTime 1 5, Some rec_ab).
Proof. repeat split; vm_compute; reflexivity. Qed.

(** ** The decoder makes progress: its own fuel is enough *)

Lemma take_bytes_consumes n : consumes (take_bytes n).
Proof.
  intros b d t H. unfold take_bytes in H.
  destruct ((n <? 0) || (Z.of_nat (length b) <? n)); [discriminate |].
  inversion H. rewrite length_skipn. lia.
Qed.

Lemma take_len_consumes k : consumes (take_len k).
Proof.
  intros b n t H. unfold take_len in H.
  destruct (take_bytes k b) as [[d t'] |] eqn:E; [| discriminate].
  inversion H; subst. now apply (take_bytes_consumes k b d).
Qed.

Lemma decode_bytes_consumes n : consumes (decode_bytes n).
Proof.
  intros b v t H. unfold decode_bytes in H.
  destruct (take_bytes n b) as [[d t'] |] eqn:E; [| discriminate].
  inversion H; subst. now apply (take_bytes_consumes n b d).
Qed.

Lemma decode_ext_body_consumes n : consumes (decode_ext_body n).
Proof.
  intros b v t H. unfold decode_ext_body in H.
  destruct b as [| tag b]; [discriminate |].
  destruct (take_bytes n b) as [[d t'] |] eqn:E; [| discriminate].
  inversion H; subst. apply (take_bytes_consumes n b d) in E. simpl. lia.
Qed.

Lemma decode_uint_consumes k : consumes (decode_uint k).
Proof.
  intros b v t H. unfold decode_uint in H.
  destruct (take_len k b) as [[n t'] |] eqn:E; [| discriminate].
  inversion H; subst. now apply (take_len_consumes k b n).
Qed.

Lemma decode_int_consumes k : consumes (decode_int k).
Proof.
  intros b v t H. unfold decode_int in H.
  destruct (take_len k b) as [[n t'] |] eqn:E; [| discriminate].
  inversion H; subst. now apply (take_len_consumes k b n).
Qed.

Lemma sized_consumes {A} k (body : Z -> list Z -> option (A * list Z)) :
  (forall n, consumes (body n)) -> consumes (sized k body).
Proof.
  intros Hb b v t H. unfold sized in H.
  destruct (take_len k b) as [[n t'] |] eqn:E; [| discriminate].
  apply (take_len_consumes k b n) in E. apply Hb in H. lia.
Qed.

Lemma decode_n_consumes {A} (dec : list Z -> option (A * list Z)) n :
  consumes dec -> consumes (decode_n dec n).
Proof.
  intros Hd. induction n as [| n IH]; intros b l t H; simpl in H.
  - inversion H. lia.
  - destruct (dec b) as [[a b'] |] eqn:E; [| discriminate].
    destruct (decode_n dec n b') as [[l' b''] |] eqn:E'; [| discriminate].
    inversion H; subst. apply Hd in E. apply IH in E'. lia.
Qed.

Lemma decode_count_consumes {A} (dec : list Z -> option (A * list Z)) n :
  consumes dec -> consumes (decode_count dec n).
Proof.
  intros Hd b l t H. unfold decode_count in H.
  destruct (Z.of_nat (length b) <? n); [discriminate |].
  now apply (decode_n_consumes dec _ Hd) in H.
Qed.

Lemma decode_array_consumes dec n : consumes dec -> consumes (decode_array dec n).
Proof.
  intros Hd b v t H. unfold decode_array in H.
  destruct (decode_count dec n b) as [[l t'] |] eqn:E; [| discriminate].
  inversion H; subst. now apply (decode_count_consumes dec n Hd) in E.
Qed.

Lemma decode_pair_consumes dec : consumes dec -> consumes (decode_pair dec).
Proof.
  intros Hd b v t H. unfold decode_pair in H.
  destruct (dec b) as [[k t1] |] eqn:E1; [| discriminate].
  destruct (dec t1) as [[v' t2] |] eqn:E2; [| discriminate].
  inversion H; subst. apply Hd in E1. apply Hd in E2. lia.
Qed.

Lemma decode_map_consumes dec n : consumes dec -> consumes (decode_map dec n).
Proof.
  intros Hd b v t H. unfold decode_map in H.
  destruct (decode_count (decode_pair dec) n b) as [[l t'] |] eqn:E; [| discriminate].
  inversion H; subst.
  now apply (decode_count_consumes _ n (decode_pair_consumes dec Hd)) in E.
Qed.

(** Every value takes at least its header byte. *)
Lemma decode_value_shorter fuel :
  forall b v t, decode_value fuel b = Some (v, t) -> (length t < length b)%nat.
Proof.
  induction fuel as [| f IH]; intros b v t H; [discriminate |].
  assert (Hc : consumes (decode_value f)).
  { intros b' v' t' H'. apply IH in H'. lia. }
  destruct b as [| h b]; [discriminate |].
  cbn [decode_value] in H. cbn [length].
  apply Nat.lt_succ_r.
  repeat match type of H with
         | (if ?c then _ else _) = _ => destruct c
         end;
    try discriminate;
    try (inversion H; subst; lia);
    first
      [ apply (decode_map_consumes _ _ Hc) in H
      | apply (decode_array_consumes _ _ Hc) in H
      | apply decode_bytes_consumes in H
      | apply decode_ext_body_consumes in H
      | apply decode_uint_consumes in H
      | apply decode_int_consumes in H
      | apply (sized_consumes _ _ decode_bytes_consumes) in H
      | apply (sized_consumes _ _ decode_ext_body_consumes) in H
      | apply (sized_consumes _ _ (fun n => decode_array_consumes _ n Hc)) in H
      | apply (sized_consumes _ _ (fun n => decode_map_consumes _ n Hc)) in H ];
    exact H.
Qed.

(** With as much fuel as there are bytes, the stream never stops for
    lack of fuel: more fuel changes nothing. *)
Lemma decode_stream_enough fuel :
  forall fuel' b, (length b <= fuel)%nat -> (length b <= fuel')%nat ->
  decode_stream fuel b = decode_stream fuel' b.
Proof.
  induction fuel as [| f IH]; intros fuel' b Hb Hb'.
  - destruct b; [now destruct fuel' | simpl in Hb; lia].
  - destruct b as [| h b]; [now destruct fuel' |].
    destruct fuel' as [| f']; [simpl in Hb'; lia |].
    cbn [length decode_stream] in *.
    destruct (decode_value (S (length b)) (h :: b)) as [[v rest] |] eqn:E;
      [| reflexivity].
    apply decode_value_shorter in E. cbn [length] in E.
    destruct v; try reflexivity; f_equal; apply IH; lia.
Qed.

Lemma decode_stream_fuel fuel b :
  (length b <= fuel)%nat -> decode_stream fuel b = msgpack_NewDecoderBytes b.
Proof. intros H. now apply decode_stream_enough. Qed.

(** ** From the drain path to the flush path *)

Lemma msgpack_Encode_length t rec b :
  msgpack_Encode t rec = inl b -> (12 <= length b)%nat.
Proof.
  destruct rec as [m |]; [apply encode_entry_length |].
  intros H. inversion H. simpl. lia.
Qed.

(** A batch written by the drain path is read by the flush path as the
    same number of entries, each passing the checks. *)
Lemma batch_decodes X ms encs :
  Forall2 (encodes (with_msgpack X)) ms encs ->
  Forall nanos_ok ms -> Forall made ms ->
  forall fuel, (length encs <= fuel)%nat ->
  exists es,
    decode_stream fuel (concat encs) = entries_then es DecEOF
    /\ Forall2 (fun e p => decode_entry e = inl p) es (map wire_time ms).
Proof.
  induction 1 as [| m b ms encs Hm Hf IH]; intros Hn Hmade fuel Hfuel.
  - exists []. split; [apply decode_stream_nil | constructor].
  - inversion Hn as [| ? ? Hn1 Hn2]; subst.
    inversion Hmade as [| ? ? Hm1 Hm2]; subst.
    destruct fuel as [| fuel]; [simpl in Hfuel; lia |].
    destruct (IH Hn2 Hm2 fuel ltac:(simpl in Hfuel; lia)) as (es & E & F).
    unfold made in Hm1. unfold encodes in Hm. cbn [input_Encode with_msgpack] in Hm.
    cbn [map]. unfold wire_time at 1.
    destruct (msg_Record m) as [rec |]; [| contradiction].
    destruct (entry_round_trip (msg_Time m) rec
                (map_to_list rec) b (concat encs) Hn1
                ltac:(reflexivity) Hm) as (entry & D & Hd).
    exists (entry :: es). cbn [concat entries_then]. split.
    + now rewrite (decode_stream_entry fuel _ _ _ D), E.
    + constructor; assumption.
Qed.

(** What a collector put into the primary channel, with every record
    made, and a poll call drained, a flush call on the drained batch hands
    to the user's [Flush]: the same pairs, in the same order, with the times
    as the wire carries them and the tag of the flush call. *)
Lemma drain_then_flush X sel s_in ms encs early ctag s_out :
  draining s_in ms -> ms <> [] -> Forall nanos_ok ms -> Forall made ms ->
  Forall2 (encodes (with_msgpack X)) ms encs ->
  initWG s_out <= 0 -> theOutput s_out <> None -> consuming early s_out ->
  exists blob s_in' s_out',
    FLBPluginInputCallback (with_msgpack X) sel s_in
    = (Ret (FLB_OK, Some blob), s_in')
    /\ FLBPluginFlush (with_msgpack X) early blob ctag s_out
       = (Ret FLB_OK, s_out')
    /\ flushed s_out' = flushed s_out ++ map (tagged ctag) (map wire_time ms).
Proof.
  intros Hd Hne Hn Hmade Hf Hw Hr Hc.
  destruct (poll_batch (with_msgpack X) sel s_in ms encs Hd Hf) as (s_in' & E & _).
  assert (Hlen : (length encs <= length (concat encs))%nat).
  { clear - Hf. induction Hf as [| m b ms encs Hm Hf IH]; simpl; [lia |].
    rewrite length_app. apply msgpack_Encode_length in Hm. lia. }
  assert (Hpos : (0 <? length (concat encs))%nat = true).
  { apply Nat.ltb_lt. destruct Hf as [| m b ms encs Hm Hf]; [congruence |].
    simpl in *. lia. }
  rewrite Hpos in E.
  destruct (batch_decodes X ms encs Hf Hn Hmade (length (concat encs)) Hlen)
    as (es & D & F).
  destruct (flush_all_entries (with_msgpack X) early (concat encs) ctag s_out
              es (map wire_time ms) Hw Hr Hc eq_refl D F) as (s_out' & Efl & Hfl).
  exists (concat encs), s_in', s_out'. repeat split; assumption.
Qed.

(** * Further properties *)

(** ** Polling *)

Lemma mutex_Unlock_held s :
  buflock s = true -> mutex_Unlock s = (Ret tt, set_buflock false s).
Proof. intros H. unfold mutex_Unlock, bind, gets. now rewrite H. Qed.

Lemma mutex_Lock_held s : buflock s = true -> mutex_Lock s = (Block, s).
Proof. intros H. unfold mutex_Lock, bind, gets. now rewrite H. Qed.

(** [drain] when the channel holds nothing: the loop is not entered. *)
Lemma drain_empty X sel s :
  buflock s = false ->
  (theChannel s = None
   \/ exists cap closed, theChannel s = Some (mkChan [] cap closed)) ->
  drain X sel s = (Ret (FLB_OK, None), s).
Proof.
  intros Hl Hc. unfold drain.
  rewrite (bind_Ret _ _ _ _ _ (mutex_Lock_free s Hl)).
  unfold bind at 1, get. cbn [theChannel set_buflock].
  assert (E : match theChannel s with
              | Some ch => ch_buf ch
              | None => []
              end = []).
  { destruct Hc as [-> | (cap & closed & ->)]; reflexivity. }
  rewrite E. cbn [length Nat.ltb Nat.leb]. unfold bind at 1, ret.
  unfold bind at 1, mutex_Unlock, bind at 1, gets. cbn [buflock set_buflock].
  unfold modify, bind, ret. cbn. destruct s; cbn in *. now subst.
Qed.

(** The first poll call that gets past the guards runs the start action
    and finds nothing to drain. *)
Lemma poll_first X sel s :
  initWG s <= 0 -> theInput s <> None -> buflock s = false -> once s = false ->
  exists s',
    FLBPluginInputCallback X sel s = (Ret (FLB_OK, None), s')
    /\ once s' = true /\ buflock s' = false /\ trace s' = trace s
    /\ theChannel s' = Some (mkChan [] 300000 false)
    /\ runCtx s' = Some None
    /\ spawned s' = spawned s ++ [GCollect; GRedistribute]
    /\ starts s' = S (starts s).
Proof.
  intros Hw Hi Hl Ho. rewrite FLBPluginInputCallback_accepted by assumption.
  rewrite (bind_Ret _ _ _ _ _ (once_Do_runs start_input s _ Ho eq_refl)).
  rewrite drain_empty.
  - eexists. split; [reflexivity |]. cbn. repeat split; auto.
  - exact Hl.
  - right. now exists 300000, false.
Qed.

(** X1. A poll call that finds the primary channel empty (or does not
    find it yet: the first call makes it) does not enter the drain loop.
    Finding [buflock] free, it returns [FLB_OK], stores nothing through
    [data] and [csize], writes nothing and releases the lock, whether or
    not the context is done or the channel closed. Once the redistributor
    has taken [buflock] at the top of its loop, which it then holds while
    it waits in its [select], the same call waits in [buflock.Lock()] and
    changes nothing: how soon it returns is up to the redistributor. *)
Theorem poll_empty_buffer X sel s :
  initWG s <= 0 -> theInput s <> None -> buflock s = false ->
  (once s = true ->
   exists cap closed, theChannel s = Some (mkChan [] cap closed)) ->
  (exists s',
     FLBPluginInputCallback X sel s = (Ret (FLB_OK, None), s')
     /\ once s' = true /\ buflock s' = false /\ trace s' = trace s
     /\ exists cap closed, theChannel s' = Some (mkChan [] cap closed))
  /\ (once s = true ->
      exists s1,
        mutex_Lock s = (Ret tt, s1)
        /\ FLBPluginInputCallback X sel s1 = (Block, s1)).
Proof.
  intros Hw Hi Hl Hc. split.
  - destruct (once s) eqn:Ho.
    + rewrite FLBPluginInputCallback_accepted by assumption.
      rewrite (bind_Ret _ _ _ _ _ (once_Do_done _ s Ho)).
      rewrite (drain_empty X sel s Hl (or_intror (Hc eq_refl))).
      exists s. repeat split; auto.
    + destruct (poll_first X sel s Hw Hi Hl Ho)
        as (s' & E & Ho' & Hl' & Ht' & Hch' & _).
      exists s'. repeat split; try assumption. now exists 300000, false.
  - intros Ho. exists (set_buflock true s).
    split; [now apply mutex_Lock_free |].
    rewrite FLBPluginInputCallback_accepted by assumption.
    rewrite (bind_Ret _ _ _ _ _ (once_Do_done _ (set_buflock true s) Ho)).
    unfold drain.
    now rewrite (bind_Block _ _ _ _ (mutex_Lock_held (set_buflock true s) eq_refl)).
Qed.

Lemma poll_empty_buffer_witness :
  (exists s',
     FLBPluginInputCallback sample [] input_running = (Ret (FLB_OK, None), s')
     /\ once s' = true /\ buflock s' = false /\ trace s' = trace input_running
     /\ exists cap closed, theChannel s' = Some (mkChan [] cap closed))
  /\ (once input_running = true ->
      exists s1,
        mutex_Lock input_running = (Ret tt, s1)
        /\ FLBPluginInputCallback sample [] s1 = (Block, s1)).
Proof.
  apply (poll_empty_buffer sample [] input_running).
  - vm_compute. discriminate.
  - vm_compute. discriminate.
  - reflexivity.
  - intros _. exists 300000, false. reflexivity.
Defined.

(** ** Polling while a send is in flight *)

Lemma chan_try_send_room m s q cap :
  theChannel s = Some (mkChan q cap false) -> Z.of_nat (length q) < cap ->
  chan_try_send m s
  = (Ret true, set_theChannel (Some (mkChan (q ++ [m]) cap false)) s).
Proof.
  intros Hch Hr. unfold chan_try_send, bind at 1, get. rewrite Hch.
  cbn [ch_closed ch_buf ch_cap].
  destruct (Z.ltb_spec (Z.of_nat (length q)) cap); [reflexivity | lia].
Qed.

Lemma chan_try_send_full m s q cap :
  theChannel s = Some (mkChan q cap false) -> cap <= Z.of_nat (length q) ->
  chan_try_send m s = (Ret false, s).
Proof.
  intros Hch Hr. unfold chan_try_send, bind at 1, get. rewrite Hch.
  cbn [ch_closed ch_buf ch_cap].
  destruct (Z.ltb_spec (Z.of_nat (length q)) cap); [lia | reflexivity].
Qed.

Lemma bind_cong {A B} (m : M A) (k1 k2 : A -> M B) s :
  (forall a s', k1 a s' = k2 a s') -> bind m k1 s = bind m k2 s.
Proof. intros H. unfold bind. destruct (m s) as [[a | msg |] s']; auto. Qed.

Lemma drain_loop_cons X msg q sel buf s :
  drain_loop X sel (msg :: q) buf s
  = bind ctx_Done
      (fun done =>
         match done, hd true sel with
         | Some e, false => drain_done buf e
         | _, _ =>
             modify chan_pop ;;;
             match input_Encode X (msg_Time msg) (msg_Record msg) with
             | inr err => emit (EEncode err) ;;; ret (inl FLB_ERROR)
             | inl b => drain_loop X (tl sel) q (buf ++ b)
             end
         end) s.
Proof. reflexivity. Qed.

Lemma drain_loop_sending_cons X msg q sel k m buf s :
  drain_loop_sending X sel (msg :: q) (S k) m buf s
  = bind ctx_Done
      (fun done =>
         match done, hd true sel with
         | Some e, false => drain_done buf e
         | _, _ =>
             modify chan_pop ;;;
             match input_Encode X (msg_Time msg) (msg_Record msg) with
             | inr err => emit (EEncode err) ;;; ret (inl FLB_ERROR)
             | inl b => drain_loop_sending X (tl sel) q k m (buf ++ b)
             end
         end) s.
Proof. reflexivity. Qed.

(** A send that does not get its turn while the loop runs leaves the loop
    as it is without it. *)
Lemma drain_loop_sending_late X m q :
  forall sel k buf s,
    (length q < k)%nat ->
    drain_loop_sending X sel q k m buf s = drain_loop X sel q buf s.
Proof.
  induction q as [| msg q IH]; intros sel k buf s Hk;
    (destruct k as [| k]; [cbn in Hk; lia |]).
  - reflexivity.
  - rewrite drain_loop_sending_cons, drain_loop_cons.
    apply bind_cong. intros done s1.
    assert (E : forall s0,
               (modify chan_pop ;;;
                match input_Encode X (msg_Time msg) (msg_Record msg) with
                | inr err => emit (EEncode err) ;;; ret (inl FLB_ERROR)
                | inl b => drain_loop_sending X (tl sel) q k m (buf ++ b)
                end) s0
               = (modify chan_pop ;;;
                  match input_Encode X (msg_Time msg) (msg_Record msg) with
                  | inr err => emit (EEncode err) ;;; ret (inl FLB_ERROR)
                  | inl b => drain_loop X (tl sel) q (buf ++ b)
                  end) s0).
    { intros s0. apply bind_cong. intros _ s2.
      destruct (input_Encode X (msg_Time msg) (msg_Record msg)) as [b | err];
        [apply IH; cbn in Hk; lia | reflexivity]. }
    destruct done as [e |]; [destruct (hd true sel); [| reflexivity] |]; apply E.
Qed.

(** A pass in which the send does not get its turn, the context live. *)
Lemma drain_loop_sending_wait X msg q sel k m buf s :
  runCtx s = Some None ->
  drain_loop_sending X sel (msg :: q) (S k) m buf s
  = match input_Encode X (msg_Time msg) (msg_Record msg) with
    | inr err => (Ret (inl FLB_ERROR),
                  set_trace (trace (chan_pop s) ++ [EEncode err]) (chan_pop s))
    | inl b => drain_loop_sending X (tl sel) q k m (buf ++ b) (chan_pop s)
    end.
Proof.
  intros H. cbn [drain_loop_sending Nat.eqb pred].
  unfold bind at 1, ret. cbn iota.
  rewrite (bind_Ret _ _ _ _ _ (ctx_Done_live s H)).
  unfold bind at 1, modify.
  now destruct (input_Encode X (msg_Time msg) (msg_Record msg)).
Qed.

(** A pass in which the send gets its turn and finds the channel full. *)
Lemma drain_loop_sending_full X msg q sel m buf s cap :
  runCtx s = Some None ->
  theChannel s = Some (mkChan (msg :: q) cap false) ->
  cap <= Z.of_nat (length (msg :: q)) ->
  drain_loop_sending X sel (msg :: q) 0 m buf s
  = match input_Encode X (msg_Time msg) (msg_Record msg) with
    | inr err => (Ret (inl FLB_ERROR),
                  set_trace (trace (chan_pop s) ++ [EEncode err]) (chan_pop s))
    | inl b => drain_loop_sending X (tl sel) q 0 m (buf ++ b) (chan_pop s)
    end.
Proof.
  intros H Hch Hr. cbn [drain_loop_sending Nat.eqb pred].
  rewrite (bind_Ret _ _ _ _ _ (chan_try_send_full m s _ cap Hch Hr)).
  rewrite (bind_Ret _ _ _ _ _ (ctx_Done_live s H)).
  unfold bind at 1, modify.
  now destruct (input_Encode X (msg_Time msg) (msg_Record msg)).
Qed.

(** The pass in which the send completes. *)
Lemma drain_loop_sending_lands X q sel m buf s cap :
  theChannel s = Some (mkChan q cap false) -> Z.of_nat (length q) < cap ->
  drain_loop_sending X sel q 0 m buf s
  = drain_loop X sel (q ++ [m]) buf
      (set_theChannel (Some (mkChan (q ++ [m]) cap false)) s).
Proof.
  intros Hch Hr. destruct q; cbn [drain_loop_sending Nat.eqb];
    now rewrite (bind_Ret _ _ _ _ _ (chan_try_send_room m s _ cap Hch Hr)).
Qed.

(** The passes before the send gets its turn. *)
Lemma drain_loop_sending_prefix X m q1 encs :
  Forall2 (encodes X) q1 encs ->
  forall q2 sel k buf s cap closed,
    runCtx s = Some None ->
    theChannel s = Some (mkChan (q1 ++ q2) cap closed) ->
    exists sel',
      drain_loop_sending X sel (q1 ++ q2) (length q1 + k) m buf s
      = drain_loop_sending X sel' q2 k m (buf ++ concat encs)
          (set_theChannel (Some (mkChan q2 cap closed)) s).
Proof.
  induction 1 as [| msg b q1 encs Hm Hf IH]; intros q2 sel k buf s cap closed Hc Hch.
  - exists sel. cbn [app length concat Nat.add]. rewrite app_nil_r. f_equal.
    destruct s; simpl in *. now rewrite Hch.
  - cbn [app length Nat.add]. rewrite drain_loop_sending_wait by exact Hc.
    unfold encodes in Hm. rewrite Hm.
    rewrite (chan_pop_cons s msg (q1 ++ q2) cap closed Hch).
    destruct (IH q2 (tl sel) k (buf ++ b)
                (set_theChannel (Some (mkChan (q1 ++ q2) cap closed)) s)
                cap closed Hc eq_refl) as [sel' E].
    exists sel'. rewrite E. cbn [concat]. now rewrite <- app_assoc.
Qed.

(** The loop once the send has completed: the message is the last one
    received. *)
Lemma drain_loop_joined X sel q es m enc buf s cap :
  runCtx s = Some None ->
  theChannel s = Some (mkChan (q ++ [m]) cap false) ->
  Forall2 (encodes X) q es -> encodes X m enc ->
  drain_loop X sel (q ++ [m]) buf s
  = (Ret (inr (buf ++ concat es ++ enc, false)),
     set_theChannel (Some (mkChan [] cap false)) s).
Proof.
  intros Hc Hch Hq Hm.
  assert (Hqm : Forall2 (encodes X) (q ++ [m]) (es ++ [enc])).
  { apply Forall2_app; [exact Hq | constructor; [exact Hm | constructor]]. }
  destruct (drain_loop_prefix X (q ++ [m]) (es ++ [enc]) Hqm [] sel buf s
              cap false Hc) as [sel1 E].
  { now rewrite app_nil_r. }
  rewrite app_nil_r in E. rewrite E.
  rewrite drain_loop_end with (cap := cap) by first [exact Hc | reflexivity].
  rewrite concat_app. cbn [concat]. now rewrite app_nil_r.
Qed.

Lemma drain_loop_sending_split X sel q1 q2 e1 e2 m enc s cap :
  runCtx s = Some None ->
  theChannel s = Some (mkChan (q1 ++ q2) cap false) ->
  Z.of_nat (length (q1 ++ q2)) <= cap -> q1 ++ q2 <> [] ->
  Forall2 (encodes X) q1 e1 -> Forall2 (encodes X) q2 e2 -> encodes X m enc ->
  drain_loop_sending X sel (q1 ++ q2) (length q1) m [] s
  = (Ret (inr (concat e1 ++ concat e2 ++ enc, false)),
     set_theChannel (Some (mkChan [] cap false)) s).
Proof.
  intros Hc Hch Hcap Hne Hf1 Hf2 Hm.
  destruct (drain_loop_sending_prefix X m q1 e1 Hf1 q2 sel 0%nat [] s cap false
              Hc Hch) as [sel' E].
  rewrite Nat.add_0_r in E. rewrite E. clear E. cbn [app].
  destruct (Z_lt_le_dec (Z.of_nat (length q2)) cap) as [Hroom | Hfull].
  - rewrite drain_loop_sending_lands with (cap := cap)
      by first [reflexivity | exact Hroom].
    rewrite drain_loop_joined with (es := e2) (enc := enc) (cap := cap)
      by first [exact Hc | reflexivity | exact Hf2 | exact Hm].
    reflexivity.
  - (* the channel is full: no message is in front of the pass *)
    rewrite length_app in Hcap.
    destruct q1 as [| x q1]; [| cbn [length] in Hcap; lia].
    inversion Hf1; subst. cbn [app concat] in *.
    destruct q2 as [| msg q2]; [congruence |].
    inversion Hf2 as [| ? b ? es' Hmsg Hf']; subst.
    rewrite drain_loop_sending_full with (cap := cap)
      by first [exact Hc | reflexivity | exact Hfull].
    unfold encodes in Hmsg. rewrite Hmsg.
    rewrite chan_pop_cons with (m := msg) (q := q2) (cap := cap) (closed := false)
      by reflexivity.
    rewrite drain_loop_sending_lands with (cap := cap)
      by first [reflexivity | cbn [length] in Hcap; lia].
    rewrite drain_loop_joined with (es := es') (enc := enc) (cap := cap)
      by first [exact Hc | reflexivity | exact Hf' | exact Hm].
    cbn [concat app]. f_equal. f_equal. now rewrite <- app_assoc.
Qed.

(** The whole loop when the send gets its turn while the loop runs: the
    message joins the batch, behind the buffered ones. *)
Lemma drain_loop_sending_joins X sel ms encs m enc k s cap :
  runCtx s = Some None ->
  theChannel s = Some (mkChan ms cap false) ->
  Z.of_nat (length ms) <= cap -> ms <> [] -> (k <= length ms)%nat ->
  Forall2 (encodes X) ms encs -> encodes X m enc ->
  drain_loop_sending X sel ms k m [] s
  = (Ret (inr (concat encs ++ enc, false)),
     set_theChannel (Some (mkChan [] cap false)) s).
Proof.
  intros Hc Hch Hcap Hne Hk Hf Hm.
  pose proof (firstn_skipn k ms) as Hsplit.
  pose proof (firstn_length_le ms Hk) as Hlen.
  pose proof (Forall2_take _ _ _ k Hf) as Hf1.
  pose proof (Forall2_drop _ _ _ k Hf) as Hf2.
  rewrite <- Hsplit in Hch, Hcap, Hne.
  pose proof (drain_loop_sending_split X sel _ _ _ _ m enc s cap
                Hc Hch Hcap Hne Hf1 Hf2 Hm) as E.
  rewrite Hlen, Hsplit in E. rewrite E.
  rewrite app_assoc, <- concat_app. now rewrite firstn_skipn.
Qed.

Lemma FLBPluginInputCallback_sending_polling X sel k m s c q cap closed :
  polling s c (mkChan q cap closed) ->
  FLBPluginInputCallback_sending X sel k m s
  = bind (if (0 <? length q)%nat then drain_loop_sending X sel q k m []
          else ret (inr ([], false)))
      (fun r =>
         match r with
         | inl st => ret (st, None)
         | inr (buf, gc) =>
             mutex_Unlock ;;;
             (if gc then emit EGC else ret tt) ;;;
             if (0 <? length buf)%nat then ret (FLB_OK, Some buf)
             else ret (FLB_OK, None)
         end) (set_buflock true s).
Proof.
  intros (Hw & Hi & Ho & Hl & Hc & Hch). unfold FLBPluginInputCallback_sending.
  rewrite (bind_Ret _ _ _ _ _ (wg_Wait_open initWG s Hw)).
  unfold bind at 1, get. rewrite (is_nil_false _ Hi).
  rewrite (bind_Ret _ _ _ _ _ (once_Do_done _ s Ho)).
  unfold drain_sending. rewrite (bind_Ret _ _ _ _ _ (mutex_Lock_free s Hl)).
  unfold bind at 1, get. cbn [theChannel set_buflock]. now rewrite Hch.
Qed.

(** A send that does not get its turn while the loop runs, or finds the
    loop not entered, leaves the call as it is without it. *)
Lemma FLBPluginInputCallback_sending_late X sel k m s c q cap closed :
  polling s c (mkChan q cap closed) ->
  (length q < k)%nat \/ q = [] ->
  FLBPluginInputCallback_sending X sel k m s = FLBPluginInputCallback X sel s.
Proof.
  intros Hp Hk.
  rewrite (FLBPluginInputCallback_sending_polling X sel k m s _ _ _ _ Hp).
  rewrite (FLBPluginInputCallback_polling X sel s _ _ _ _ Hp).
  destruct Hk as [Hk | ->]; [| reflexivity].
  destruct (0 <? length q)%nat; [| reflexivity].
  unfold bind. now rewrite drain_loop_sending_late.
Qed.

(** A poll call during which the send in flight completes. *)
Lemma poll_batch_sending X sel s ms encs cap m enc k :
  polling s None (mkChan ms cap false) ->
  Z.of_nat (length ms) <= cap -> ms <> [] -> (k <= length ms)%nat ->
  Forall2 (encodes X) ms encs -> encodes X m enc ->
  exists s',
    FLBPluginInputCallback_sending X sel k m s
    = (Ret (FLB_OK, stored (concat encs ++ enc)), s')
    /\ polling s' None (mkChan [] cap false) /\ trace s' = trace s.
Proof.
  intros Hp Hcap Hne Hk Hf Hm.
  rewrite (FLBPluginInputCallback_sending_polling X sel k m s _ _ _ _ Hp).
  destruct Hp as (Hw & Hi & Ho & Hl & Hc & Hch).
  rewrite nonempty_ltb by exact Hne. unfold bind at 1.
  rewrite drain_loop_sending_joins with (encs := encs) (enc := enc) (cap := cap)
    by first [exact Hc | exact Hch | exact Hcap | exact Hne | exact Hk
             | exact Hf | exact Hm].
  unfold bind at 1, mutex_Unlock, bind at 1, gets.
  cbn [buflock set_theChannel set_buflock]. unfold stored.
  destruct (0 <? length (concat encs ++ enc))%nat; eexists;
    (split; [reflexivity |]); now repeat split.
Qed.

(** [poll_batch], with the capacity of the channel. *)
Lemma poll_batch_polling X sel s ms encs cap :
  polling s None (mkChan ms cap false) -> Forall2 (encodes X) ms encs ->
  exists s',
    FLBPluginInputCallback X sel s = (Ret (FLB_OK, stored (concat encs)), s')
    /\ polling s' None (mkChan [] cap false) /\ trace s' = trace s.
Proof.
  intros (Hw & Hi & Ho & Hl & Hc & Hch) Hf.
  assert (Hd : draining s ms) by (repeat split; try assumption; now exists cap).
  rewrite (FLBPluginInputCallback_draining X sel s ms Hd). unfold stored.
  destruct ms as [| m ms].
  - inversion Hf; subst. cbn [length Nat.ltb Nat.leb concat].
    eexists. split; [reflexivity |]. now repeat split.
  - replace (0 <? length (m :: ms))%nat with true by reflexivity.
    destruct (drain_loop_prefix X (m :: ms) encs Hf [] sel [] (set_buflock true s)
                cap false Hc) as [sel' E].
    { rewrite app_nil_r. exact Hch. }
    rewrite app_nil_r in E. unfold bind at 1. rewrite E.
    rewrite (drain_loop_end X sel' _
               (set_theChannel (Some (mkChan [] cap false)) (set_buflock true s))
               cap Hc eq_refl).
    cbn [app]. unfold bind at 1, mutex_Unlock, bind at 1, gets.
    cbn [buflock set_theChannel set_buflock].
    destruct (0 <? length (concat encs))%nat; eexists; (split; [reflexivity |]);
      now repeat split.
Qed.

(** X2. A poll call that finds the context live, the channel open and
    within its capacity, and whose messages all encode, returns [FLB_OK]
    and hands the host one batch, oldest message first: the encodings of
    the buffered messages when no send of the redistributor completes
    while the drain loop runs, and those followed by the encoding of the
    message in flight when the redistributor, which sends outside the lock,
    completes its send while the loop runs. Either way the call leaves the
    channel empty, releases the lock and writes nothing. A send that does
    not get its turn before the loop ends changes nothing in the call. *)
Theorem poll_delivers_batch X sel s ms encs cap m enc k :
  polling s None (mkChan ms cap false) ->
  Z.of_nat (length ms) <= cap ->
  Forall2 (encodes X) ms encs -> encodes X m enc ->
  (exists s',
     FLBPluginInputCallback X sel s = (Ret (FLB_OK, stored (concat encs)), s')
     /\ polling s' None (mkChan [] cap false) /\ trace s' = trace s)
  /\ (ms <> [] -> (k <= length ms)%nat ->
      exists s',
        FLBPluginInputCallback_sending X sel k m s
        = (Ret (FLB_OK, stored (concat encs ++ enc)), s')
        /\ polling s' None (mkChan [] cap false) /\ trace s' = trace s)
  /\ ((length ms < k)%nat \/ ms = [] ->
      FLBPluginInputCallback_sending X sel k m s
      = FLBPluginInputCallback X sel s).
Proof.
  intros Hp Hcap Hf Hm. split; [| split].
  - exact (poll_batch_polling X sel s ms encs cap Hp Hf).
  - intros Hne Hk.
    exact (poll_batch_sending X sel s ms encs cap m enc k Hp Hcap Hne Hk Hf Hm).
  - intros Hk.
    exact (FLBPluginInputCallback_sending_late X sel k m s _ _ _ _ Hp Hk).
Qed.

Lemma poll_delivers_batch_witness :
  (exists s',
     FLBPluginInputCallback sample [] (collected [msg1] input_running)
     = (Ret (FLB_OK, stored (concat [enc1])), s')
     /\ polling s' None (mkChan [] 300000 false)
     /\ trace s' = trace (collected [msg1] input_running))
  /\ ([msg1] <> [] -> (1 <= length [msg1])%nat ->
      exists s',
        FLBPluginInputCallback_sending sample [] 1 msg2
          (collected [msg1] input_running)
        = (Ret (FLB_OK, stored (concat [enc1] ++ enc2)), s')
        /\ polling s' None (mkChan [] 300000 false)
        /\ trace s' = trace (collected [msg1] input_running))
  /\ ((length [msg1] < 1)%nat \/ [msg1] = [] ->
      FLBPluginInputCallback_sending sample [] 1 msg2
        (collected [msg1] input_running)
      = FLBPluginInputCallback sample [] (collected [msg1] input_running)).
Proof.
  apply (poll_delivers_batch sample [] (collected [msg1] input_running)
           [msg1] [enc1] 300000 msg2 enc2 1%nat).
  - repeat split; try (vm_compute; discriminate).
  - cbn. lia.
  - repeat constructor.
  - vm_compute. reflexivity.
Defined.

(** X3. A poll call that finds the context live and whose buffered
    messages encode up to one that does not returns [FLB_ERROR] with the
    lock still held: the messages up to and including the failing one are
    gone from the channel and reach nobody, and every later poll call
    blocks on the lock. *)
Theorem poll_blocks_after_encode_failure X sel s q1 m q2 encs err :
  draining s (q1 ++ m :: q2) -> Forall2 (encodes X) q1 encs ->
  input_Encode X (msg_Time m) (msg_Record m) = inr err ->
  exists s',
    FLBPluginInputCallback X sel s = (Ret (FLB_ERROR, None), s')
    /\ (exists cap, theChannel s' = Some (mkChan q2 cap false))
    /\ buflock s' = true
    /\ forall sel', FLBPluginInputCallback X sel' s' = (Block, s').
Proof.
  intros Hd Hf He.
  rewrite (FLBPluginInputCallback_draining X sel s _ Hd).
  destruct Hd as (Hw & Hi & Ho & Hl & Hc & cap & Hch).
  rewrite nonempty_ltb by (now destruct q1).
  destruct (drain_loop_prefix X q1 encs Hf (m :: q2) sel [] (set_buflock true s)
              cap false Hc Hch) as [sel1 E].
  unfold bind at 1. rewrite E.
  rewrite drain_loop_live by exact Hc. rewrite He.
  eexists. split; [reflexivity |].
  match goal with |- context [buflock ?st] => set (s' := st) end.
  split; [now exists cap |]. split; [reflexivity |].
  intros sel'.
  rewrite (FLBPluginInputCallback_accepted X sel' s' Hw Hi).
  rewrite (bind_Ret _ _ _ _ _ (once_Do_done start_input s' Ho)).
  unfold drain. now rewrite (bind_Block _ _ _ _ (mutex_Lock_held s' eq_refl)).
Qed.

Lemma poll_blocks_after_encode_failure_witness :
  exists s',
    FLBPluginInputCallback sample []
      (collected [msg1; msg_poison; msg2] input_running)
    = (Ret (FLB_ERROR, None), s')
    /\ (exists cap, theChannel s' = Some (mkChan [msg2] cap false))
    /\ buflock s' = true
    /\ forall sel', FLBPluginInputCallback sample sel' s' = (Block, s').
Proof.
  apply (poll_blocks_after_encode_failure sample []
           (collected [msg1; msg_poison; msg2] input_running)
           [msg1] msg_poison [msg2] [enc1] "cannot encode").
  - repeat split; try (vm_compute; discriminate); try reflexivity.
    eexists. reflexivity.
  - repeat constructor; vm_compute; reflexivity.
  - vm_compute. reflexivity.
Defined.

(** X4. Once cancellation has been signalled, a poll call in which the
    select takes the [Done] arm after [length q1] messages returns
    [FLB_OK] with the batch of those messages, forces a garbage collection
    and gives the lock back; the messages behind them stay in the channel. *)
Theorem poll_cancelled_stops_early X sel s q1 q2 cap closed encs :
  polling s (Some Canceled) (mkChan (q1 ++ q2) cap closed) ->
  q1 ++ q2 <> [] ->
  Forall2 (encodes X) q1 encs ->
  exists s',
    FLBPluginInputCallback X (repeat true (length q1) ++ false :: sel) s
    = (Ret (FLB_OK, stored (concat encs)), s')
    /\ theChannel s' = Some (mkChan q2 cap closed)
    /\ emitted s s' [EGC]
    /\ buflock s' = false.
Proof.
  intros Hp Hne Hf. rewrite (FLBPluginInputCallback_polling X _ s _ _ _ _ Hp).
  destruct Hp as (Hw & Hi & Ho & Hl & Hc & Hch).
  rewrite nonempty_ltb by exact Hne.
  unfold bind at 1.
  rewrite (drain_loop_taking X q1 encs Hf q2 (false :: sel) [] (set_buflock true s)
             cap closed (Some Canceled) Hc Hch).
  assert (E : forall buf s0,
             runCtx s0 = Some (Some Canceled) ->
             drain_loop X (false :: sel) q2 buf s0 = (Ret (inr (buf, true)), s0)).
  { intros buf s0 H0. destruct q2 as [| m q2]; cbn [drain_loop];
      unfold bind at 1, get;
      rewrite (bind_Ret _ _ _ _ _ (ctx_Done_some s0 _ H0)); cbn [hd];
      [destruct (match theChannel s0 with
                 | Some ch => ch_closed ch
                 | None => false
                 end) |]; reflexivity. }
  rewrite E by exact Hc.
  cbn [app]. unfold bind at 1, mutex_Unlock, bind at 1, gets.
  cbn [buflock set_theChannel set_buflock]. unfold stored, emitted.
  destruct (0 <? length (concat encs))%nat; eexists; (split; [reflexivity |]);
    cbn; repeat split; reflexivity.
Qed.

Lemma poll_cancelled_stops_early_witness :
  exists s',
    FLBPluginInputCallback sample (repeat true (length [msg1]) ++ false :: [])
      input_exited
    = (Ret (FLB_OK, stored (concat [enc1])), s')
    /\ theChannel s' = Some (mkChan [msg2] 300000 true)
    /\ emitted input_exited s' [EGC]
    /\ buflock s' = false.
Proof.
  apply (poll_cancelled_stops_early sample [] input_exited [msg1] [msg2]
           300000 true [enc1]).
  - repeat split; try (vm_compute; discriminate); reflexivity.
  - discriminate.
  - repeat constructor; vm_compute; reflexivity.
Defined.

(** X5. A poll call that finds the channel closed ([FLBPluginExit] has
    run) and takes the receive arm until the channel is empty returns
    [FLB_ERROR] with the lock still held: the messages it has encoded on
    the way are dropped with the batch. *)
Theorem poll_closed_channel_errors X sel s q cap c encs :
  polling s c (mkChan q cap true) ->
  q <> [] ->
  Forall2 (encodes X) q encs ->
  exists s',
    FLBPluginInputCallback X (repeat true (S (length q)) ++ sel) s
    = (Ret (FLB_ERROR, None), s')
    /\ theChannel s' = Some (mkChan [] cap true)
    /\ buflock s' = true
    /\ trace s' = trace s.
Proof.
  intros Hp Hne Hf. rewrite (FLBPluginInputCallback_polling X _ s _ _ _ _ Hp).
  destruct Hp as (Hw & Hi & Ho & Hl & Hc & Hch).
  rewrite nonempty_ltb by exact Hne.
  unfold bind at 1. rewrite repeat_snoc_app.
  pose proof (drain_loop_taking X q encs Hf [] (true :: sel) [] (set_buflock true s)
                cap true c Hc) as E.
  rewrite app_nil_r in E. rewrite (E Hch). clear E.
  set (s0 := set_theChannel (Some (mkChan [] cap true)) (set_buflock true s)).
  cbn [drain_loop]. unfold bind at 1, get.
  rewrite (bind_Ret _ _ _ _ _ (ctx_Done_some s0 c Hc)).
  cbn [theChannel set_theChannel s0 ch_closed hd].
  destruct c; (eexists; split; [reflexivity |]); cbn; repeat split; reflexivity.
Qed.

Lemma poll_closed_channel_errors_witness :
  exists s',
    FLBPluginInputCallback sample (repeat true (S (length [msg1; msg2])) ++ [])
      input_exited
    = (Ret (FLB_ERROR, None), s')
    /\ theChannel s' = Some (mkChan [] 300000 true)
    /\ buflock s' = true
    /\ trace s' = trace input_exited.
Proof.
  apply (poll_closed_channel_errors sample [] input_exited [msg1; msg2]
           300000 (Some Canceled) [enc1; enc2]).
  - repeat split; try (vm_compute; discriminate); reflexivity.
  - discriminate.
  - repeat constructor; vm_compute; reflexivity.
Defined.

(** ** Cancellation and exit *)

(** X6. Once cancellation has been signalled, a flush call returns
    [FLB_OK] without looking at the blob: it hands nothing to the user's
    [Flush], writes nothing and changes nothing. *)
Theorem flush_cancelled_returns_OK X early data ctag s :
  initWG s <= 0 -> theOutput s <> None -> once s = true ->
  runCtx s = Some (Some Canceled) ->
  FLBPluginFlush X early data ctag s = (Ret FLB_OK, s).
Proof.
  intros Hw Hr Ho Hc. rewrite FLBPluginFlush_accepted by assumption.
  rewrite (bind_Ret _ _ _ _ _ (once_Do_done _ s Ho)).
  unfold flush_after.
  now rewrite (bind_Ret _ _ _ _ _ (ctx_Done_some s _ Hc)).
Qed.

Lemma flush_cancelled_returns_OK_witness :
  FLBPluginFlush sample None blob_bad_second "mytag"
    (snd (FLBPluginExit output_running))
  = (Ret FLB_OK, snd (FLBPluginExit output_running)).
Proof.
  apply (flush_cancelled_returns_OK sample None blob_bad_second "mytag"
           (snd (FLBPluginExit output_running))).
  - vm_compute. discriminate.
  - vm_compute. discriminate.
  - reflexivity.
  - reflexivity.
Defined.

(** [FLBPluginExit] on a state whose primary channel is open. *)
Lemma FLBPluginExit_open s ch :
  theChannel s = Some ch -> ch_closed ch = false ->
  exists s1,
    FLBPluginExit s = (Ret FLB_OK, s1)
    /\ theChannel s1 = Some (mkChan (ch_buf ch) (ch_cap ch) true)
    /\ runCtx s1 = cancel_ctx (runCtx s)
    /\ trace s1 = trace s ++ exit_events s
    /\ initWG s1 = initWG s /\ theInput s1 = theInput s
    /\ theOutput s1 = theOutput s /\ once s1 = once s
    /\ buflock s1 = buflock s /\ flushed s1 = flushed s
    /\ unregister s1 = unregister s /\ theName s1 = theName s
    /\ spawned s1 = spawned s /\ worker s1 = worker s.
Proof.
  intros Hch Hcl. unfold FLBPluginExit, bind at 1, get, defer.
  rewrite Hch. cbn [is_nil]. unfold exit_events.
  destruct (unregister s) as [[r def] |] eqn:Hu; cbn; rewrite Hch; cbn;
    rewrite Hcl; (eexists; split; [reflexivity |]); cbn; rewrite <- ?app_assoc;
    repeat split; first [reflexivity | exact Hu].
Qed.

(** [FLBPluginExit] on a state whose primary channel is closed. *)
Lemma FLBPluginExit_closed s ch :
  theChannel s = Some ch -> ch_closed ch = true ->
  exists s1,
    FLBPluginExit s = (Panic "close of closed channel", s1)
    /\ trace s1 = trace s ++ exit_events s.
Proof.
  intros Hch Hcl. unfold FLBPluginExit, bind at 1, get, defer.
  rewrite Hch. cbn [is_nil]. unfold exit_events.
  destruct (unregister s) as [[r def] |] eqn:Hu; cbn; rewrite Hch; cbn;
    rewrite Hcl; (eexists; split; [reflexivity |]); cbn; rewrite <- ?app_assoc;
    reflexivity.
Qed.

(** X7. After [FLBPluginExit] on a running output plugin, every flush
    call returns [FLB_OK] and hands nothing to the user's [Flush], whatever
    the blob. *)
Theorem exit_then_flush X early data ctag s ch :
  initWG s <= 0 -> theOutput s <> None -> once s = true ->
  runCtx s = Some None -> theChannel s = Some ch -> ch_closed ch = false ->
  exists s1,
    FLBPluginExit s = (Ret FLB_OK, s1)
    /\ FLBPluginFlush X early data ctag s1 = (Ret FLB_OK, s1)
    /\ flushed s1 = flushed s.
Proof.
  intros Hw Hr Ho Hc Hch Hcl.
  destruct (FLBPluginExit_open s ch Hch Hcl)
    as (s1 & E & _ & Hc1 & _ & Hw1 & _ & Hr1 & Ho1 & _ & Hf1 & _).
  exists s1. split; [exact E |]. split; [| exact Hf1].
  rewrite FLBPluginFlush_accepted by congruence.
  rewrite (bind_Ret _ _ _ _ _ (once_Do_done _ s1 ltac:(congruence))).
  unfold flush_after.
  rewrite (bind_Ret _ _ _ _ _ (ctx_Done_some s1 (Some Canceled)
                                 ltac:(rewrite Hc1, Hc; reflexivity))).
  reflexivity.
Qed.

Lemma exit_then_flush_witness :
  exists s1,
    FLBPluginExit output_running = (Ret FLB_OK, s1)
    /\ FLBPluginFlush sample None blob_two "mytag" s1 = (Ret FLB_OK, s1)
    /\ flushed s1 = flushed output_running.
Proof.
  apply (exit_then_flush sample None blob_two "mytag" output_running
           (mkChan [] 0 false)).
  - vm_compute. discriminate.
  - vm_compute. discriminate.
  - reflexivity.
  - reflexivity.
  - reflexivity.
  - reflexivity.
Defined.

(** X8. [FLBPluginExit] on a started plugin returns [FLB_OK], cancels
    the run context, closes the primary channel and, if
    [FLBPluginRegister] has stored one, calls the unregister function; a
    second [FLBPluginExit] calls the unregister function again and then
    panics on closing the closed channel. *)
Theorem exit_twice_panics s ch :
  theChannel s = Some ch -> ch_closed ch = false ->
  exists s1 s2,
    FLBPluginExit s = (Ret FLB_OK, s1)
    /\ runCtx s1 = cancel_ctx (runCtx s)
    /\ theChannel s1 = Some (mkChan (ch_buf ch) (ch_cap ch) true)
    /\ trace s1 = trace s ++ exit_events s
    /\ FLBPluginExit s1 = (Panic "close of closed channel", s2)
    /\ trace s2 = trace s ++ exit_events s ++ exit_events s.
Proof.
  intros Hch Hcl.
  destruct (FLBPluginExit_open s ch Hch Hcl)
    as (s1 & E & Hch1 & Hc1 & Ht1 & _ & _ & _ & _ & _ & _ & Hu1 & Hn1 & _).
  destruct (FLBPluginExit_closed s1 _ Hch1 eq_refl) as (s2 & E2 & Ht2).
  exists s1, s2. repeat split; try assumption.
  rewrite Ht2, Ht1, <- app_assoc. unfold exit_events. now rewrite Hu1, Hn1.
Qed.

Lemma exit_twice_panics_witness :
  exists s1 s2,
    FLBPluginExit input_running = (Ret FLB_OK, s1)
    /\ runCtx s1 = cancel_ctx (runCtx input_running)
    /\ theChannel s1 = Some (mkChan [] 300000 true)
    /\ trace s1 = trace input_running ++ exit_events input_running
    /\ FLBPluginExit s1 = (Panic "close of closed channel", s2)
    /\ trace s2 = trace input_running ++ exit_events input_running
                  ++ exit_events input_running.
Proof.
  apply (exit_twice_panics input_running (mkChan [] 300000 false)).
  - reflexivity.
  - reflexivity.
Defined.

(** A deferred call that returns leaves the result of the body. *)
Lemma defer_Ret {A} (d : M unit) (body : M A) s a s1 s2 :
  body s = (Ret a, s1) -> d s1 = (Ret tt, s2) -> defer d body s = (Ret a, s2).
Proof. intros E1 E2. unfold defer. now rewrite E1, E2. Qed.

(** A deferred call that panics after the body has returned. *)
Lemma defer_Panic {A} (d : M unit) (body : M A) s a s1 msg s2 :
  body s = (Ret a, s1) -> d s1 = (Panic msg, s2) ->
  defer d body s = (Panic msg, s2).
Proof. intros E1 E2. unfold defer. now rewrite E1, E2. Qed.

(** [FLBPluginExit] before the pipeline has started. *)
Lemma FLBPluginExit_unstarted s :
  theChannel s = None ->
  exists s1,
    FLBPluginExit s = (Ret FLB_OK, s1)
    /\ theChannel s1 = None
    /\ runCtx s1 = cancel_ctx (runCtx s)
    /\ trace s1 = trace s ++ exit_events s
    /\ initWG s1 = initWG s /\ theInput s1 = theInput s
    /\ theOutput s1 = theOutput s /\ once s1 = once s
    /\ buflock s1 = buflock s /\ spawned s1 = spawned s
    /\ starts s1 = starts s.
Proof.
  intros Hch. unfold FLBPluginExit, bind at 1, get, defer.
  rewrite Hch. cbn [is_nil]. unfold exit_events.
  destruct (unregister s) as [[r def] |] eqn:Hu; cbn;
    (eexists; split; [reflexivity |]); cbn; rewrite <- ?app_assoc;
    repeat split; first [reflexivity | exact Hch].
Qed.

(** X9. [FLBPluginExit] before the first poll call cancels nothing and
    closes nothing, as there is no run context and no channel yet: the next
    poll call starts the workers all the same, with a context that nothing
    has cancelled. *)
Theorem exit_before_start_then_poll X sel s :
  initWG s <= 0 -> theInput s <> None -> buflock s = false -> once s = false ->
  theChannel s = None -> runCtx s = None ->
  exists s1 s2,
    FLBPluginExit s = (Ret FLB_OK, s1)
    /\ runCtx s1 = None /\ theChannel s1 = None
    /\ FLBPluginInputCallback X sel s1 = (Ret (FLB_OK, None), s2)
    /\ runCtx s2 = Some None
    /\ spawned s2 = spawned s ++ [GCollect; GRedistribute].
Proof.
  intros Hw Hi Hl Ho Hch Hc.
  destruct (FLBPluginExit_unstarted s Hch)
    as (s1 & E & Hch1 & Hc1 & _ & Hw1 & Hi1 & _ & Ho1 & Hl1 & Hsp1 & _).
  destruct (poll_first X sel s1) as (s2 & E2 & _ & _ & _ & _ & Hc2 & Hsp2 & _);
    try congruence.
  exists s1, s2. repeat split; try assumption.
  - now rewrite Hc1, Hc.
  - now rewrite Hsp2, Hsp1.
Qed.

Lemma exit_before_start_then_poll_witness :
  exists s1 s2,
    FLBPluginExit input_ready = (Ret FLB_OK, s1)
    /\ runCtx s1 = None /\ theChannel s1 = None
    /\ FLBPluginInputCallback sample [] s1 = (Ret (FLB_OK, None), s2)
    /\ runCtx s2 = Some None
    /\ spawned s2 = spawned input_ready ++ [GCollect; GRedistribute].
Proof.
  apply (exit_before_start_then_poll sample [] input_ready).
  - vm_compute. discriminate.
  - vm_compute. discriminate.
  - reflexivity.
  - reflexivity.
  - reflexivity.
  - reflexivity.
Defined.

(** ** Register and Init *)

Lemma FLBPluginRegister_returns X def s :
  0 < registerWG s ->
  exists s1,
    FLBPluginRegister X def s
    = (Ret match theInput s, theOutput s with
           | Some _, _ => input_FLBPluginRegister X def (theName s) (theDesc s)
           | None, Some _ => output_FLBPluginRegister X def (theName s) (theDesc s)
           | None, None => FLB_RETRY
           end, s1)
    /\ registerWG s1 = registerWG s - 1 /\ initWG s1 = initWG s
    /\ theInput s1 = theInput s /\ theOutput s1 = theOutput s
    /\ theName s1 = theName s /\ theChannel s1 = theChannel s
    /\ once s1 = once s /\ buflock s1 = buflock s
    /\ unregister s1 = match theInput s, theOutput s with
                       | Some _, _ => Some (Input, def)
                       | None, Some _ => Some (Output, def)
                       | None, None => unregister s
                       end
    /\ trace s1 = trace s ++ match theInput s, theOutput s with
                             | None, None => [ENoInputOrOutput]
                             | _, _ => []
                             end.
Proof.
  intros Hw. unfold FLBPluginRegister.
  destruct (theInput s) as [inp |] eqn:Hi, (theOutput s) as [out |] eqn:Ho;
    (eexists; split;
     [ eapply defer_Ret;
       [ unfold bind at 1, get; rewrite ?Hi, ?Ho; cbn; reflexivity
       | apply wg_Done_pos; cbn; lia ]
     | cbn; rewrite ?app_nil_r; repeat split;
       first [reflexivity | assumption] ]).
Qed.

Lemma FLBPluginInit_returns X ptr s :
  registerWG s <= 0 -> 0 < initWG s ->
  exists s1,
    FLBPluginInit X ptr s = (Ret (init_status X ptr s), s1)
    /\ initWG s1 = initWG s - 1 /\ registerWG s1 = registerWG s
    /\ theInput s1 = theInput s /\ theOutput s1 = theOutput s
    /\ once s1 = once s /\ buflock s1 = buflock s
    /\ theChannel s1 = theChannel s /\ runCtx s1 = runCtx s
    /\ spawned s1 = spawned s /\ starts s1 = starts s.
Proof.
  intros Hr Hw. unfold FLBPluginInit, init_status.
  assert (B : forall (k : M status) v s1,
             k s = (Ret v, s1) ->
             (wg_Wait registerWG ;;; k) s = (Ret v, s1)).
  { intros k v s1 E.
    now rewrite (bind_Ret _ _ _ _ _ (wg_Wait_open registerWG s Hr)). }
  destruct (theInput s) as [inp |] eqn:Hi; [| destruct (theOutput s) as [out |] eqn:Ho].
  - destruct (input_FLBPluginGetCMetricsContext X ptr) as [c [e |]] eqn:Hm;
      [| destruct (in_Init inp (flbInputConfigLoader_String X ptr)) eqn:Hu ];
      (eexists; split;
       [ eapply defer_Ret;
         [ apply B; unfold bind at 1, get; rewrite ?Hi, ?Hm; cbn;
           rewrite ?Hu; cbn; reflexivity
         | apply wg_Done_pos; cbn; lia ]
       | cbn; repeat split; first [reflexivity | assumption] ]).
  - destruct (output_FLBPluginGetCMetricsContext X ptr) as [c [e |]] eqn:Hm;
      [| destruct (out_Init out (flbOutputConfigLoader_String X ptr)) eqn:Hu ];
      (eexists; split;
       [ eapply defer_Ret;
         [ apply B; unfold bind at 1, get; rewrite ?Hi, ?Ho, ?Hm; cbn;
           rewrite ?Ho; cbn; rewrite ?Hu; cbn; reflexivity
         | apply wg_Done_pos; cbn; lia ]
       | cbn; repeat split; first [reflexivity | assumption] ]).
  - eexists; split;
      [ eapply defer_Ret;
        [ apply B; unfold bind at 1, get; rewrite ?Hi, ?Ho; cbn; reflexivity
        | apply wg_Done_pos; cbn; lia ]
      | cbn; repeat split; first [reflexivity | assumption] ].
Qed.

(** X10. [FLBPluginInit], called after [FLBPluginRegister] has returned,
    returns [FLB_OK] exactly when a plugin is registered, the host hands
    over its metrics context and the user's [Init], given the unquoting
    configuration loader, returns nil; [FLB_ERROR] when one of the two
    fails; [FLB_RETRY] with no plugin. Whatever it returns, it releases
    [initWG], on which the poll and flush calls wait, and starts nothing. *)
Theorem Init_status_and_release X ptr s :
  registerWG s <= 0 -> 0 < initWG s ->
  exists s1,
    FLBPluginInit X ptr s = (Ret (init_status X ptr s), s1)
    /\ initWG s1 = initWG s - 1
    /\ once s1 = once s /\ starts s1 = starts s /\ spawned s1 = spawned s.
Proof.
  intros Hr Hw.
  destruct (FLBPluginInit_returns X ptr s Hr Hw)
    as (s1 & E & H1 & _ & _ & _ & H2 & _ & _ & _ & H3 & H4).
  exists s1. repeat split; assumption.
Qed.

Lemma Init_status_and_release_witness :
  exists s1,
    FLBPluginInit sample 0%nat failing_registered
    = (Ret (init_status sample 0%nat failing_registered), s1)
    /\ initWG s1 = initWG failing_registered - 1
    /\ once s1 = once failing_registered
    /\ starts s1 = starts failing_registered
    /\ spawned s1 = spawned failing_registered.
Proof.
  apply (Init_status_and_release sample 0%nat failing_registered).
  - vm_compute. discriminate.
  - reflexivity.
Defined.

(** X11. When the user's [Init] of an input plugin fails,
    [FLBPluginInit] returns [FLB_ERROR], and yet the next poll call does
    not wait: it starts the workers of the plugin that failed to
    initialise and returns [FLB_OK]. *)
Theorem failed_Init_then_poll X ptr sel s inp e :
  registerWG s <= 0 -> 0 < initWG s <= 1 ->
  theInput s = Some inp ->
  in_Init inp (flbInputConfigLoader_String X ptr) = Some e ->
  once s = false -> buflock s = false ->
  exists s1 s2,
    FLBPluginInit X ptr s = (Ret FLB_ERROR, s1)
    /\ FLBPluginInputCallback X sel s1 = (Ret (FLB_OK, None), s2)
    /\ starts s2 = S (starts s)
    /\ spawned s2 = spawned s ++ [GCollect; GRedistribute].
Proof.
  intros Hr Hw Hi He Ho Hl.
  destruct (FLBPluginInit_returns X ptr s Hr ltac:(lia))
    as (s1 & E & Hw1 & _ & Hi1 & _ & Ho1 & Hl1 & _ & _ & Hsp1 & Hst1).
  assert (Hs : init_status X ptr s = FLB_ERROR).
  { unfold init_status. rewrite Hi, He.
    now destruct (snd (input_FLBPluginGetCMetricsContext X ptr)). }
  rewrite Hs in E.
  destruct (poll_first X sel s1) as (s2 & E2 & _ & _ & _ & _ & _ & Hsp2 & Hst2);
    try congruence; try lia.
  exists s1, s2. repeat split; try assumption; congruence.
Qed.

Lemma failed_Init_then_poll_witness :
  exists s1 s2,
    FLBPluginInit sample 0%nat failing_registered = (Ret FLB_ERROR, s1)
    /\ FLBPluginInputCallback sample [] s1 = (Ret (FLB_OK, None), s2)
    /\ starts s2 = S (starts failing_registered)
    /\ spawned s2 = spawned failing_registered ++ [GCollect; GRedistribute].
Proof.
  apply (failed_Init_then_poll sample 0%nat [] failing_registered failing_input
           "cannot start").
  - vm_compute. discriminate.
  - vm_compute. split; [reflexivity | discriminate].
  - reflexivity.
  - reflexivity.
  - reflexivity.
  - reflexivity.
Defined.

(** ** The order of the host's calls *)

Lemma wg_Done_neg rd wr s :
  rd s <= 0 -> wg_Done rd wr s = (Panic "sync: negative WaitGroup counter", s).
Proof.
  intros H. unfold wg_Done, bind, gets.
  destruct (Z.ltb_spec (rd s - 1) 0); [reflexivity | lia].
Qed.

Lemma FLBPluginRegister_again X def s :
  registerWG s <= 0 ->
  exists s1,
    FLBPluginRegister X def s = (Panic "sync: negative WaitGroup counter", s1).
Proof.
  intros Hw. unfold FLBPluginRegister.
  destruct (theInput s) as [inp |] eqn:Hi, (theOutput s) as [out |] eqn:Ho;
    eexists;
    (eapply defer_Panic;
     [ unfold bind at 1, get; rewrite ?Hi, ?Ho; cbn; reflexivity
     | apply wg_Done_neg; cbn; lia ]).
Qed.

Lemma FLBPluginInit_again X ptr s :
  registerWG s <= 0 -> initWG s <= 0 ->
  exists s1,
    FLBPluginInit X ptr s = (Panic "sync: negative WaitGroup counter", s1).
Proof.
  intros Hr Hw. unfold FLBPluginInit.
  assert (B : forall (k : M status) v s1,
             k s = (Ret v, s1) ->
             (wg_Wait registerWG ;;; k) s = (Ret v, s1)).
  { intros k v s1 E.
    now rewrite (bind_Ret _ _ _ _ _ (wg_Wait_open registerWG s Hr)). }
  destruct (theInput s) as [inp |] eqn:Hi; [| destruct (theOutput s) as [out |] eqn:Ho].
  - destruct (input_FLBPluginGetCMetricsContext X ptr) as [c [e |]] eqn:Hm;
      [| destruct (in_Init inp (flbInputConfigLoader_String X ptr)) eqn:Hu ];
      eexists;
      (eapply defer_Panic;
       [ apply B; unfold bind at 1, get; rewrite ?Hi, ?Hm; cbn;
         rewrite ?Hu; cbn; reflexivity
       | apply wg_Done_neg; cbn; lia ]).
  - destruct (output_FLBPluginGetCMetricsContext X ptr) as [c [e |]] eqn:Hm;
      [| destruct (out_Init out (flbOutputConfigLoader_String X ptr)) eqn:Hu ];
      eexists;
      (eapply defer_Panic;
       [ apply B; unfold bind at 1, get; rewrite ?Hi, ?Ho, ?Hm; cbn;
         rewrite ?Ho; cbn; rewrite ?Hu; cbn; reflexivity
       | apply wg_Done_neg; cbn; lia ]).
  - eexists.
    eapply defer_Panic;
      [ apply B; unfold bind at 1, get; rewrite ?Hi, ?Ho; cbn; reflexivity
      | apply wg_Done_neg; cbn; lia ].
Qed.

Lemma FLBPluginInit_waits X ptr s :
  0 < registerWG s -> FLBPluginInit X ptr s = (Block, s).
Proof.
  intros H. unfold FLBPluginInit, defer.
  now rewrite (bind_Block _ _ _ _ (wg_Wait_shut registerWG s H)).
Qed.

Lemma FLBPluginInputCallback_waits X sel s :
  0 < initWG s -> FLBPluginInputCallback X sel s = (Block, s).
Proof.
  intros H. unfold FLBPluginInputCallback.
  now rewrite (bind_Block _ _ _ _ (wg_Wait_shut initWG s H)).
Qed.

Lemma FLBPluginFlush_waits X early data ctag s :
  0 < initWG s -> FLBPluginFlush X early data ctag s = (Block, s).
Proof.
  intros H. unfold FLBPluginFlush.
  now rewrite (bind_Block _ _ _ _ (wg_Wait_shut initWG s H)).
Qed.

(** X12. The entry points wait for one another. Until
    [FLBPluginRegister] has returned, [FLBPluginInit] does not return and
    changes nothing; until [FLBPluginInit] has returned, neither the poll
    nor the flush call does, and [FLBPluginRegister] returning does not
    release them. *)
Theorem entry_points_wait X def ptr sel early data ctag s :
  0 < registerWG s -> 0 < initWG s ->
  FLBPluginInit X ptr s = (Block, s)
  /\ FLBPluginInputCallback X sel s = (Block, s)
  /\ FLBPluginFlush X early data ctag s = (Block, s)
  /\ exists st s1,
       FLBPluginRegister X def s = (Ret st, s1)
       /\ FLBPluginInputCallback X sel s1 = (Block, s1)
       /\ FLBPluginFlush X early data ctag s1 = (Block, s1).
Proof.
  intros Hr Hw.
  split; [now apply FLBPluginInit_waits |].
  split; [now apply FLBPluginInputCallback_waits |].
  split; [now apply FLBPluginFlush_waits |].
  destruct (FLBPluginRegister_returns X def s Hr) as (s1 & E & _ & Hw1 & _).
  eexists _, s1. split; [exact E |].
  split; [apply FLBPluginInputCallback_waits | apply FLBPluginFlush_waits];
    now rewrite Hw1.
Qed.

Lemma entry_points_wait_witness :
  FLBPluginInit sample 0%nat loaded = (Block, loaded)
  /\ FLBPluginInputCallback sample [] loaded = (Block, loaded)
  /\ FLBPluginFlush sample None blob_one "mytag" loaded = (Block, loaded)
  /\ exists st s1,
       FLBPluginRegister sample 0%nat loaded = (Ret st, s1)
       /\ FLBPluginInputCallback sample [] s1 = (Block, s1)
       /\ FLBPluginFlush sample None blob_one "mytag" s1 = (Block, s1).
Proof.
  apply (entry_points_wait sample 0%nat 0%nat [] None blob_one "mytag" loaded).
  - reflexivity.
  - reflexivity.
Defined.

(** X13. [FLBPluginRegister] and [FLBPluginInit] can each be called
    once: the deferred [Done()] of a second call finds the counter, which
    [init()] set to 1, at zero and panics. *)
Theorem second_host_call_panics X def def' ptr ptr' s :
  registerWG s = 1 -> initWG s = 1 ->
  exists st s1 s1' st' s2 s2',
    FLBPluginRegister X def s = (Ret st, s1)
    /\ FLBPluginRegister X def' s1
       = (Panic "sync: negative WaitGroup counter", s1')
    /\ FLBPluginInit X ptr s1 = (Ret st', s2)
    /\ FLBPluginInit X ptr' s2
       = (Panic "sync: negative WaitGroup counter", s2').
Proof.
  intros Hr Hw.
  destruct (FLBPluginRegister_returns X def s ltac:(lia))
    as (s1 & E1 & Hr1 & Hw1 & _).
  destruct (FLBPluginRegister_again X def' s1 ltac:(lia)) as (s1' & E1').
  destruct (FLBPluginInit_returns X ptr s1 ltac:(lia) ltac:(lia))
    as (s2 & E2 & Hw2 & Hr2 & _).
  destruct (FLBPluginInit_again X ptr' s2 ltac:(lia) ltac:(lia)) as (s2' & E2').
  eexists _, s1, s1', _, s2, s2'. repeat split; eassumption.
Qed.

Lemma second_host_call_panics_witness :
  exists st s1 s1' st' s2 s2',
    FLBPluginRegister sample 0%nat loaded = (Ret st, s1)
    /\ FLBPluginRegister sample 1%nat s1
       = (Panic "sync: negative WaitGroup counter", s1')
    /\ FLBPluginInit sample 0%nat s1 = (Ret st', s2)
    /\ FLBPluginInit sample 1%nat s2
       = (Panic "sync: negative WaitGroup counter", s2').
Proof.
  apply (second_host_call_panics sample 0%nat 1%nat 0%nat 1%nat loaded).
  - reflexivity.
  - reflexivity.
Defined.



(** ** An error of the user's Flush *)

(** X15. An error the user's [Flush] returns is reported by the one call
    that spawned it, and only if [Flush] has returned by the time that call
    reads [err]: the call writes the error, returns [FLB_ERROR] and hands
    over nothing. Every later call starts from a nil [err] of its own, so
    a call on an empty blob returns [FLB_OK] and writes nothing. *)
Theorem flush_error_reported_once X e data ctag s :
  initWG s <= 0 -> theOutput s <> None -> once s = false ->
  exists s1,
    FLBPluginFlush X (Some (Some e)) data ctag s = (Ret FLB_ERROR, s1)
    /\ emitted s s1 [ERunFlush e]
    /\ flushed s1 = flushed s
    /\ starts s1 = S (starts s)
    /\ forall early' data' ctag',
         codec_SetBytesExt X = None ->
         codec_NewDecoderBytes X data' = DecEOF ->
         FLBPluginFlush X early' data' ctag' s1 = (Ret FLB_OK, s1).
Proof.
  intros Hw Hr Ho.
  set (s0 := snd (start_output (Some (Some e)) s)).
  assert (E0 : start_output (Some (Some e)) s = (Ret tt, s0)) by reflexivity.
  rewrite FLBPluginFlush_accepted by assumption.
  rewrite (bind_Ret _ _ _ _ _ (once_Do_runs _ s s0 Ho E0)).
  unfold flush_after. cbn iota.
  set (s1 := set_trace (trace (set_once true s0) ++ [ERunFlush e])
               (set_once true s0)).
  exists s1. split; [reflexivity |].
  split; [reflexivity |]. split; [reflexivity |]. split; [reflexivity |].
  intros early' data' ctag' Hx Hd.
  rewrite FLBPluginFlush_accepted; [| exact Hw | exact Hr].
  rewrite (bind_Ret _ _ _ _ _ (once_Do_done _ s1 eq_refl)).
  unfold flush_after.
  rewrite (bind_Ret _ _ _ _ _ (ctx_Done_live s1 eq_refl)), Hx, Hd.
  now rewrite flush_loop_eq by reflexivity.
Qed.

Lemma flush_error_reported_once_witness :
  exists s1,
    FLBPluginFlush sample (Some (Some "disk full")) blob_one "mytag" output_ready
    = (Ret FLB_ERROR, s1)
    /\ emitted output_ready s1 [ERunFlush "disk full"]
    /\ flushed s1 = flushed output_ready
    /\ starts s1 = S (starts output_ready)
    /\ forall early' data' ctag',
         codec_SetBytesExt sample = None ->
         codec_NewDecoderBytes sample data' = DecEOF ->
         FLBPluginFlush sample early' data' ctag' s1 = (Ret FLB_OK, s1).
Proof.
  apply (flush_error_reported_once sample "disk full" blob_one "mytag"
           output_ready).
  - vm_compute. discriminate.
  - vm_compute. discriminate.
  - reflexivity.
Defined.

(** ** The record of a decoded entry *)

Lemma convert_record_go_pairs kbs :
  forall acc,
    convert_record (map go_pair kbs) acc
    = inl (foldl (fun m kv => <[kv.1 := kv.2]> m) acc (map string_pair kbs)).
Proof.
  induction kbs as [| [k b] kbs IH]; intros acc; [reflexivity |].
  cbn. now rewrite IH.
Qed.

Lemma convert_record_inl l :
  forall acc rec,
    convert_record l acc = inl rec -> exists kbs, l = map go_pair kbs.
Proof.
  induction l as [| [k v] l IH]; intros acc rec H; [now exists [] |].
  cbn in H. destruct k; try discriminate. destruct v; try discriminate.
  destruct (IH _ _ H) as [kbs ->]. now exists ((s, b) :: kbs).
Qed.

Lemma foldl_insert_rev (l : list (string * string)) :
  forall acc : gmap string string,
    foldl (fun m kv => <[kv.1 := kv.2]> m) acc l = list_to_map (rev l) ∪ acc.
Proof.
  induction l as [| [k v] l IH]; intros acc; cbn.
  - now rewrite (left_id_L ∅ (∪)).
  - rewrite IH, list_to_map_app. cbn.
    rewrite <- (assoc_L (∪)), <- insert_union_l.
    now rewrite (left_id_L ∅ (∪)).
Qed.

Lemma decode_entry_go_pairs t kbs :
  decode_entry [VTime t; VMap (map go_pair kbs)]
  = inl (t, match kbs with
            | [] => None
            | _ => Some (list_to_map (rev (map string_pair kbs)))
            end).
Proof.
  cbn [decode_entry]. destruct kbs as [| kb kbs]; [reflexivity |].
  cbn [map length Nat.eqb].
  change (go_pair kb :: map go_pair kbs) with (map go_pair (kb :: kbs)).
  rewrite convert_record_go_pairs, foldl_insert_rev.
  now rewrite (right_id_L ∅ (∪)).
Qed.

(** X16. The entries [FLBPluginFlush] accepts are exactly the arrays of
    two elements, a time and a map whose keys are all strings and whose
    values are all byte slices; the record handed over is nil when the map
    is empty, and otherwise maps each key to its value read as a string (the
    pair [range] visits last decides, should a key come twice). *)
Theorem decode_entry_accepts entry t rec :
  decode_entry entry = inl (t, rec)
  <-> exists kbs,
        entry = [VTime t; VMap (map go_pair kbs)]
        /\ rec = match kbs with
                 | [] => None
                 | _ => Some (list_to_map (rev (map string_pair kbs)))
                 end.
Proof.
  split.
  - intros H.
    destruct entry as [| e0 [| e1 [| e2 e]]]; try discriminate.
    cbn in H. destruct e0; try discriminate. destruct e1; try discriminate.
    destruct (length l =? 0)%nat eqn:El.
    + destruct l; [| discriminate]. exists []. now inversion H.
    + destruct (convert_record l ∅) as [rec' | ev] eqn:E; [| discriminate].
      destruct (convert_record_inl _ _ _ E) as [kbs ->].
      exists kbs. pose proof (decode_entry_go_pairs t0 kbs) as D.
      cbn [decode_entry] in D. rewrite length_map in D.
      rewrite length_map in El. rewrite El, E in D.
      split; congruence.
  - intros (kbs & -> & ->). apply decode_entry_go_pairs.
Qed.

Lemma keys_rev_string_pairs kbs :
  (rev (map string_pair kbs)).*1 = rev (map fst kbs).
Proof.
  induction kbs as [| [k b] kbs IH]; [reflexivity |].
  cbn. now rewrite fmap_app, IH.
Qed.

(** X17. The order in which [range] visits the pairs of a record does
    not matter: two maps with the same pairs, the keys distinct as in any
    Go map, give the same Message. *)
Theorem decode_entry_any_order t kbs kbs' :
  NoDup (map fst kbs) -> Permutation kbs kbs' ->
  decode_entry [VTime t; VMap (map go_pair kbs)]
  = decode_entry [VTime t; VMap (map go_pair kbs')].
Proof.
  intros Hn Hp. rewrite !decode_entry_go_pairs. f_equal. f_equal.
  assert (E : list_to_map (M := gmap string string) (rev (map string_pair kbs))
              = list_to_map (rev (map string_pair kbs'))).
  { apply list_to_map_proper.
    - rewrite keys_rev_string_pairs.
      apply NoDup_ListNoDup, List.NoDup_rev, NoDup_ListNoDup, Hn.
    - apply Permutation_rev'. now apply Permutation_map. }
  rewrite E. destruct kbs as [| kb kbs].
  - apply Permutation_nil in Hp. now subst kbs'.
  - destruct kbs' as [| kb' kbs']; [| reflexivity].
    symmetry in Hp. now apply Permutation_nil in Hp.
Qed.

Lemma decode_entry_any_order_witness :
  decode_entry [VTime t1; VMap (map go_pair [("a", [98]); ("c", [100])])]
  = decode_entry [VTime t1; VMap (map go_pair [("c", [100]); ("a", [98])])].
Proof.
  apply (decode_entry_any_order t1 [("a", [98]); ("c", [100])]
           [("c", [100]); ("a", [98])]).
  - apply NoDup_ListNoDup. cbn.
    constructor; [intros [H | []]; discriminate |].
    constructor; [intros [] | constructor].
  - apply perm_swap.
Defined.

(** ** What the user's Flush can have received *)

Lemma ctx_Done_nil s :
  runCtx s = None ->
  ctx_Done s = (Panic "invalid memory address or nil pointer dereference", s).
Proof. intros H. unfold ctx_Done, bind, gets. now rewrite H. Qed.

Lemma flush_done_flushed e s : flushed (snd (flush_done e s)) = flushed s.
Proof. now destruct e. Qed.

Lemma flush_loop_prefix tag dec :
  forall s,
    unbuffered s ->
    exists n,
      flushed (snd (flush_loop tag dec s))
      = flushed s ++ map (tagged tag) (firstn n (leading_pairs dec)).
Proof.
  assert (Z0 : forall (s : State) l,
             flushed s = flushed s ++ map (tagged tag) (firstn 0 l)).
  { intros s l. cbn. now rewrite app_nil_r. }
  assert (D : forall dec' s,
             runCtx s <> Some None ->
             flushed (snd (flush_loop tag dec' s)) = flushed s).
  { intros dec' s H.
    destruct (runCtx s) as [[e |] |] eqn:Hc; [| congruence |];
      destruct dec'; cbn [flush_loop];
      first [ rewrite (bind_Ret _ _ _ _ _ (ctx_Done_some s _ Hc));
              apply flush_done_flushed
            | now rewrite (bind_Panic _ _ _ _ _ (ctx_Done_nil s Hc)) ]. }
  induction dec as [| err | entry rest IH]; intros s Hu.
  - exists 0%nat. destruct (runCtx s) as [[e |] |] eqn:Hc.
    + rewrite D by congruence. apply Z0.
    + rewrite flush_loop_eq by exact Hc. apply Z0.
    + rewrite D by congruence. apply Z0.
  - exists 0%nat. destruct (runCtx s) as [[e |] |] eqn:Hc.
    + rewrite D by congruence. apply Z0.
    + rewrite flush_loop_eq by exact Hc. apply (Z0 s).
    + rewrite D by congruence. apply Z0.
  - destruct (runCtx s) as [[e |] |] eqn:Hc;
      [exists 0%nat; rewrite D by congruence; apply Z0 | |
       exists 0%nat; rewrite D by congruence; apply Z0].
    rewrite flush_loop_eq by exact Hc. cbn [leading_pairs].
    destruct (decode_entry entry) as [[t rec] | ev];
      [| exists 0%nat; apply (Z0 s)].
    destruct Hu as [Hn | [closed Hch]].
    + exists 0%nat. unfold bind at 1, chan_send at 1, bind at 1, get.
      rewrite Hn. apply (Z0 s).
    + destruct closed;
        [exists 0%nat; unfold bind at 1, chan_send at 1, bind at 1, get;
         rewrite Hch; apply (Z0 s) |].
      destruct (worker s) as [[| e] |] eqn:Hwk.
      * rewrite (bind_Ret _ _ _ _ _ (chan_send_received _ s Hch Hwk)).
        destruct (IH (set_flushed (flushed s ++ [mkMessage t rec (Some tag)]) s))
          as [n Hn].
        { right. now exists false. }
        exists (S n). rewrite Hn. cbn. now rewrite <- app_assoc.
      * rewrite (bind_Block _ _ _ _ (chan_send_stuck _ s e Hch Hwk)).
        exists 0%nat. apply (Z0 s).
      * exists 0%nat. unfold bind at 1, chan_send at 1, bind at 1, get.
        rewrite Hch, Hwk. apply (Z0 s).
Qed.

Lemma flush_after_prefix X early data ctag ran s :
  unbuffered s ->
  exists n,
    flushed (snd (flush_after X early data ctag ran s))
    = flushed s ++ map (tagged ctag)
                     (firstn n (leading_pairs (codec_NewDecoderBytes X data))).
Proof.
  intros Hu.
  assert (Z0 : flushed s = flushed s ++ map (tagged ctag)
                 (firstn 0 (leading_pairs (codec_NewDecoderBytes X data)))).
  { cbn. now rewrite app_nil_r. }
  unfold flush_after.
  destruct (if ran then match early with Some e => e | None => None end else None)
    as [e |]; [now exists 0%nat |].
  destruct (runCtx s) as [[e |] |] eqn:Hc.
  - rewrite (bind_Ret _ _ _ _ _ (ctx_Done_some s _ Hc)).
    exists 0%nat. now rewrite flush_done_flushed.
  - rewrite (bind_Ret _ _ _ _ _ (ctx_Done_some s _ Hc)).
    destruct (codec_SetBytesExt X); [now exists 0%nat |].
    now apply flush_loop_prefix.
  - rewrite (bind_Panic _ _ _ _ _ (ctx_Done_nil s Hc)). now exists 0%nat.
Qed.

(** X18. Whatever a flush call does (return [FLB_OK] or [FLB_ERROR],
    wait for ever on a send, or panic on a closed channel), and whatever
    the state of the context and of the worker, the user's [Flush] has
    received from it the Messages of some of the entries at the head of the
    blob that pass the checks, none left out, in the blob's order and with
    the call's tag, and nothing else. *)
Theorem flush_hands_over_a_prefix X early data ctag s :
  initWG s <= 0 -> theOutput s <> None ->
  (once s = true -> unbuffered s) ->
  exists n,
    flushed (snd (FLBPluginFlush X early data ctag s))
    = flushed s ++ map (tagged ctag)
                     (firstn n (leading_pairs (codec_NewDecoderBytes X data))).
Proof.
  intros Hw Hr Hu. rewrite FLBPluginFlush_accepted by assumption.
  destruct (once s) eqn:Ho.
  - rewrite (bind_Ret _ _ _ _ _ (once_Do_done _ s Ho)).
    apply flush_after_prefix. now apply Hu.
  - set (s0 := snd (start_output early s)).
    assert (E0 : start_output early s = (Ret tt, s0)) by reflexivity.
    rewrite (bind_Ret _ _ _ _ _ (once_Do_runs _ s s0 Ho E0)).
    destruct (flush_after_prefix X early data ctag true (set_once true s0))
      as [n Hn].
    { right. now exists false. }
    exists n. exact Hn.
Qed.

Lemma flush_hands_over_a_prefix_witness :
  exists n,
    flushed (snd (FLBPluginFlush sample None blob_bad_second "mytag" output_ready))
    = flushed output_ready
      ++ map (tagged "mytag")
           (firstn n (leading_pairs (codec_NewDecoderBytes sample blob_bad_second))).
Proof.
  apply (flush_hands_over_a_prefix sample None blob_bad_second "mytag"
           output_ready).
  - vm_compute. discriminate.
  - vm_compute. discriminate.
  - intros H. vm_compute in H. discriminate.
Defined.

(** ** The redistributor *)

Lemma chan_send_room m s q cap :
  theChannel s = Some (mkChan q cap false) -> Z.of_nat (length q) < cap ->
  chan_send m s
  = (Ret tt, set_theChannel (Some (mkChan (q ++ [m]) cap false)) s).
Proof.
  intros Hch Hr. unfold chan_send, bind, get. rewrite Hch.
  cbn [ch_closed ch_buf ch_cap].
  destruct (Z.ltb_spec (Z.of_nat (length q)) cap); [reflexivity | lia].
Qed.

Lemma chan_send_full m s q cap :
  theChannel s = Some (mkChan q cap false) -> cap <= Z.of_nat (length q) ->
  worker s = None ->
  chan_send m s = (Block, s).
Proof.
  intros Hch Hr Hwk. unfold chan_send, bind, get. rewrite Hch, Hwk.
  cbn [ch_closed ch_buf ch_cap].
  destruct (Z.ltb_spec (Z.of_nat (length q)) cap); [lia | reflexivity].
Qed.

Lemma chan_send_closed m s q cap :
  theChannel s = Some (mkChan q cap true) ->
  chan_send m s = (Panic "send on closed channel", s).
Proof. intros Hch. unfold chan_send, bind, get. now rewrite Hch. Qed.

Ltac run_with L :=
  erewrite bind_Ret by (apply L; first [reflexivity | eassumption]);
  cbn iota.

(** A pass that takes a message or a tick. *)
Lemma redistribute_pass_plain a s c q cap :
  plain_arm a -> polling s c (mkChan q cap false) ->
  Z.of_nat (length (q ++ arm_msgs [a])) <= cap ->
  exists s',
    redistribute_pass a s = (Ret true, s')
    /\ polling s' c (mkChan (q ++ arm_msgs [a]) cap false)
    /\ trace s' = trace s /\ worker s' = worker s.
Proof.
  intros Ha (Hw & Hi & Ho & Hl & Hc & Hch) Hr.
  destruct a as [m | | |]; try destruct Ha; unfold redistribute_pass.
  - cbn [arm_msgs] in *. rewrite length_app in Hr. cbn [length] in Hr.
    run_with mutex_Lock_free. run_with ctx_Done_some.
    run_with mutex_Unlock_held.
    erewrite bind_Ret
      by (apply (chan_send_room m _ q cap); [exact Hch | lia]).
    run_with mutex_Lock_free. run_with mutex_Unlock_held.
    eexists. split; [reflexivity |]. now repeat split.
  - cbn [arm_msgs]. rewrite app_nil_r.
    run_with mutex_Lock_free. run_with ctx_Done_some.
    run_with mutex_Unlock_held. run_with mutex_Lock_free.
    run_with mutex_Unlock_held.
    eexists. split; [reflexivity |]. now repeat split.
Qed.

Lemma arm_msgs_cons a arms : arm_msgs (a :: arms) = arm_msgs [a] ++ arm_msgs arms.
Proof. destruct a; cbn; now rewrite ?app_nil_r. Qed.

Lemma redistribute_plain arms :
  forall s c q cap,
    Forall plain_arm arms -> polling s c (mkChan q cap false) ->
    Z.of_nat (length (q ++ arm_msgs arms)) <= cap ->
    exists s',
      redistribute arms s = (Ret true, s')
      /\ polling s' c (mkChan (q ++ arm_msgs arms) cap false)
      /\ trace s' = trace s /\ worker s' = worker s.
Proof.
  induction arms as [| a arms IH]; intros s c q cap Hf Hp Hr.
  - exists s. cbn [redistribute arm_msgs]. rewrite app_nil_r.
    split; [reflexivity | split; [exact Hp | split; reflexivity]].
  - inversion Hf as [| a' arms' Ha Hf']; subst.
    rewrite arm_msgs_cons, app_assoc in Hr |- *.
    destruct (redistribute_pass_plain a s c q cap Ha Hp)
      as (s1 & E1 & Hp1 & Ht1 & Hk1).
    { rewrite length_app in Hr. lia. }
    destruct (IH s1 c (q ++ arm_msgs [a]) cap Hf' Hp1 Hr)
      as (s2 & E2 & Hp2 & Ht2 & Hk2).
    exists s2. cbn [redistribute]. rewrite (bind_Ret _ _ _ _ _ E1).
    split; [exact E2 |]. split; [exact Hp2 |]. split; congruence.
Qed.

(** X19. While the primary channel has room, the redistributor moves
    the messages it receives from the staging channel into the primary
    channel in the order it received them, behind those already there;
    ticks move nothing. After every pass the lock is free again, and
    nothing is written. *)
Theorem redistribute_keeps_order arms s c q cap :
  Forall plain_arm arms -> polling s c (mkChan q cap false) ->
  Z.of_nat (length (q ++ arm_msgs arms)) <= cap ->
  exists s',
    redistribute arms s = (Ret true, s')
    /\ theChannel s' = Some (mkChan (q ++ arm_msgs arms) cap false)
    /\ buflock s' = false
    /\ trace s' = trace s.
Proof.
  intros Hf Hp Hr.
  destruct (redistribute_plain arms s c q cap Hf Hp Hr)
    as (s' & E & (_ & _ & _ & Hl & _ & Hch) & Ht & _).
  exists s'. now repeat split.
Qed.

Lemma redistribute_keeps_order_witness :
  exists s',
    redistribute [ArmMsg msg1; ArmTick; ArmMsg msg2] input_running = (Ret true, s')
    /\ theChannel s'
       = Some (mkChan ([] ++ arm_msgs [ArmMsg msg1; ArmTick; ArmMsg msg2])
                 300000 false)
    /\ buflock s' = false
    /\ trace s' = trace input_running.
Proof.
  apply (redistribute_keeps_order [ArmMsg msg1; ArmTick; ArmMsg msg2]
           input_running None [] 300000).
  - repeat constructor.
  - repeat split; try (vm_compute; discriminate).
  - cbn. lia.
Defined.

(** X20. From the collector to the host: what the redistributor has
    moved into the primary channel since the last poll call, the next
    poll call hands to the host as one batch, the encodings in the order
    in which the messages were received from the staging channel. If the
    redistributor is by then in the send of a further message and that
    send completes while the drain loop runs, the message is in the same
    batch, behind the others: the order of receipt is kept. *)
Theorem redistribute_then_poll X sel arms encs s cap m enc k :
  Forall plain_arm arms -> polling s None (mkChan [] cap false) ->
  Z.of_nat (length (arm_msgs arms)) <= cap ->
  Forall2 (encodes X) (arm_msgs arms) encs -> encodes X m enc ->
  exists s1,
    redistribute arms s = (Ret true, s1)
    /\ (exists s2,
          FLBPluginInputCallback X sel s1
          = (Ret (FLB_OK, stored (concat encs)), s2)
          /\ theChannel s2 = Some (mkChan [] cap false)
          /\ trace s2 = trace s)
    /\ (arm_msgs arms <> [] -> (k <= length (arm_msgs arms))%nat ->
        exists s2,
          FLBPluginInputCallback_sending X sel k m s1
          = (Ret (FLB_OK, stored (concat encs ++ enc)), s2)
          /\ theChannel s2 = Some (mkChan [] cap false)
          /\ trace s2 = trace s).
Proof.
  intros Hf Hp Hr He Hm.
  destruct (redistribute_plain arms s None [] cap Hf Hp Hr)
    as (s1 & E1 & Hp1 & Ht1 & _).
  cbn [app] in Hp1. exists s1. split; [exact E1 |]. split.
  - destruct (poll_batch_polling X sel s1 (arm_msgs arms) encs cap Hp1 He)
      as (s2 & E2 & (_ & _ & _ & _ & _ & Hch2) & Ht2).
    exists s2. repeat split; try assumption. congruence.
  - intros Hne Hk.
    destruct (poll_batch_sending X sel s1 (arm_msgs arms) encs cap m enc k
                Hp1 Hr Hne Hk He Hm)
      as (s2 & E2 & (_ & _ & _ & _ & _ & Hch2) & Ht2).
    exists s2. repeat split; try assumption. congruence.
Qed.

Lemma redistribute_then_poll_witness :
  exists s1,
    redistribute [ArmMsg msg1; ArmTick] input_running = (Ret true, s1)
    /\ (exists s2,
          FLBPluginInputCallback sample [] s1
          = (Ret (FLB_OK, stored (concat [enc1])), s2)
          /\ theChannel s2 = Some (mkChan [] 300000 false)
          /\ trace s2 = trace input_running)
    /\ (arm_msgs [ArmMsg msg1; ArmTick] <> [] ->
        (0 <= length (arm_msgs [ArmMsg msg1; ArmTick]))%nat ->
        exists s2,
          FLBPluginInputCallback_sending sample [] 0 msg2 s1
          = (Ret (FLB_OK, stored (concat [enc1] ++ enc2)), s2)
          /\ theChannel s2 = Some (mkChan [] 300000 false)
          /\ trace s2 = trace input_running).
Proof.
  apply (redistribute_then_poll sample [] [ArmMsg msg1; ArmTick] [enc1]
           input_running 300000 msg2 enc2 0%nat).
  - repeat constructor.
  - repeat split; try (vm_compute; discriminate).
  - cbn. lia.
  - repeat constructor.
  - vm_compute. reflexivity.
Defined.

(** X21. When the primary channel is full, the redistributor waits in
    its send without holding the lock: the message it took from the
    staging channel is in neither channel, the primary channel is as it
    was, and a poll call is not kept out. *)
Theorem redistribute_full_channel msg arms s c q cap :
  polling s c (mkChan q cap false) -> cap <= Z.of_nat (length q) ->
  worker s = None ->
  exists s',
    redistribute (ArmMsg msg :: arms) s = (Block, s')
    /\ theChannel s' = Some (mkChan q cap false)
    /\ buflock s' = false
    /\ polling s' c (mkChan q cap false).
Proof.
  intros (Hw & Hi & Ho & Hl & Hc & Hch) Hr Hwk.
  cbn [redistribute]. unfold redistribute_pass, bind at 1.
  run_with mutex_Lock_free. run_with ctx_Done_some.
  run_with mutex_Unlock_held.
  erewrite bind_Block
    by (apply (chan_send_full msg _ q cap); [exact Hch | exact Hr | exact Hwk]).
  eexists. split; [reflexivity |]. now repeat split.
Qed.

Lemma redistribute_full_channel_witness :
  exists s',
    redistribute (ArmMsg msg2 :: [])
      (set_theChannel (Some (mkChan [msg1] 1 false)) input_running) = (Block, s')
    /\ theChannel s' = Some (mkChan [msg1] 1 false)
    /\ buflock s' = false
    /\ polling s' None (mkChan [msg1] 1 false).
Proof.
  apply (redistribute_full_channel msg2 []
           (set_theChannel (Some (mkChan [msg1] 1 false)) input_running)
           None [msg1] 1).
  - repeat split; try (vm_compute; discriminate).
  - cbn. lia.
  - reflexivity.
Defined.

(** X22. A staging channel that has been closed wedges the input side.
    The pass that finds it closed goes round the loop with the lock held
    ([continue] skips the [Unlock]), so the redistributor waits for ever
    on its own lock at the top of the next pass, and so does every poll
    call after it. *)
Theorem closed_staging_channel_wedges X a arms s c ch :
  polling s c ch ->
  exists s',
    redistribute (ArmClosed :: a :: arms) s = (Block, s')
    /\ buflock s' = true
    /\ theChannel s' = Some ch
    /\ forall sel, FLBPluginInputCallback X sel s' = (Block, s').
Proof.
  intros (Hw & Hi & Ho & Hl & Hc & Hch).
  cbn [redistribute]. unfold redistribute_pass at 1.
  unfold bind at 1. run_with mutex_Lock_free. run_with ctx_Done_some.
  cbn [ret]. unfold redistribute_pass, bind at 1.
  erewrite bind_Block by (apply mutex_Lock_held; reflexivity).
  eexists. split; [reflexivity |]. split; [reflexivity |].
  split; [exact Hch |].
  intros sel. rewrite FLBPluginInputCallback_accepted by assumption.
  rewrite (bind_Ret _ _ _ _ _ (once_Do_done _ (set_buflock true s) Ho)).
  unfold drain. now erewrite bind_Block by (apply mutex_Lock_held; reflexivity).
Qed.

Lemma closed_staging_channel_wedges_witness :
  exists s',
    redistribute (ArmClosed :: ArmTick :: []) input_running = (Block, s')
    /\ buflock s' = true
    /\ theChannel s' = Some (mkChan [] 300000 false)
    /\ forall sel, FLBPluginInputCallback sample sel s' = (Block, s').
Proof.
  apply (closed_staging_channel_wedges sample ArmTick [] input_running None
           (mkChan [] 300000 false)).
  repeat split; try (vm_compute; discriminate).
Defined.

(** X23. After [FLBPluginExit] the redistributor ends its loop if its
    [select] takes the done context; if it takes a message that is still
    waiting in the staging channel, its send finds the primary channel
    closed and panics. *)
Theorem redistribute_after_exit msg arms s ch :
  polling s None ch -> ch_closed ch = false ->
  exists s1,
    FLBPluginExit s = (Ret FLB_OK, s1)
    /\ (exists s2, redistribute (ArmDone :: arms) s1 = (Ret false, s2)
                   /\ buflock s2 = false)
    /\ (exists s2, redistribute (ArmMsg msg :: arms) s1
                   = (Panic "send on closed channel", s2)
                   /\ buflock s2 = false).
Proof.
  intros (Hw & Hi & Ho & Hl & Hc & Hch) Hopen.
  destruct (FLBPluginExit_open s ch Hch Hopen)
    as (s1 & E & Hch1 & Hc1 & _ & _ & _ & _ & _ & Hl1 & _).
  rewrite Hc in Hc1. cbn in Hc1. rewrite Hl in Hl1.
  exists s1. split; [exact E |]. split.
  - cbn [redistribute]. unfold redistribute_pass, bind at 1.
    run_with mutex_Lock_free. run_with ctx_Done_some.
    run_with mutex_Unlock_held. cbn [ret].
    eexists. split; reflexivity.
  - cbn [redistribute]. unfold redistribute_pass, bind at 1.
    run_with mutex_Lock_free. run_with ctx_Done_some.
    run_with mutex_Unlock_held.
    erewrite bind_Panic by (eapply chan_send_closed; exact Hch1).
    eexists. split; reflexivity.
Qed.

Lemma redistribute_after_exit_witness :
  exists s1,
    FLBPluginExit input_running = (Ret FLB_OK, s1)
    /\ (exists s2, redistribute (ArmDone :: []) s1 = (Ret false, s2)
                   /\ buflock s2 = false)
    /\ (exists s2, redistribute (ArmMsg msg1 :: []) s1
                   = (Panic "send on closed channel", s2)
                   /\ buflock s2 = false).
Proof.
  apply (redistribute_after_exit msg1 [] input_running (mkChan [] 300000 false)).
  - repeat split; try (vm_compute; discriminate).
  - reflexivity.
Defined.

(** ** The errors of the run context *)

Lemma holds_ret {A} (a : A) (Q : A -> Prop) : Q a -> holds (ret a) Q.
Proof.
  intros H s G. split; [exact G |]. cbn. intros a' E.
  inversion E; subst. exact H.
Qed.

Lemma holds_panic {A} msg (Q : A -> Prop) : holds (panic msg) Q.
Proof. intros s G. split; [exact G |]. cbn. intros a E. discriminate. Qed.

Lemma holds_block {A} (Q : A -> Prop) : holds block Q.
Proof. intros s G. split; [exact G |]. cbn. intros a E. discriminate. Qed.

Lemma holds_get : holds get (fun _ => True).
Proof. intros s G. split; [exact G | trivial]. Qed.

Lemma holds_gets {A} (f : State -> A) : holds (gets f) (fun _ => True).
Proof. intros s G. split; [exact G | trivial]. Qed.

Lemma holds_bind {A B} (m : M A) (k : A -> M B) Q R :
  holds m Q -> (forall a, Q a -> holds (k a) R) -> holds (bind m k) R.
Proof.
  intros Hm Hk s G. destruct (Hm s G) as [G1 HQ]. unfold bind.
  destruct (m s) as [[a | msg |] s1]; cbn in *.
  - apply (Hk a (HQ a eq_refl) s1 G1).
  - split; [exact G1 | discriminate].
  - split; [exact G1 | discriminate].
Qed.

Lemma holds_modify (f : State -> State) :
  (forall s, runCtx (f s) = runCtx s /\ trace (f s) = trace s) ->
  holds (modify f) (fun _ => True).
Proof.
  intros H s [G1 G2]. split; [| trivial]. cbn.
  destruct (H s) as [E1 E2]. split; [now rewrite E1 | now rewrite E2].
Qed.

Lemma holds_set_runCtx c :
  c <> Some (Some DeadlineExceeded) ->
  holds (modify (set_runCtx c)) (fun _ => True).
Proof. intros H s [G1 G2]. split; [| trivial]. now split. Qed.

Lemma holds_emit e :
  (forall c, e <> ERun c) -> holds (emit e) (fun _ => True).
Proof.
  intros H s [G1 G2]. split; [| trivial]. split; [exact G1 |].
  cbn. intros c Hin. apply in_app_or in Hin. destruct Hin as [Hin | [E | []]].
  - exact (G2 c Hin).
  - exact (H c E).
Qed.

Lemma holds_defer {A} (d : M unit) (body : M A) Q :
  holds d (fun _ => True) -> holds body Q -> holds (defer d body) Q.
Proof.
  intros Hd Hb s G. destruct (Hb s G) as [G1 HQ]. unfold defer.
  destruct (body s) as [[a | msg |] s1]; cbn in *.
  - destruct (Hd s1 G1) as [G2 _].
    destruct (d s1) as [[[] | msg |] s2]; cbn in *;
      (split; [exact G2 |]); intros a' E; try discriminate.
    inversion E; subst. now apply HQ.
  - split; [apply (Hd s1 G1) | discriminate].
  - split; [exact G1 | discriminate].
Qed.

Lemma holds_ctx_Done : holds ctx_Done (fun d => d <> Some DeadlineExceeded).
Proof.
  intros s G. split.
  - unfold ctx_Done, bind, gets. now destruct (runCtx s).
  - intros d E. unfold ctx_Done, bind, gets in E.
    destruct (runCtx s) as [c |] eqn:Hc; [| discriminate].
    cbn in E. inversion E; subst. destruct G as [G _]. congruence.
Qed.

Create HintDb holds.
#[local] Hint Resolve holds_panic holds_block holds_get holds_gets : holds.

Ltac holds_step :=
  first
    [ solve [eauto with holds]
    | match goal with
      | |- holds (ret _) _ => solve [apply holds_ret; first [trivial | discriminate]]
      | |- holds (bind _ _) _ => eapply holds_bind; [| intros ? ?]
      | |- holds (modify _) _ =>
          solve [apply holds_modify; intros ?; split; reflexivity]
      | |- holds (emit _) _ => solve [apply holds_emit; intros ?; discriminate]
      | |- holds (defer _ _) _ => apply holds_defer
      | |- holds (match ?x with _ => _ end) _ => destruct x eqn:?
      | |- holds (let _ := _ in _) _ => cbv zeta
      end ].

Lemma holds_wg_Wait rd : holds (wg_Wait rd) (fun _ => True).
Proof. unfold wg_Wait. repeat holds_step. Qed.

Lemma holds_wg_Done rd wr :
  (forall v s, runCtx (wr v s) = runCtx s /\ trace (wr v s) = trace s) ->
  holds (wg_Done rd wr) (fun _ => True).
Proof.
  intros H. unfold wg_Done. repeat holds_step.
  apply holds_modify. intros s. apply H.
Qed.

Lemma holds_mutex_Lock : holds mutex_Lock (fun _ => True).
Proof. unfold mutex_Lock. repeat holds_step. Qed.

Lemma holds_mutex_Unlock : holds mutex_Unlock (fun _ => True).
Proof. unfold mutex_Unlock. repeat holds_step. Qed.

Lemma holds_chan_send m : holds (chan_send m) (fun _ => True).
Proof. unfold chan_send. repeat holds_step. Qed.

Lemma holds_chan_pop : holds (modify chan_pop) (fun _ => True).
Proof.
  apply holds_modify. intros s. unfold chan_pop. now destruct (theChannel s).
Qed.

Lemma holds_chan_close : holds chan_close (fun _ => True).
Proof. unfold chan_close. repeat holds_step. Qed.

#[local] Hint Resolve holds_wg_Wait holds_mutex_Lock holds_mutex_Unlock
  holds_ctx_Done holds_chan_send holds_chan_pop holds_chan_close : holds.

Lemma holds_drain_done buf e :
  e <> DeadlineExceeded -> holds (drain_done buf e) (fun _ => True).
Proof. intros H. destruct e; [| contradiction]. now apply holds_ret. Qed.

Lemma holds_flush_done e :
  e <> DeadlineExceeded -> holds (flush_done e) (fun _ => True).
Proof. intros H. destruct e; [| contradiction]. now apply holds_ret. Qed.

Ltac holds_done :=
  match goal with
  | H : Some ?e <> Some DeadlineExceeded |- holds (drain_done _ ?e) _ =>
      apply holds_drain_done; congruence
  | H : Some ?e <> Some DeadlineExceeded |- holds (flush_done ?e) _ =>
      apply holds_flush_done; congruence
  end.

Lemma holds_drain_loop X q :
  forall sel buf, holds (drain_loop X sel q buf) (fun _ => True).
Proof.
  induction q as [| m q IH]; intros sel buf; cbn [drain_loop];
    repeat first [holds_done | apply IH | holds_step].
Qed.

Lemma convert_record_event l :
  forall acc ev c, convert_record l acc = inr ev -> ev <> ERun c.
Proof.
  induction l as [| [k v] l IH]; intros acc ev c H; [discriminate |].
  cbn in H. destruct k; try (inversion H; discriminate).
  destruct v; try (inversion H; discriminate).
  exact (IH _ _ c H).
Qed.

Lemma decode_entry_event entry ev c : decode_entry entry = inr ev -> ev <> ERun c.
Proof.
  intros H. destruct entry as [| e0 [| e1 [| e2 e]]];
    try (inversion H; discriminate).
  cbn in H. destruct e0; try (inversion H; discriminate).
  destruct e1; try (inversion H; discriminate).
  destruct (length l =? 0)%nat; [discriminate |].
  destruct (convert_record l ∅) as [rec | ev'] eqn:E; [discriminate |].
  inversion H; subst. exact (convert_record_event _ _ _ c E).
Qed.

Lemma holds_flush_loop tag dec : holds (flush_loop tag dec) (fun _ => True).
Proof.
  induction dec as [| err | entry rest IH]; cbn [flush_loop];
    repeat first
      [ holds_done | apply IH | holds_step
      | match goal with
        | H : decode_entry _ = inr ?e |- holds (emit ?e) _ =>
            apply holds_emit; intros c; exact (decode_entry_event _ _ c H)
        end ].
Qed.

#[local] Hint Resolve holds_drain_loop holds_flush_loop : holds.

Lemma holds_once_Do f :
  holds f (fun _ => True) -> holds (once_Do f) (fun _ => True).
Proof. intros H. unfold once_Do. repeat first [exact H | holds_step]. Qed.

Lemma holds_start_input : holds start_input (fun _ => True).
Proof.
  unfold start_input.
  repeat first [apply holds_set_runCtx; discriminate | holds_step].
Qed.

Lemma holds_start_output early : holds (start_output early) (fun _ => True).
Proof.
  unfold start_output.
  repeat first [apply holds_set_runCtx; discriminate | holds_step].
Qed.

Lemma holds_FLBPluginInputCallback X sel :
  holds (FLBPluginInputCallback X sel) (fun _ => True).
Proof.
  unfold FLBPluginInputCallback, drain.
  repeat first [apply holds_once_Do, holds_start_input | holds_step].
Qed.

Lemma holds_FLBPluginFlush X early data ctag :
  holds (FLBPluginFlush X early data ctag) (fun _ => True).
Proof.
  unfold FLBPluginFlush, flush_after.
  repeat first [apply holds_once_Do, holds_start_output | holds_done | holds_step].
Qed.

Lemma holds_FLBPluginRegister X def :
  holds (FLBPluginRegister X def) (fun _ => True).
Proof.
  unfold FLBPluginRegister.
  repeat first [apply holds_wg_Done; intros; split; reflexivity | holds_step].
Qed.

Lemma holds_FLBPluginInit X ptr :
  holds (FLBPluginInit X ptr) (fun _ => True).
Proof.
  unfold FLBPluginInit, init_result.
  repeat first [apply holds_wg_Done; intros; split; reflexivity | holds_step].
Qed.

Lemma holds_cancel :
  holds (modify (fun s => set_runCtx (cancel_ctx (runCtx s)) s)) (fun _ => True).
Proof.
  intros s [G1 G2]. split; [| trivial]. split; [| exact G2]. cbn.
  destruct (runCtx s) as [[[|] |] |]; cbn; congruence.
Qed.

Lemma holds_FLBPluginExit : holds FLBPluginExit (fun _ => True).
Proof.
  unfold FLBPluginExit.
  eapply holds_bind; [apply holds_get | intros s _].
  apply holds_defer; [repeat holds_step |].
  repeat first [apply holds_cancel | holds_step].
Qed.

Lemma host_step_cancel_only X c s :
  cancel_only s -> cancel_only (host_step X c s).
Proof.
  intros G. destruct c; cbn [host_step].
  - apply (holds_FLBPluginRegister X def s G).
  - apply (holds_FLBPluginInit X ptr s G).
  - apply (holds_FLBPluginInputCallback X sel s G).
  - exact G.
  - apply (holds_FLBPluginFlush X early data ctag s G).
  - apply (holds_FLBPluginExit s G).
Qed.

(** X24. The context the entry points make comes from
    [context.WithCancel] and only [FLBPluginExit] ends it, with
    [context.Canceled]. So in no sequence of calls of the exported entry
    points, whatever they return, does the poll or the flush call find an
    error of the context other than [context.Canceled]: the branches that
    write [run: ...] for the context and return [FLB_ERROR] are never
    taken. *)
Theorem context_error_is_Canceled X cs s :
  cancel_only s -> cancel_only (host_run X cs s).
Proof.
  revert s. induction cs as [| c cs IH]; intros s G; [exact G |].
  cbn. apply IH. now apply host_step_cancel_only.
Qed.

Lemma context_error_is_Canceled_witness :
  cancel_only
    (host_run sample
       [CallRegister 0%nat; CallInit 0%nat; CallPoll []; CallExit; CallPoll [false]]
       (snd (RegisterInput "in" "example input" sample_input loaded))).
Proof.
  apply (context_error_is_Canceled sample
           [CallRegister 0%nat; CallInit 0%nat; CallPoll []; CallExit; CallPoll [false]]
           (snd (RegisterInput "in" "example input" sample_input loaded))).
  split; [discriminate | intros e []].
Defined.
